(** * Event dispatch core of the shell (event.cpp)

    A shallow embedding of the handler registry, the signal capture
    buffers, the blocked-occurrence queue and the dispatch engine of
    [event.cpp], followed by the properties stated about them.

    Conventions.
    - A C [int] is a [Z]; a [size_t] loop index is a [nat].  The three
      [int]s that are incremented stay far inside the range of the type:
      [count] never exceeds 64, [found] never exceeds the size of
      [events], and [is_event] is the depth of nested calls.
    - An [event_t *] held in one of the global vectors is an address in
      an explicit free store ([heap]); [new] hands out an address that was
      never used before, [delete] removes the cell.  Reading or freeing an
      address whose cell is gone is undefined behaviour in C++ and is an
      explicit [Undefined] outcome here.
    - Code that can call back into this file (the evaluator running a
      handler body) is a parameter [eval] of the dispatch functions.
    - Loops whose bound is re-read from the global state on every
      iteration take a [fuel] argument; [Out_of_fuel] is not a behaviour
      of the program. *)

From Stdlib Require Import ZArith String.
From stdpp Require Import base decidable option numbers list gmap strings.

Open Scope string_scope.
Open Scope list_scope.
Open Scope Z_scope.

(** ** Data model *)

Definition wcstring : Type := string.
Abbreviation wcstring_list_t := (list wcstring) (only parsing).

(** [wcstring::empty()] *)
Definition wempty (w : wcstring) : bool := String.eqb w "".

(** The anonymous enum of event types (the [type] field is compared
    against these six enumerators only). *)
Inductive event_type : Set :=
| EVENT_ANY
| EVENT_SIGNAL
| EVENT_VARIABLE
| EVENT_EXIT
| EVENT_JOB_ID
| EVENT_GENERIC.

#[global] Instance event_type_eq_dec : EqDecision event_type.
Proof. solve_decision. Defined.

(** [event_t].  [param1] is a union of three [int]s ([signal], [pid],
    [job_id]) sharing their storage, hence one field.  [arguments] is an
    owning pointer that may be null. *)
Record event_t : Type := Event {
  type : event_type;
  param1 : Z;
  str_param1 : wcstring;
  function_name : wcstring;
  arguments : option wcstring_list_t
}.

(** Collaborators of this file whose code is elsewhere: the two wildcard
    constants of the event header, the signal-name table and the shell
    escaping routine.  They are taken as parameters. *)
Class Env : Type := {
  EVENT_ANY_SIGNAL : Z;
  EVENT_ANY_PID : Z;
  sig2wcs : Z -> wcstring;
  escape_string : wcstring -> Z -> wcstring
}.

(** Modelled from the spec: the constructor [event_t(int t)] of the event
    header, which is not part of this file.  It sets the type and leaves
    the parameter zero, both strings empty and the argument list absent
    (the drained signal occurrence has a wildcard, i.e. empty, handler
    name). *)
Definition event_new (t : event_type) : event_t :=
  {| type := t; param1 := 0; str_param1 := ""; function_name := "";
     arguments := None |}.

Definition set_param1 (v : Z) (e : event_t) : event_t :=
  {| type := type e; param1 := v; str_param1 := str_param1 e;
     function_name := function_name e; arguments := arguments e |}.

Definition set_str_param1 (v : wcstring) (e : event_t) : event_t :=
  {| type := type e; param1 := param1 e; str_param1 := v;
     function_name := function_name e; arguments := arguments e |}.

Definition set_arguments (v : option wcstring_list_t) (e : event_t) : event_t :=
  {| type := type e; param1 := param1 e; str_param1 := str_param1 e;
     function_name := function_name e; arguments := v |}.

(** [event_t::signal_event], [variable_event], [generic_event] *)
Definition signal_event (sig : Z) : event_t :=
  set_param1 sig (event_new EVENT_SIGNAL).

Definition variable_event (str : wcstring) : event_t :=
  set_str_param1 str (event_new EVENT_VARIABLE).

Definition generic_event (str : wcstring) : event_t :=
  set_str_param1 str (event_new EVENT_GENERIC).

(** The argument strings of a descriptor, none when the list is absent. *)
Definition args_of (e : event_t) : wcstring_list_t :=
  match arguments e with Some l => l | None => [] end.

(** [SIG_UNHANDLED_MAX] *)
Definition SIG_UNHANDLED_MAX : Z := 64.

(** [signal_list_t]: [signal] is the array of [SIG_UNHANDLED_MAX] ints. *)
Record signal_list_t : Type := SignalList {
  count : Z;
  overflow : Z;
  signal : list Z
}.

(** Addresses of heap-allocated events. *)
Definition ptr : Set := nat.

Abbreviation event_list_t := (list ptr) (only parsing).

(** Modelled from the spec: the scope stack of the interpreter, which is
    not part of this file.  Each scope answers whether it blocks a given
    event type; a scope pushed for a handler is tagged with the occurrence
    that triggered it. *)
Abbreviation event_block_list_t := (list event_type) (only parsing).

Definition event_block_list_blocks_type
    (ebls : event_block_list_t) (t : event_type) : bool :=
  bool_decide (t ∈ ebls).

Inductive block_type_t : Set := TOP | EVENT.

Record block_t : Type := Block {
  block_type : block_type_t;
  event_blocks : event_block_list_t;
  state1 : option event_t
}.

(** What the collaborators are asked to do, in the order of the calls. *)
Inductive diagnostic : Set :=
| Signal_list_overflow
| Null_argument (func arg : string).

Inductive obs : Type :=
| Obs_signal_handle (sig : Z) (do_handle : Z)
| Obs_debug (msg : diagnostic)
| Obs_eval (cmd : wcstring).

(** The globals of the file ([events], [killme], [blocked], [sig_list],
    [active_list]), the free store they point into, and the state of the
    collaborators the file reads and writes: the nesting counter
    [is_event], the last exit status, the interactive flag with its stack,
    and the scope stack (innermost first) with the global event blocks. *)
Record state : Type := State {
  heap : gmap nat event_t;
  next_ptr : ptr;
  events : event_list_t;
  killme : event_list_t;
  blocked : event_list_t;
  sig_list : signal_list_t * signal_list_t;
  active_list : Z;
  is_event : Z;
  last_status : Z;
  is_interactive : Z;
  interactive_stack : list Z;
  current_block : list block_t;
  global_event_blocks : event_block_list_t;
  trace : list obs
}.

Definition with_heap (v : gmap nat event_t) (s : state) : state :=
  State v (next_ptr s) (events s) (killme s) (blocked s) (sig_list s)
    (active_list s) (is_event s) (last_status s) (is_interactive s)
    (interactive_stack s) (current_block s) (global_event_blocks s) (trace s).

Definition with_next_ptr (v : ptr) (s : state) : state :=
  State (heap s) v (events s) (killme s) (blocked s) (sig_list s)
    (active_list s) (is_event s) (last_status s) (is_interactive s)
    (interactive_stack s) (current_block s) (global_event_blocks s) (trace s).

Definition with_events (v : event_list_t) (s : state) : state :=
  State (heap s) (next_ptr s) v (killme s) (blocked s) (sig_list s)
    (active_list s) (is_event s) (last_status s) (is_interactive s)
    (interactive_stack s) (current_block s) (global_event_blocks s) (trace s).

Definition with_killme (v : event_list_t) (s : state) : state :=
  State (heap s) (next_ptr s) (events s) v (blocked s) (sig_list s)
    (active_list s) (is_event s) (last_status s) (is_interactive s)
    (interactive_stack s) (current_block s) (global_event_blocks s) (trace s).

Definition with_blocked (v : event_list_t) (s : state) : state :=
  State (heap s) (next_ptr s) (events s) (killme s) v (sig_list s)
    (active_list s) (is_event s) (last_status s) (is_interactive s)
    (interactive_stack s) (current_block s) (global_event_blocks s) (trace s).

Definition with_sig_list (v : signal_list_t * signal_list_t) (s : state) : state :=
  State (heap s) (next_ptr s) (events s) (killme s) (blocked s) v
    (active_list s) (is_event s) (last_status s) (is_interactive s)
    (interactive_stack s) (current_block s) (global_event_blocks s) (trace s).

Definition with_active_list (v : Z) (s : state) : state :=
  State (heap s) (next_ptr s) (events s) (killme s) (blocked s) (sig_list s)
    v (is_event s) (last_status s) (is_interactive s)
    (interactive_stack s) (current_block s) (global_event_blocks s) (trace s).

Definition with_is_event (v : Z) (s : state) : state :=
  State (heap s) (next_ptr s) (events s) (killme s) (blocked s) (sig_list s)
    (active_list s) v (last_status s) (is_interactive s)
    (interactive_stack s) (current_block s) (global_event_blocks s) (trace s).

Definition with_last_status (v : Z) (s : state) : state :=
  State (heap s) (next_ptr s) (events s) (killme s) (blocked s) (sig_list s)
    (active_list s) (is_event s) v (is_interactive s)
    (interactive_stack s) (current_block s) (global_event_blocks s) (trace s).

Definition with_is_interactive (v : Z) (s : state) : state :=
  State (heap s) (next_ptr s) (events s) (killme s) (blocked s) (sig_list s)
    (active_list s) (is_event s) (last_status s) v
    (interactive_stack s) (current_block s) (global_event_blocks s) (trace s).

Definition with_interactive_stack (v : list Z) (s : state) : state :=
  State (heap s) (next_ptr s) (events s) (killme s) (blocked s) (sig_list s)
    (active_list s) (is_event s) (last_status s) (is_interactive s)
    v (current_block s) (global_event_blocks s) (trace s).

Definition with_current_block (v : list block_t) (s : state) : state :=
  State (heap s) (next_ptr s) (events s) (killme s) (blocked s) (sig_list s)
    (active_list s) (is_event s) (last_status s) (is_interactive s)
    (interactive_stack s) v (global_event_blocks s) (trace s).

Definition with_global_event_blocks (v : event_block_list_t) (s : state) : state :=
  State (heap s) (next_ptr s) (events s) (killme s) (blocked s) (sig_list s)
    (active_list s) (is_event s) (last_status s) (is_interactive s)
    (interactive_stack s) (current_block s) v (trace s).

Definition with_trace (v : list obs) (s : state) : state :=
  State (heap s) (next_ptr s) (events s) (killme s) (blocked s) (sig_list s)
    (active_list s) (is_event s) (last_status s) (is_interactive s)
    (interactive_stack s) (current_block s) (global_event_blocks s) v.

(** ** Outcomes *)

Inductive fault : Set :=
| Dangling (p : ptr)
| Double_free (p : ptr)
| Out_of_bounds (i : nat).

Inductive outcome (A : Type) : Type :=
| Ok (a : A)
| Out_of_fuel
| Undefined (f : fault).

Arguments Ok {A} a.
Arguments Out_of_fuel {A}.
Arguments Undefined {A} f.

Definition bind {A B : Type} (m : outcome A) (k : A -> outcome B) : outcome B :=
  match m with
  | Ok a => k a
  | Out_of_fuel => Out_of_fuel
  | Undefined f => Undefined f
  end.

Notation "x <- m ;; k" := (bind m (fun x => k))
  (at level 100, m at next level, right associativity).

(** The evaluator collaborator, [parser.eval(cmd, 0, TOP)]: it runs the
    text of a command in the current state and may call back into any
    public function of this file. *)
Definition evaluator : Type := wcstring -> state -> outcome state.

(** ** Modelled collaborators *)

(** Modelled from the spec: the macro [CHECK(arg, retval)] of the common
    header, which is not part of this file.  On a null argument it reports
    the violated precondition and makes the function return [retval]; the
    report is all the function does. *)
Definition debug (msg : diagnostic) (s : state) : state :=
  with_trace (trace s ++ [Obs_debug msg]) s.

Definition CHECK_failed (func arg : string) (s : state) : state :=
  debug (Null_argument func arg) s.

(** Modelled from the spec: [signal_handle(sig, do_handle)] of the signal
    module asks the operating system to start ([do_handle = 1]) or stop
    ([do_handle = 0]) delivering [sig]; the request is recorded.
    [signal_block()] and [signal_unblock()] suspend asynchronous delivery
    around an update of [events] and change no state of this model. *)
Definition signal_handle (sig do_handle : Z) (s : state) : state :=
  with_trace (trace s ++ [Obs_signal_handle sig do_handle]) s.

(** Modelled from the spec: the interactive flag and its save stack
    ([proc_push_interactive], [proc_pop_interactive]) and the last exit
    status ([proc_get_last_status], [proc_set_last_status]) of the process
    module.  The head of [interactive_stack] is the most recent save. *)
Definition proc_push_interactive (value : Z) (s : state) : state :=
  with_is_interactive value
    (with_interactive_stack (is_interactive s :: interactive_stack s) s).

Definition proc_pop_interactive (s : state) : state :=
  match interactive_stack s with
  | [] => s
  | old :: rest => with_is_interactive old (with_interactive_stack rest s)
  end.

Definition proc_get_last_status (s : state) : Z := last_status s.

Definition proc_set_last_status (v : Z) (s : state) : state :=
  with_last_status v s.

(** Modelled from the spec: [parser.push_block(EVENT)] followed by the
    assignment of the triggering occurrence to the new scope, and
    [parser.pop_block()].  A new scope blocks no event type. *)
Definition push_block (t : block_type_t) (tag : option event_t) (s : state) : state :=
  with_current_block
    ({| block_type := t; event_blocks := []; state1 := tag |} :: current_block s) s.

Definition pop_block (s : state) : state :=
  with_current_block (tail (current_block s)) s.

(** ** The free store *)

Definition deref (p : ptr) (s : state) : outcome event_t :=
  match heap s !! p with
  | Some e => Ok e
  | None => Undefined (Dangling p)
  end.

(** [new event_t(e)] *)
Definition alloc (e : event_t) (s : state) : ptr * state :=
  (next_ptr s,
   with_next_ptr (S (next_ptr s)) (with_heap (<[next_ptr s := e]> (heap s)) s)).

(** [event_free]: [delete e].  Its null check cannot fail on an address. *)
Definition event_free (e : ptr) (s : state) : outcome state :=
  match heap s !! e with
  | Some _ => Ok (with_heap (delete e (heap s)) s)
  | None => Undefined (Double_free e)
  end.

(** ** Signal capture buffers *)

(** [sig_list[k]] for [k] in 0..1 *)
Definition sig_slot (k : Z) (s : state) : signal_list_t :=
  if k =? 0 then fst (sig_list s) else snd (sig_list s).

Definition set_sig_slot (k : Z) (v : signal_list_t) (s : state) : state :=
  if k =? 0 then with_sig_list (v, snd (sig_list s)) s
  else with_sig_list (fst (sig_list s), v) s.

(** [event_fire_signal].  The store [signal[count++] = sig] is guarded by
    [count < SIG_UNHANDLED_MAX]; [count] starts at zero and is only
    incremented or reset to zero. *)
Definition event_fire_signal (sig : Z) (s : state) : state :=
  let l := sig_slot (active_list s) s in
  if count l <? SIG_UNHANDLED_MAX then
    set_sig_slot (active_list s)
      {| count := count l + 1; overflow := overflow l;
         signal := <[Z.to_nat (count l) := sig]> (signal l) |} s
  else
    set_sig_slot (active_list s)
      {| count := count l; overflow := 1; signal := signal l |} s.

(** The signals a slot holds: the first [count] cells of its array. *)
Definition captured (l : signal_list_t) : list Z :=
  take (Z.to_nat (count l)) (signal l).

(** ** The functions of event.cpp *)

Section Event.
Context `{Env}.

(** [event_match] *)
Definition event_match (classv instance : event_t) : bool :=
  if negb (wempty (function_name classv))
     && negb (wempty (function_name instance))
     && negb (String.eqb (function_name classv) (function_name instance))
  then false
  else if bool_decide (type classv = EVENT_ANY) then true
  else if negb (bool_decide (type classv = type instance)) then false
  else
    match type classv with
    | EVENT_SIGNAL =>
        if param1 classv =? EVENT_ANY_SIGNAL then true
        else param1 classv =? param1 instance
    | EVENT_VARIABLE => String.eqb (str_param1 instance) (str_param1 classv)
    | EVENT_EXIT =>
        if param1 classv =? EVENT_ANY_PID then true
        else param1 classv =? param1 instance
    | EVENT_JOB_ID => param1 classv =? param1 instance
    | EVENT_GENERIC => String.eqb (str_param1 instance) (str_param1 classv)
    | EVENT_ANY => false
    end.

(** The value [event_copy] stores: the copy constructor copies every
    field, then the argument list is replaced by a new empty list, which
    receives the original strings when [copy_arguments] is set and the
    original list is present. *)
Definition event_copy_value (event : event_t) (copy_arguments : bool) : event_t :=
  set_arguments
    (Some (if copy_arguments
           then match arguments event with Some l => l | None => [] end
           else []))
    event.

(** [event_copy] *)
Definition event_copy (event : event_t) (copy_arguments : bool) (s : state)
    : ptr * state :=
  alloc (event_copy_value event copy_arguments) s.

(** [event_is_blocked] *)
Definition event_is_blocked (e : event_t) (s : state) : bool :=
  existsb (fun block => event_block_list_blocks_type (event_blocks block) (type e))
          (current_block s)
  || event_block_list_blocks_type (global_event_blocks s) (type e).

(** [event_add_handler] *)
Definition event_add_handler (event : option event_t) (s : state) : state :=
  match event with
  | None => CHECK_failed "event_add_handler" "event" s
  | Some ev =>
      let '(e, s1) := event_copy ev false s in
      let s2 :=
        if bool_decide (type ev = EVENT_SIGNAL)
        then signal_handle (param1 ev) 1 s1
        else s1 in
      with_events (events s2 ++ [e]) s2
  end.

(** The loop of [event_get] over [events]. *)
Fixpoint event_get_loop (criterion : event_t) (l : event_list_t)
    (found : Z) (out : option event_list_t) (s : state)
    : outcome (Z * option event_list_t) :=
  match l with
  | [] => Ok (found, out)
  | n :: rest =>
      nv <- deref n s ;;
      if event_match criterion nv
      then event_get_loop criterion rest (found + 1)
             (match out with Some o => Some (o ++ [n]) | None => None end) s
      else event_get_loop criterion rest found out s
  end.

(** [event_get]: the number of matches, the destination vector after the
    call, and the state (changed by a failed [CHECK] only). *)
Definition event_get (criterion : option event_t) (out : option event_list_t)
    (s : state) : outcome (Z * option event_list_t * state) :=
  match events s with
  | [] => Ok (0, out, s)
  | _ :: _ =>
      match criterion with
      | None => Ok (0, out, CHECK_failed "event_get" "criterion" s)
      | Some c =>
          r <- event_get_loop c (events s) 0 out s ;;
          Ok (fst r, snd r, s)
      end
  end.

(** The loop of [event_remove].  It visits the entries of [events], which
    nothing in its body modifies, in order. *)
Fixpoint event_remove_loop (criterion : event_t) (l : event_list_t)
    (new_list : event_list_t) (s : state) : outcome (event_list_t * state) :=
  match l with
  | [] => Ok (new_list, s)
  | n :: rest =>
      nv <- deref n s ;;
      if event_match criterion nv then
        let s1 := with_killme (killme s ++ [n]) s in
        s2 <- (if bool_decide (type nv = EVENT_SIGNAL) then
                 let e := signal_event (param1 nv) in
                 r <- event_get (Some e) None s1 ;;
                 if fst (fst r) =? 1
                 then Ok (signal_handle (param1 e) 0 (snd r))
                 else Ok (snd r)
               else Ok s1) ;;
        event_remove_loop criterion rest new_list s2
      else event_remove_loop criterion rest (new_list ++ [n]) s
  end.

(** [event_remove] *)
Definition event_remove (criterion : option event_t) (s : state) : outcome state :=
  match criterion with
  | None => Ok (CHECK_failed "event_remove" "criterion" s)
  | Some c =>
      match events s with
      | [] => Ok s
      | _ :: _ =>
          r <- event_remove_loop c (events s) [] s ;;
          Ok (with_events (fst r) (snd r))
      end
  end.

(** [event_is_signal_observed] *)
Fixpoint event_is_signal_observed_loop (sig : Z) (l : event_list_t) (s : state)
    : outcome bool :=
  match l with
  | [] => Ok false
  | p :: rest =>
      event <- deref p s ;;
      if bool_decide (type event = EVENT_ANY) then Ok true
      else if bool_decide (type event = EVENT_SIGNAL)
              && ((param1 event =? EVENT_ANY_SIGNAL) || (param1 event =? sig))
      then Ok true
      else event_is_signal_observed_loop sig rest s
  end.

Definition event_is_signal_observed (sig : Z) (s : state) : outcome bool :=
  event_is_signal_observed_loop sig (events s) s.

(** [event_free_kills] *)
Fixpoint free_each (l : event_list_t) (s : state) : outcome state :=
  match l with
  | [] => Ok s
  | e :: rest => s1 <- event_free e s ;; free_each rest s1
  end.

Definition event_free_kills (s : state) : outcome state :=
  s1 <- free_each (killme s) s ;;
  Ok (with_killme [] s1).

(** [event_is_killed] *)
Definition event_is_killed (e : ptr) (s : state) : bool :=
  bool_decide (e ∈ killme s).

(** The first loop of [event_fire_internal]: the entries of [events]
    matching the occurrence, in order. *)
Fixpoint fire_list (event : event_t) (l : event_list_t) (fire : event_list_t)
    (s : state) : outcome event_list_t :=
  match l with
  | [] => Ok fire
  | p :: rest =>
      criterion <- deref p s ;;
      if event_match criterion event
      then fire_list event rest (fire ++ [p]) s
      else fire_list event rest fire s
  end.

(** The command text built for one handler: its function name followed by
    a space and the escaped text of each argument of the occurrence. *)
Definition command_line (criterion event : event_t) : wcstring :=
  fold_left (fun buffer arg => buffer +:+ " " +:+ escape_string arg 1)
            (args_of event) (function_name criterion).

(** One iteration of the second loop of [event_fire_internal]. *)
Definition fire_one (eval : evaluator) (event : event_t) (criterion : ptr)
    (s : state) : outcome state :=
  if event_is_killed criterion s then Ok s
  else
    c <- deref criterion s ;;
    let buffer := command_line c event in
    let s1 := proc_push_interactive 0 s in
    let prev_status := proc_get_last_status s1 in
    let s2 := push_block EVENT (Some event) s1 in
    s3 <- eval buffer (with_trace (trace s2 ++ [Obs_eval buffer]) s2) ;;
    let s4 := pop_block s3 in
    let s5 := proc_pop_interactive s4 in
    Ok (proc_set_last_status prev_status s5).

Fixpoint fire_loop (eval : evaluator) (event : event_t) (fire : event_list_t)
    (s : state) : outcome state :=
  match fire with
  | [] => Ok s
  | criterion :: rest =>
      s1 <- fire_one eval event criterion s ;;
      fire_loop eval event rest s1
  end.

(** [event_fire_internal].  The occurrence is passed by value: no entry is
    modified once it exists. *)
Definition event_fire_internal (eval : evaluator) (event : event_t) (s : state)
    : outcome state :=
  s1 <- event_free_kills s ;;
  match events s1 with
  | [] => Ok s1
  | _ :: _ =>
      fire <- fire_list event (events s1) [] s1 ;;
      match fire with
      | [] => Ok s1
      | _ :: _ =>
          s2 <- fire_loop eval event fire s1 ;;
          event_free_kills s2
      end
  end.

(** The step shared by [event_fire_delayed] and [event_fire] once an
    occurrence is at hand: a blocked occurrence is copied, with its
    arguments, onto [blocked]; any other is dispatched. *)
Definition queue_or_fire (eval : evaluator) (e : event_t) (s : state)
    : outcome state :=
  if event_is_blocked e s then
    let '(c, s1) := event_copy e true s in
    Ok (with_blocked (blocked s1 ++ [c]) s1)
  else event_fire_internal eval e s.

(** The loop over [blocked] in [event_fire_delayed].  Its bound
    [blocked.size()] is read again on every iteration, so entries pushed
    by a handler during the loop are visited by the same loop. *)
Fixpoint retry_loop (eval : evaluator) (fuel : nat) (i : nat)
    (new_blocked : event_list_t) (s : state) : outcome (event_list_t * state) :=
  match blocked s !! i with
  | None => Ok (new_blocked, s)
  | Some e =>
      match fuel with
      | O => Out_of_fuel
      | S fuel' =>
          ev <- deref e s ;;
          if event_is_blocked ev s
          then retry_loop eval fuel' (S i) (new_blocked ++ [e]) s
          else
            s1 <- event_fire_internal eval ev s ;;
            s2 <- event_free e s1 ;;
            retry_loop eval fuel' (S i) new_blocked s2
      end
  end.

(** First part of [event_fire_delayed]: the retry of the blocked queue. *)
Definition retry_blocked (eval : evaluator) (fuel : nat) (s : state)
    : outcome state :=
  if negb (bool_decide (blocked s = [])) && (is_event s =? 1) then
    r <- retry_loop eval fuel 0 [] s ;;
    Ok (with_blocked (fst r) (snd r))
  else Ok s.

(** The occurrence sent for a captured signal: the local event of the
    drain loop after its two assignments. *)
Definition drain_event (e : event_t) (sig : Z) : event_t :=
  set_arguments (Some (<[0%nat := sig2wcs sig]> (args_of e))) (set_param1 sig e).

(** The inner loop of the drain over the slot [lst]; the slot is read
    again on every iteration. *)
Fixpoint drain_for (eval : evaluator) (fuel : nat) (lst : Z) (i : nat)
    (e : event_t) (s : state) : outcome state :=
  if Z.of_nat i <? count (sig_slot lst s) then
    match fuel with
    | O => Out_of_fuel
    | S fuel' =>
        match signal (sig_slot lst s) !! i with
        | None => Undefined (Out_of_bounds i)
        | Some sig =>
            let e1 := drain_event e sig in
            s1 <- queue_or_fire eval e1 s ;;
            drain_for eval fuel' lst (S i) e1 s1
        end
    end
  else Ok s.

(** Second part of [event_fire_delayed]: the [while] loop that switches
    the two signal lists and sends what the deactivated one holds. *)
Fixpoint drain_signals (eval : evaluator) (fuel : nat) (s : state)
    : outcome state :=
  if 0 <? count (sig_slot (active_list s) s) then
    match fuel with
    | O => Out_of_fuel
    | S fuel' =>
        let other := 1 - active_list s in
        let s1 :=
          set_sig_slot other
            {| count := 0; overflow := 0; signal := signal (sig_slot other s) |} s in
        let s2 := with_active_list (1 - active_list s1) s1 in
        let e := set_arguments (Some [""]) (signal_event 0) in
        let lst := 1 - active_list s2 in
        let s3 :=
          if negb (overflow (sig_slot lst s2) =? 0)
          then debug Signal_list_overflow s2
          else s2 in
        s4 <- drain_for eval fuel' lst 0 e s3 ;;
        drain_signals eval fuel' s4
    end
  else Ok s.

(** [event_fire_delayed] *)
Definition event_fire_delayed (eval : evaluator) (fuel : nat) (s : state)
    : outcome state :=
  s1 <- retry_blocked eval fuel s ;;
  drain_signals eval fuel s1.

(** [event_fire] *)
Definition event_fire (eval : evaluator) (fuel : nat) (event : option event_t)
    (s : state) : outcome state :=
  match event with
  | Some ev =>
      if bool_decide (type ev = EVENT_SIGNAL)
      then Ok (event_fire_signal (param1 ev) s)
      else
        let s1 := with_is_event (is_event s + 1) s in
        s2 <- event_fire_delayed eval fuel s1 ;;
        s3 <- queue_or_fire eval ev s2 ;;
        Ok (with_is_event (is_event s3 - 1) s3)
  | None =>
      let s1 := with_is_event (is_event s + 1) s in
      s2 <- event_fire_delayed eval fuel s1 ;;
      Ok (with_is_event (is_event s2 - 1) s2)
  end.

(** [event_destroy] *)
Definition event_destroy (s : state) : outcome state :=
  s1 <- free_each (events s) s ;;
  s2 <- free_each (killme s1) (with_events [] s1) ;;
  Ok (with_killme [] s2).

End Event.

(** ** A shell for handler bodies

    Modelled from the spec: the evaluator is outside the core; a handler
    body may register and unregister handlers, raise occurrences, change
    what is blocked and set the exit status, and a signal may arrive while
    it runs.  This small shell gives each command text a body made of
    such steps, run in order. *)
Inductive command : Type :=
| Cmd_add_handler (event : option event_t)
| Cmd_remove (criterion : option event_t)
| Cmd_fire (event : option event_t)
| Cmd_signal (sig : Z)
| Cmd_block (t : event_type)
| Cmd_unblock
| Cmd_status (v : Z).

Definition run_command `{Env} (eval : evaluator) (fuel : nat) (c : command)
    (s : state) : outcome state :=
  match c with
  | Cmd_add_handler e => Ok (event_add_handler e s)
  | Cmd_remove e => event_remove e s
  | Cmd_fire e => event_fire eval fuel e s
  | Cmd_signal sig => Ok (event_fire_signal sig s)
  | Cmd_block t => Ok (with_global_event_blocks (t :: global_event_blocks s) s)
  | Cmd_unblock => Ok (with_global_event_blocks [] s)
  | Cmd_status v => Ok (proc_set_last_status v s)
  end.

Fixpoint run_script `{Env} (eval : evaluator) (fuel : nat) (body : list command)
    (s : state) : outcome state :=
  match body with
  | [] => Ok s
  | c :: rest => s1 <- run_command eval fuel c s ;; run_script eval fuel rest s1
  end.

Fixpoint shell `{Env} (functions : wcstring -> list command) (fuel : nat)
    : evaluator :=
  match fuel with
  | O => fun _ _ => Out_of_fuel
  | S fuel' =>
      fun cmd s => run_script (shell functions fuel') fuel' (functions cmd) s
  end.

(** ** The matching rule as the specification words it

    The specification describes a descriptor as a tagged union with a
    separate [Any] marker, and the matching rule as a handler-name veto
    followed by a case analysis on the pattern. *)
Inductive descriptor : Type :=
| DAny
| DSignal (signal_number : Z)
| DVariable (name : wcstring)
| DProcessExit (pid : Z)
| DJobExit (job_id : Z)
| DGeneric (name : wcstring).

Definition descriptor_of (e : event_t) : descriptor :=
  match type e with
  | EVENT_ANY => DAny
  | EVENT_SIGNAL => DSignal (param1 e)
  | EVENT_VARIABLE => DVariable (str_param1 e)
  | EVENT_EXIT => DProcessExit (param1 e)
  | EVENT_JOB_ID => DJobExit (param1 e)
  | EVENT_GENERIC => DGeneric (str_param1 e)
  end.

Definition handler_names_differ (pattern occurrence : event_t) : Prop :=
  function_name pattern ≠ "" ∧ function_name occurrence ≠ ""
  ∧ function_name pattern ≠ function_name occurrence.

Definition matches `{Env} (pattern occurrence : event_t) : bool :=
  if bool_decide (handler_names_differ pattern occurrence) then false
  else
    match descriptor_of pattern, descriptor_of occurrence with
    | DAny, _ => true
    | DSignal p, DSignal o => bool_decide (p = EVENT_ANY_SIGNAL ∨ p = o)
    | DVariable p, DVariable o => bool_decide (p = o)
    | DProcessExit p, DProcessExit o => bool_decide (p = EVENT_ANY_PID ∨ p = o)
    | DJobExit p, DJobExit o => bool_decide (p = o)
    | DGeneric p, DGeneric o => bool_decide (p = o)
    | _, _ => false
    end.

(** ** Frame conditions *)

(** A computation keeps an observation [f] of the state when every
    successful run leaves it as it was. *)
Definition keeps {A : Type} (f : state -> A) (m : state -> outcome state) : Prop :=
  ∀ s s', m s = Ok s' → f s' = f s.

(** Observations that do not look at the registry, the free store or the
    record of collaborator calls. *)
Class Registry_frame {A : Type} (f : state -> A) : Prop := {
  frame_heap : ∀ v s, f (with_heap v s) = f s;
  frame_next_ptr : ∀ v s, f (with_next_ptr v s) = f s;
  frame_events : ∀ v s, f (with_events v s) = f s;
  frame_killme : ∀ v s, f (with_killme v s) = f s;
  frame_blocked : ∀ v s, f (with_blocked v s) = f s;
  frame_trace : ∀ v s, f (with_trace v s) = f s
}.

(** An evaluator is balanced when a command leaves the save stack of the
    interactive flag as it found it. *)
Definition balanced (eval : evaluator) : Prop :=
  ∀ cmd, keeps interactive_stack (eval cmd).

(** An evaluator is quiet about signals when no signal is captured and no
    slot is switched while a command runs. *)
Definition capture_quiet (eval : evaluator) : Prop :=
  ∀ cmd, keeps (fun s => (sig_list s, active_list s)) (eval cmd).

(** ** Capture and drain, as sequences *)

(** A run of captures, one call of [event_fire_signal] per signal. *)
Definition capture_all (sigs : list Z) (s : state) : state :=
  fold_left (fun st sig => event_fire_signal sig st) sigs s.

(** A slot in the range the code keeps it in. *)
Definition slot_ok (l : signal_list_t) : Prop :=
  0 ≤ count l ≤ SIG_UNHANDLED_MAX ∧ length (signal l) = Z.to_nat SIG_UNHANDLED_MAX.

(** The occurrence a captured signal number stands for. *)
Definition signal_occurrence `{Env} (sig : Z) : event_t :=
  {| type := EVENT_SIGNAL; param1 := sig; str_param1 := "";
     function_name := ""; arguments := Some [sig2wcs sig] |}.

(** Occurrences handed, one after the other, to the blocking check. *)
Fixpoint send_all `{Env} (eval : evaluator) (l : list event_t) (s : state)
    : outcome state :=
  match l with
  | [] => Ok s
  | e :: rest => s1 <- queue_or_fire eval e s ;; send_all eval rest s1
  end.

(** The state once the two lists have changed roles: the other slot is
    emptied and becomes the active one, and the overflow of the slot that
    is about to be drained is reported. *)
Definition switch_lists (s : state) : state :=
  let other := 1 - active_list s in
  let s2 :=
    with_active_list other
      (set_sig_slot other
         {| count := 0; overflow := 0; signal := signal (sig_slot other s) |} s) in
  if bool_decide (overflow (sig_slot (active_list s) s) = 0) then s2
  else debug Signal_list_overflow s2.

(** The local event of the drain loop before and between its iterations:
    a signal event with both strings empty and one argument cell. *)
Definition drain_shape (e : event_t) : Prop :=
  type e = EVENT_SIGNAL ∧ str_param1 e = "" ∧ function_name e = ""
  ∧ length (args_of e) = 1%nat.

(** ** Concrete scenarios *)

(** An environment with the usual wildcard values, a few signal names
    and an escaping routine that leaves plain words alone. *)
Definition sample_env : Env :=
  {| EVENT_ANY_SIGNAL := -1;
     EVENT_ANY_PID := 0;
     sig2wcs := fun sig =>
       if sig =? 10 then "SIGUSR1" else if sig =? 2 then "SIGINT" else "SIG";
     escape_string := fun w _ => w |}.

Definition empty_signal_list : signal_list_t :=
  {| count := 0; overflow := 0; signal := replicate 64 0 |}.

(** The state at start-up: empty vectors, zeroed signal lists, nesting
    depth zero, an interactive session. *)
Definition initial_state : state :=
  {| heap := ∅; next_ptr := 0%nat; events := []; killme := []; blocked := [];
     sig_list := (empty_signal_list, empty_signal_list); active_list := 0;
     is_event := 0; last_status := 0; is_interactive := 1;
     interactive_stack := []; current_block := [];
     global_event_blocks := []; trace := [] |}.

(** A pattern bound to the function [f]. *)
Definition handler (pattern : event_t) (f : wcstring) : event_t :=
  {| type := type pattern; param1 := param1 pattern;
     str_param1 := str_param1 pattern; function_name := f;
     arguments := arguments pattern |}.

(** An evaluator for bodies that only set the exit status. *)
Definition status_eval : evaluator :=
  fun _ s => Ok (proc_set_last_status 1 s).

(** One handler on signal 10, then 65 captures of that signal. *)
Definition usr1_registered : state :=
  event_add_handler (Some (handler (signal_event 10) "on_usr1")) initial_state.

Definition usr1_overflowed : state :=
  capture_all (replicate 65 10) usr1_registered.

(** A handler whose body sets the status and raises a second occurrence,
    served by a second handler that sets the status again. *)
Definition nested_functions (cmd : wcstring) : list command :=
  if String.eqb cmd "outer"
  then [Cmd_status 7; Cmd_fire (Some (variable_event "x"))]
  else if String.eqb cmd "inner" then [Cmd_status 9]
  else [].

Definition nested_registry : state :=
  event_add_handler (Some (handler (variable_event "x") "inner"))
    (event_add_handler (Some (handler (generic_event "go") "outer"))
       (with_last_status 42 initial_state)).

Definition nested_final : state :=
  Eval vm_compute in
    match @event_fire_internal sample_env
            (@shell sample_env nested_functions 4) (generic_event "go")
            nested_registry with
    | Ok s => s
    | _ => initial_state
    end.

(** Two handlers, two captured signals, then a generic occurrence with
    one argument; every handler body is empty. *)
Definition no_functions (cmd : wcstring) : list command := [].

Definition deploy_event : event_t :=
  set_arguments (Some ["v2"]) (generic_event "deploy").

Definition deploy_registered : state :=
  event_add_handler (Some (handler (generic_event "deploy") "on_deploy"))
    initial_state.

Definition pending_registry : state :=
  capture_all [10; 10]
    (event_add_handler (Some (handler (generic_event "deploy") "on_deploy"))
       usr1_registered).

Definition pending_final : state :=
  Eval vm_compute in
    match @event_fire sample_env (@shell sample_env no_functions 5) 5
            (Some deploy_event) pending_registry with
    | Ok s => s
    | _ => initial_state
    end.

(** A handler body that raises a further occurrence while an entry waits
    on the blocked queue and is no longer blocked. *)
Definition reentrant_state : state :=
  with_is_event 1
    (with_blocked [0%nat]
       (with_heap {[ 0%nat := deploy_event ]}
          (with_next_ptr 1%nat initial_state))).

(** An entry of the blocked queue whose type is still blocked. *)
Definition still_blocked (s : state) (p : ptr) : Prop :=
  ∃ e, heap s !! p = Some e ∧ event_is_blocked e s = true.

(** The state in which the evaluator is entered for a handler, and the
    state [event_fire_internal] makes of the one the evaluator returns. *)
Definition handler_entry (event : event_t) (buffer : wcstring) (s : state) : state :=
  let s2 := push_block EVENT (Some event) (proc_push_interactive 0 s) in
  with_trace (trace s2 ++ [Obs_eval buffer]) s2.

Definition handler_exit (prev_status : Z) (s3 : state) : state :=
  proc_set_last_status prev_status (proc_pop_interactive (pop_block s3)).

(** The handler of [deploy] while generic events are blocked, after the
    occurrence has been raised, once the block is lifted, inside the next
    call of [event_fire] at depth one, and after that call. *)
Definition deploy_blocked : state :=
  with_global_event_blocks [EVENT_GENERIC] deploy_registered.

Definition deploy_queued : state :=
  Eval vm_compute in
    match @event_fire sample_env (@shell sample_env no_functions 5) 5
            (Some deploy_event) deploy_blocked with
    | Ok s => s
    | _ => initial_state
    end.

Definition deploy_unblocked : state :=
  with_global_event_blocks [] deploy_queued.

Definition deploy_retrying : state := with_is_event 1 deploy_unblocked.

Definition deploy_dispatched : state :=
  Eval vm_compute in
    match @event_fire_internal sample_env (@shell sample_env no_functions 5)
            (event_copy_value deploy_event true) deploy_retrying with
    | Ok s => s
    | _ => initial_state
    end.

Definition deploy_delivered : state :=
  Eval vm_compute in
    match @event_fire sample_env (@shell sample_env no_functions 5) 5
            None deploy_unblocked with
    | Ok s => s
    | _ => initial_state
    end.

(** One captured signal waiting for its handler, and the state after a
    call of [event_fire] with a null event. *)
Definition usr1_pending : state := capture_all [10] usr1_registered.

Definition usr1_flushed : state :=
  Eval vm_compute in
    match @event_fire sample_env (@shell sample_env no_functions 5) 5
            None usr1_pending with
    | Ok s => s
    | _ => initial_state
    end.

(** Two handlers [a] and [b] of the same generic event; the body of [a]
    unregisters [b] and, when [nested] is set, raises another occurrence
    afterwards. *)
Definition removal_functions (nested : bool) (cmd : wcstring) : list command :=
  if String.eqb cmd "a" then
    Cmd_remove (Some (handler (generic_event "x") "b"))
    :: (if nested then [Cmd_fire (Some (generic_event "y"))] else [])
  else [].

Definition two_handlers : state :=
  event_add_handler (Some (handler (generic_event "x") "b"))
    (event_add_handler (Some (handler (generic_event "x") "a")) initial_state).

Definition after_plain_removal : state :=
  Eval vm_compute in
    match @event_fire_internal sample_env
            (@shell sample_env (removal_functions false) 5)
            (generic_event "x") two_handlers with
    | Ok s => s
    | _ => initial_state
    end.

Definition after_first_handler : state :=
  Eval vm_compute in
    match @fire_one sample_env (@shell sample_env (removal_functions true) 5)
            (generic_event "x") 0%nat two_handlers with
    | Ok s => s
    | _ => initial_state
    end.

(** Two handlers [f] and [g] of signal 10, and a handler of signal 10
    next to a handler of every signal. *)
Definition two_signal_handlers : state :=
  event_add_handler (Some (handler (signal_event 10) "g"))
    (event_add_handler (Some (handler (signal_event 10) "f")) initial_state).

Definition both_removed : state :=
  Eval vm_compute in
    match @event_remove sample_env (Some (signal_event 10)) two_signal_handlers with
    | Ok s => s
    | _ => initial_state
    end.

Definition single_removed : state :=
  Eval vm_compute in
    match @event_remove sample_env (Some (signal_event 10)) usr1_registered with
    | Ok s => s
    | _ => initial_state
    end.

Definition with_wildcard_handler : state :=
  event_add_handler (Some (handler (signal_event (-1)) "g"))
    (event_add_handler (Some (handler (signal_event 10) "f")) initial_state).

Definition wildcard_left : state :=
  Eval vm_compute in
    match @event_remove sample_env (Some (handler (signal_event 10) "f"))
            with_wildcard_handler with
    | Ok s => s
    | _ => initial_state
    end.

(** ** Further functions of event.cpp *)

(** [event_fire_generic_internal]: the variable argument list, read up to
    its terminating null pointer, is the list [args]. *)
Definition event_fire_generic_internal `{Env} (eval : evaluator) (fuel : nat)
    (name : option wcstring) (args : list wcstring) (s : state) : outcome state :=
  match name with
  | None => Ok (CHECK_failed "event_fire_generic_internal" "name" s)
  | Some n =>
      let ev :=
        set_arguments (Some args) (set_str_param1 n (event_new EVENT_GENERIC)) in
      event_fire eval fuel (Some ev) s
  end.

(** ** Reading the registry through the free store *)

(** An address whose cell exists. *)
Definition live (s : state) (p : ptr) : Prop := is_Some (heap s !! p).

(** The entry at [p], taken as the occurrence, matches the criterion: the
    test of [event_get] and [event_remove]. *)
Definition selected `{Env} (criterion : event_t) (s : state) (p : ptr) : bool :=
  match heap s !! p with
  | Some n => event_match criterion n
  | None => false
  end.

(** The entry at [p], taken as the pattern, matches the occurrence: the
    test of [event_fire_internal]. *)
Definition triggered `{Env} (event : event_t) (s : state) (p : ptr) : bool :=
  match heap s !! p with
  | Some c => event_match c event
  | None => false
  end.

(** The vectors hold distinct addresses of existing cells, and [new] has
    never handed out an address at or above [next_ptr]. *)
Definition registry_ok (s : state) : Prop :=
  (∀ p, live s p → (p < next_ptr s)%nat)
  ∧ Forall (live s) (events s ++ killme s ++ blocked s)
  ∧ NoDup (events s ++ killme s ++ blocked s).

(** Both signal lists in range and a valid index of the active one. *)
Definition capture_ok (s : state) : Prop :=
  (active_list s = 0 ∨ active_list s = 1)
  ∧ slot_ok (fst (sig_list s)) ∧ slot_ok (snd (sig_list s)).

(** The blocked branch of [queue_or_fire]. *)
Definition push_copy (e : event_t) (s : state) : state :=
  with_blocked (blocked s ++ [next_ptr s])
    (with_next_ptr (S (next_ptr s))
       (with_heap (<[next_ptr s := event_copy_value e true]> (heap s)) s)).

(** The requests made to the signal module are all requests to stop. *)
Definition only_disables (tr : list obs) : Prop :=
  Forall (fun o => ∃ sig, o = Obs_signal_handle sig 0) tr.

(** Occurrences queued one after the other. *)
Definition queue_copies (l : list event_t) (s : state) : state :=
  fold_left (fun st e => push_copy e st) l s.

(** An evaluator keeps the depth when a command leaves the nesting counter
    as it found it. *)
Definition keeps_depth (eval : evaluator) : Prop :=
  ∀ cmd, keeps is_event (eval cmd).

(** ** Further scenarios *)

(** One live handler, two entries on the kill list, one blocked
    occurrence. *)
Definition mixed_registry : state :=
  push_copy deploy_event
    (event_add_handler (Some (handler (generic_event "deploy") "on_deploy"))
       both_removed).

(** Signal 10 and signal 2 captured while signal events are blocked. *)
Definition signals_blocked : state :=
  capture_all [10; 2] (with_global_event_blocks [EVENT_SIGNAL] usr1_registered).

(** The queued [deploy] occurrence, generic events still blocked, seen at
    depth one. *)
Definition deploy_waiting : state := with_is_event 1 deploy_queued.

(** The nested scenario, entered through [event_fire]. *)
Definition nested_fired : state :=
  Eval vm_compute in
    match @event_fire sample_env (@shell sample_env nested_functions 4) 4
            (Some (generic_event "go")) nested_registry with
    | Ok s => s
    | _ => initial_state
    end.

(** ** Dispatch seen as a sequence of handler runs *)

(** An evaluator leaves the registry alone when a command neither frees
    nor allocates an entry and does not change the kill list. *)
Definition registry_quiet (eval : evaluator) : Prop :=
  ∀ cmd, keeps (fun s => (heap s, killme s)) (eval cmd).

(** One handler run: the body of the second loop of [event_fire_internal]
    for an entry that is not killed and whose value is [c]. *)
Definition invoke `{Env} (eval : evaluator) (event c : event_t) (s : state)
    : outcome state :=
  s3 <- eval (command_line c event) (handler_entry event (command_line c event) s) ;;
  Ok (handler_exit (last_status s) s3).

Fixpoint invoke_all `{Env} (eval : evaluator) (event : event_t)
    (cs : list event_t) (s : state) : outcome state :=
  match cs with
  | [] => Ok s
  | c :: rest => s1 <- invoke eval event c s ;; invoke_all eval event rest s1
  end.

(** ** The blocked queue under reentrant calls *)

(** A step leaves the queue in place when the nesting counter is what it
    was and everything that was queued is still queued, in the same order
    and ahead of anything new. *)
Definition queue_grows (s s' : state) : Prop :=
  is_event s' = is_event s ∧ blocked s `prefix_of` blocked s'.

(** An evaluator keeps the queue when every command run at positive
    nesting depth leaves it in place. *)
Definition queue_kept (eval : evaluator) : Prop :=
  ∀ cmd s s', 0 < is_event s → eval cmd s = Ok s' → queue_grows s s'.

(** A variable occurrence waits on the queue.  The body of the handler
    [outer] lifts every block, blocks signal events, is interrupted by
    signal 10 and raises a variable occurrence of its own. *)
Definition unblocking_functions (cmd : wcstring) : list command :=
  if String.eqb cmd "outer"
  then [Cmd_unblock; Cmd_block EVENT_SIGNAL; Cmd_signal 10;
        Cmd_fire (Some (variable_event "x"))]
  else [].

Definition variable_queued : state :=
  Eval vm_compute in
    match @event_fire sample_env (@shell sample_env no_functions 5) 5
            (Some (variable_event "v"))
            (with_global_event_blocks [EVENT_VARIABLE]
               (event_add_handler (Some (handler (generic_event "go") "outer"))
                  initial_state)) with
    | Ok s => s
    | _ => initial_state
    end.

(** The state in which the body of [outer] makes its call of
    [event_fire], and the state the delayed processing of that call
    starts in. *)
Definition inside_outer : state :=
  capture_all [10]
    (with_global_event_blocks [EVENT_SIGNAL] (with_is_event 1 variable_queued)).

Definition inside_outer_delayed : state :=
  Eval vm_compute in
    match @event_fire_delayed sample_env (@shell sample_env unblocking_functions 6) 6
            (with_is_event 2 inside_outer) with
    | Ok s => s
    | _ => initial_state
    end.

Definition inside_outer_fired : state :=
  Eval vm_compute in
    match @event_fire sample_env (@shell sample_env unblocking_functions 6) 6
            (Some (variable_event "x")) inside_outer with
    | Ok s => s
    | _ => initial_state
    end.

Definition outer_fired : state :=
  Eval vm_compute in
    match @event_fire sample_env (@shell sample_env unblocking_functions 6) 6
            (Some (generic_event "go")) variable_queued with
    | Ok s => s
    | _ => initial_state
    end.

(** ** A signal arriving while a signal handler runs *)

(** Handlers of signal 10 and of signal 2.  While the body of the first
    runs, signal 2 arrives; when [reentrant] is set the body then raises
    a variable occurrence of its own. *)
Definition interrupted_functions (reentrant : bool) (cmd : wcstring) : list command :=
  if String.eqb cmd "on_usr1 SIGUSR1" then
    Cmd_signal 2
    :: (if reentrant then [Cmd_fire (Some (variable_event "x"))] else [])
  else [].

Definition signal_handlers : state :=
  event_add_handler (Some (handler (signal_event 2) "on_int")) usr1_registered.

(** Signal 10 captured, and the state in which the drain sends it: depth
    one, lists switched. *)
Definition usr1_captured : state := event_fire_signal 10 signal_handlers.

Definition usr1_draining : state := switch_lists (with_is_event 1 usr1_captured).

Definition usr1_delivered : state :=
  Eval vm_compute in
    match @event_fire sample_env (@shell sample_env (interrupted_functions true) 6) 6
            None usr1_captured with
    | Ok s => s
    | _ => initial_state
    end.

(** ** The retry of the blocked queue, entry by entry *)

(** The entry at [p] is one the retry keeps: its type is blocked. *)
Definition waiting (s : state) (p : ptr) : bool :=
  match heap s !! p with
  | Some e => event_is_blocked e s
  | None => false
  end.

(** What the retry does with an entry that is no longer blocked: the
    occurrence is dispatched, then its cell is freed. *)
Definition release `{Env} (eval : evaluator) (p : ptr) (s : state) : outcome state :=
  e <- deref p s ;;
  s1 <- event_fire_internal eval e s ;;
  event_free p s1.

Fixpoint release_all `{Env} (eval : evaluator) (ps : list ptr) (s : state)
    : outcome state :=
  match ps with
  | [] => Ok s
  | p :: rest => s1 <- release eval p s ;; release_all eval rest s1
  end.

(** An evaluator leaves the queue alone when a command frees and
    allocates no cell and changes neither the kill list, nor the blocked
    queue, nor what is blocked. *)
Definition retry_quiet (eval : evaluator) : Prop :=
  ∀ cmd,
    keeps (fun s => (heap s, killme s, blocked s, current_block s,
                     global_event_blocks s)) (eval cmd).

(** Two handlers of the generic event [deploy].  Three occurrences are
    raised while generic and variable events are blocked; then the block
    on generic events is lifted. *)
Definition deploy_handlers : state :=
  event_add_handler (Some (handler (generic_event "deploy") "log_deploy"))
    deploy_registered.

Definition deploy_v3 : event_t :=
  set_arguments (Some ["v3"]) (generic_event "deploy").

Definition three_blocked : state :=
  with_global_event_blocks [EVENT_GENERIC; EVENT_VARIABLE] deploy_handlers.

Definition three_raised : state :=
  push_copy deploy_v3
    (push_copy deploy_event (push_copy (variable_event "v") three_blocked)).

Definition three_queued : state :=
  with_global_event_blocks [EVENT_VARIABLE] three_raised.

Definition three_retrying : state := with_is_event 1 three_queued.

Definition three_retried : state :=
  Eval vm_compute in
    match @retry_blocked sample_env status_eval 5 three_retrying with
    | Ok s => s
    | _ => initial_state
    end.

Definition three_flushed : state :=
  Eval vm_compute in
    match @event_fire sample_env status_eval 5 None three_queued with
    | Ok s => s
    | _ => initial_state
    end.

(** Signals 10, 2 and 2 captured, then flushed by a call of [event_fire]
    with a null event: once with the body of [on_usr1] only interrupted
    by signal 2, once with the body raising an occurrence as well. *)
Definition three_pending : state := capture_all [10; 2; 2] signal_handlers.

Definition drained_plain : state :=
  Eval vm_compute in
    match @event_fire sample_env (@shell sample_env (interrupted_functions false) 6) 6
            None three_pending with
    | Ok s => s
    | _ => initial_state
    end.

Definition drained_nested : state :=
  Eval vm_compute in
    match @event_fire sample_env (@shell sample_env (interrupted_functions true) 6) 6
            None three_pending with
    | Ok s => s
    | _ => initial_state
    end.

(** The state in which the drain sends what it holds, and the state
    after the turn of [on_usr1] when its body raises an occurrence. *)
Definition three_draining : state := switch_lists (with_is_event 1 three_pending).

Definition after_interrupted_handler : state :=
  Eval vm_compute in
    match @fire_one sample_env (@shell sample_env (interrupted_functions true) 6)
            (@signal_occurrence sample_env 10) 0%nat three_draining with
    | Ok s => s
    | _ => initial_state
    end.

(** The 65 captures of signal 10, flushed. *)
Definition overflow_drained : state :=
  Eval vm_compute in
    match @event_fire sample_env (@shell sample_env no_functions 5) 70
            None usr1_overflowed with
    | Ok s => s
    | _ => initial_state
    end.

(** The same three signals pending when the occurrence [deploy] is
    raised. *)
Definition deploy_pending : state :=
  capture_all [10; 2; 2]
    (event_add_handler (Some (handler (generic_event "deploy") "on_deploy"))
       signal_handlers).

Definition fired_plain : state :=
  Eval vm_compute in
    match @event_fire sample_env (@shell sample_env (interrupted_functions false) 6) 6
            (Some deploy_event) deploy_pending with
    | Ok s => s
    | _ => initial_state
    end.

Definition fired_nested : state :=
  Eval vm_compute in
    match @event_fire sample_env (@shell sample_env (interrupted_functions true) 6) 6
            (Some deploy_event) deploy_pending with
    | Ok s => s
    | _ => initial_state
    end.

(** ** Matching *)

Lemma wempty_spec (w : wcstring) : wempty w = bool_decide (w = "").
Proof.
  unfold wempty. destruct (String.eqb_spec w ""); [by rewrite bool_decide_true | by rewrite bool_decide_false].
Qed.

Lemma string_eqb_decide (a b : wcstring) : String.eqb a b = bool_decide (a = b).
Proof.
  destruct (String.eqb_spec a b); [by rewrite bool_decide_true | by rewrite bool_decide_false].
Qed.

Lemma Z_eqb_decide (a b : Z) : (a =? b) = bool_decide (a = b).
Proof.
  destruct (Z.eqb_spec a b); [by rewrite bool_decide_true | by rewrite bool_decide_false].
Qed.

(** C1. [event_match] decides in the order of the specification: first
    the handler-name veto, then the [Any] pattern, then the comparison of
    the types, then the rule of the type: wildcard or equal number for a
    signal and for a process exit, equal name for a variable and a generic
    event, equal job id for a job exit. *)
Theorem event_match_decision_order `{Env} (pattern occurrence : event_t) :
  event_match pattern occurrence = matches pattern occurrence.
Proof.
  unfold event_match, matches, handler_names_differ, descriptor_of.
  rewrite !wempty_spec, !string_eqb_decide, !Z_eqb_decide.
  destruct pattern as [tp pp sp fp ap], occurrence as [to po so fo ao]; simpl.
  destruct tp, to; simpl;
    repeat (case_bool_decide; simpl); intuition congruence.
Qed.

(** ** Outcomes and frames *)

Lemma bind_Ok {A B : Type} (m : outcome A) (k : A -> outcome B) (b : B) :
  bind m k = Ok b → ∃ a, m = Ok a ∧ k a = Ok b.
Proof. destruct m; simpl; [eauto | done | done]. Qed.

Ltac inv_bind H :=
  let a := fresh "a" in
  let Ha := fresh "Ha" in
  apply bind_Ok in H as (a & Ha & H).

Ltac inv_ok H := injection H as H; try subst.

#[global] Instance last_status_frame : Registry_frame last_status.
Proof. by split. Qed.

#[global] Instance is_interactive_frame : Registry_frame is_interactive.
Proof. by split. Qed.

#[global] Instance interactive_stack_frame : Registry_frame interactive_stack.
Proof. by split. Qed.

#[global] Instance capture_frame :
  Registry_frame (fun s => (sig_list s, active_list s)).
Proof. by split. Qed.

Section Frames.
Context `{Env} {A : Type} (f : state -> A) `{!Registry_frame f}.

Lemma keeps_event_free (e : ptr) : keeps f (event_free e).
Proof.
  intros s s' Hrun. unfold event_free in Hrun.
  destruct (heap s !! e); [|done]. inv_ok Hrun. apply frame_heap.
Qed.

Lemma keeps_free_each (l : event_list_t) : keeps f (free_each l).
Proof.
  induction l as [|e l IH]; intros s s' Hrun; simpl in Hrun.
  - by inv_ok Hrun.
  - inv_bind Hrun. rewrite (IH _ _ Hrun). by apply (keeps_event_free e).
Qed.

Lemma keeps_event_free_kills : keeps f event_free_kills.
Proof.
  intros s s' Hrun. unfold event_free_kills in Hrun.
  inv_bind Hrun. inv_ok Hrun. rewrite frame_killme.
  by apply (keeps_free_each (killme s)).
Qed.

Lemma keeps_event_copy (e : event_t) (b : bool) (s : state) :
  f (snd (event_copy e b s)) = f s.
Proof. unfold event_copy, alloc; simpl. by rewrite frame_next_ptr, frame_heap. Qed.

Lemma keeps_event_add_handler (event : option event_t) (s : state) :
  f (event_add_handler event s) = f s.
Proof.
  unfold event_add_handler, CHECK_failed, debug, signal_handle, event_copy, alloc.
  destruct event as [ev|]; [|apply frame_trace].
  simpl. case_bool_decide;
    by rewrite frame_events, ?frame_trace, frame_next_ptr, frame_heap.
Qed.

Lemma event_get_some_state (c : event_t) (out : option event_list_t)
    (s : state) r :
  event_get (Some c) out s = Ok r → snd r = s.
Proof.
  unfold event_get. destruct (events s); [intros Hr; by inv_ok Hr|].
  intros Hr. inv_bind Hr. by inv_ok Hr.
Qed.

Lemma keeps_event_remove_loop (c : event_t) (l new_list : event_list_t)
    (s : state) r :
  event_remove_loop c l new_list s = Ok r → f (snd r) = f s.
Proof.
  revert new_list s. induction l as [|n l IH]; intros new_list s Hrun; simpl in Hrun.
  - by inv_ok Hrun.
  - inv_bind Hrun. destruct (event_match c a).
    + inv_bind Hrun. rewrite (IH _ _ Hrun). clear Hrun IH.
      case_bool_decide; [|inv_ok Ha0; apply frame_killme].
      inv_bind Ha0. apply event_get_some_state in Ha1.
      destruct (fst (fst a1) =? 1); inv_ok Ha0; rewrite Ha1;
        unfold signal_handle; by rewrite ?frame_trace, frame_killme.
    + by apply IH in Hrun.
Qed.

Lemma keeps_event_remove (criterion : option event_t) :
  keeps f (event_remove criterion).
Proof.
  intros s s' Hrun. unfold event_remove in Hrun.
  destruct criterion as [c|]; [|inv_ok Hrun; apply frame_trace].
  destruct (events s) eqn:He; [by inv_ok Hrun|].
  inv_bind Hrun. inv_ok Hrun. rewrite frame_events.
  by apply keeps_event_remove_loop in Ha.
Qed.

Section Dispatch.
Context (eval : evaluator).
Hypothesis keeps_fire_one : ∀ event criterion, keeps f (fire_one eval event criterion).

Lemma keeps_fire_loop (event : event_t) (fire : event_list_t) :
  keeps f (fire_loop eval event fire).
Proof.
  induction fire as [|c fire IH]; intros s s' Hrun; simpl in Hrun.
  - by inv_ok Hrun.
  - inv_bind Hrun. rewrite (IH _ _ Hrun). by apply (keeps_fire_one event c).
Qed.

Lemma keeps_event_fire_internal (event : event_t) :
  keeps f (event_fire_internal eval event).
Proof.
  intros s s' Hrun. unfold event_fire_internal in Hrun.
  inv_bind Hrun. apply keeps_event_free_kills in Ha.
  destruct (events a); [inv_ok Hrun; done|].
  inv_bind Hrun. destruct a0; [inv_ok Hrun; done|].
  inv_bind Hrun. apply keeps_event_free_kills in Hrun.
  apply keeps_fire_loop in Ha1. congruence.
Qed.

Lemma keeps_queue_or_fire (event : event_t) :
  keeps f (queue_or_fire eval event).
Proof.
  intros s s' Hrun. unfold queue_or_fire in Hrun.
  destruct (event_is_blocked event s).
  - pose proof (keeps_event_copy event true s) as Hc.
    destruct (event_copy event true s) as [c s1]. inv_ok Hrun.
    by rewrite frame_blocked.
  - by apply keeps_event_fire_internal in Hrun.
Qed.

End Dispatch.
End Frames.

(** ** Exit status and interactive flag around a handler *)

Section Handler_frame.
Context `{Env} (eval : evaluator).

Lemma fire_one_last_status (event : event_t) (criterion : ptr) :
  keeps last_status (fire_one eval event criterion).
Proof.
  intros s s' Hrun. unfold fire_one in Hrun.
  destruct (event_is_killed criterion s); [by inv_ok Hrun|].
  inv_bind Hrun. inv_bind Hrun. by inv_ok Hrun.
Qed.

Lemma fire_one_interactive (event : event_t) (criterion : ptr) (s s' : state) :
  balanced eval →
  fire_one eval event criterion s = Ok s' →
  is_interactive s' = is_interactive s
  ∧ interactive_stack s' = interactive_stack s.
Proof.
  intros Hbal Hrun. unfold fire_one in Hrun.
  destruct (event_is_killed criterion s); [by inv_ok Hrun|].
  inv_bind Hrun. inv_bind Hrun. inv_ok Hrun.
  apply Hbal in Ha0. simpl in Ha0.
  unfold proc_set_last_status, proc_pop_interactive, pop_block; simpl.
  by rewrite Ha0.
Qed.

Lemma event_fire_internal_last_status (event : event_t) :
  keeps last_status (event_fire_internal eval event).
Proof.
  apply keeps_event_fire_internal; [apply _|].
  intros ev c. apply fire_one_last_status.
Qed.

Lemma event_fire_internal_interactive (event : event_t) (s s' : state) :
  balanced eval →
  event_fire_internal eval event s = Ok s' →
  is_interactive s' = is_interactive s
  ∧ interactive_stack s' = interactive_stack s.
Proof.
  intros Hbal Hrun. split.
  - revert s s' Hrun. apply keeps_event_fire_internal; [apply _|].
    intros ev c s s' Hone. by apply (fire_one_interactive ev c s s' Hbal).
  - revert s s' Hrun. apply keeps_event_fire_internal; [apply _|].
    intros ev c s s' Hone. by apply (fire_one_interactive ev c s s' Hbal).
Qed.

End Handler_frame.

(** ** Reentrant dispatch is balanced *)

Section Balanced.
Context `{Env} (eval : evaluator).
Hypothesis eval_balanced : balanced eval.

Lemma fire_one_stack (event : event_t) (criterion : ptr) :
  keeps interactive_stack (fire_one eval event criterion).
Proof.
  intros s s' Hrun. by apply (fire_one_interactive eval event criterion s s').
Qed.

Lemma event_fire_signal_stack (sig : Z) (s : state) :
  interactive_stack (event_fire_signal sig s) = interactive_stack s.
Proof.
  unfold event_fire_signal, set_sig_slot.
  by destruct (_ <? _), (_ =? _).
Qed.

Lemma retry_loop_stack (fuel i : nat) (new_blocked : event_list_t) (s : state) r :
  retry_loop eval fuel i new_blocked s = Ok r →
  interactive_stack (snd r) = interactive_stack s.
Proof.
  revert i new_blocked s.
  induction fuel as [|fuel IH]; intros i nb s Hrun; simpl in Hrun;
    destruct (blocked s !! i) as [e|]; try done; try by inv_ok Hrun.
  inv_bind Hrun. destruct (event_is_blocked a s); [by apply IH in Hrun|].
  inv_bind Hrun. inv_bind Hrun. apply IH in Hrun. rewrite Hrun.
  apply (keeps_event_free interactive_stack) in Ha1. rewrite Ha1.
  revert Ha0. apply keeps_event_fire_internal; [apply _|].
  apply fire_one_stack.
Qed.

Lemma retry_blocked_stack (fuel : nat) :
  keeps interactive_stack (retry_blocked eval fuel).
Proof.
  intros s s' Hrun. unfold retry_blocked in Hrun.
  destruct (_ && _); [|by inv_ok Hrun].
  inv_bind Hrun. inv_ok Hrun. by apply retry_loop_stack in Ha.
Qed.

Lemma drain_for_stack (fuel : nat) (lst : Z) (i : nat) (e : event_t) :
  keeps interactive_stack (drain_for eval fuel lst i e).
Proof.
  revert i e.
  induction fuel as [|fuel IH]; intros i e s s' Hrun; simpl in Hrun;
    destruct (_ <? _); try done; try by inv_ok Hrun.
  destruct (signal (sig_slot lst s) !! i); [|done].
  inv_bind Hrun. apply IH in Hrun. rewrite Hrun.
  revert Ha. apply keeps_queue_or_fire; [apply _|]. apply fire_one_stack.
Qed.

Lemma drain_signals_stack (fuel : nat) :
  keeps interactive_stack (drain_signals eval fuel).
Proof.
  induction fuel as [|fuel IH]; intros s s' Hrun; simpl in Hrun;
    destruct (_ <? _); try done; try by inv_ok Hrun.
  inv_bind Hrun. apply IH in Hrun. rewrite Hrun.
  apply drain_for_stack in Ha. rewrite Ha.
  unfold set_sig_slot, debug. by destruct (negb _), (_ =? 0).
Qed.

Lemma event_fire_delayed_stack (fuel : nat) :
  keeps interactive_stack (event_fire_delayed eval fuel).
Proof.
  intros s s' Hrun. unfold event_fire_delayed in Hrun. inv_bind Hrun.
  apply drain_signals_stack in Hrun. apply retry_blocked_stack in Ha.
  congruence.
Qed.

Lemma event_fire_stack (fuel : nat) (event : option event_t) :
  keeps interactive_stack (event_fire eval fuel event).
Proof.
  intros s s' Hrun. unfold event_fire in Hrun.
  destruct event as [ev|].
  - case_bool_decide; [inv_ok Hrun; apply event_fire_signal_stack|].
    inv_bind Hrun. inv_bind Hrun. inv_ok Hrun. simpl.
    apply event_fire_delayed_stack in Ha.
    apply (keeps_queue_or_fire interactive_stack eval fire_one_stack) in Ha0.
    by rewrite Ha0, Ha.
  - inv_bind Hrun. inv_ok Hrun. simpl.
    by apply event_fire_delayed_stack in Ha.
Qed.

Lemma run_command_stack (fuel : nat) (c : command) :
  keeps interactive_stack (run_command eval fuel c).
Proof.
  intros s s' Hrun. destruct c; simpl in Hrun; try by inv_ok Hrun.
  - inv_ok Hrun. apply (keeps_event_add_handler interactive_stack).
  - by apply (keeps_event_remove interactive_stack) in Hrun.
  - by apply event_fire_stack in Hrun.
  - inv_ok Hrun. apply event_fire_signal_stack.
Qed.

Lemma run_script_stack (fuel : nat) (body : list command) :
  keeps interactive_stack (run_script eval fuel body).
Proof.
  induction body as [|c body IH]; intros s s' Hrun; simpl in Hrun.
  - by inv_ok Hrun.
  - inv_bind Hrun. apply IH in Hrun. apply run_command_stack in Ha. congruence.
Qed.

End Balanced.

(** Every body the shell can run is balanced, whatever it registers,
    removes or raises, to any depth of nesting. *)
Lemma shell_balanced `{Env} (functions : wcstring -> list command) (fuel : nat) :
  balanced (shell functions fuel).
Proof.
  induction fuel as [|fuel IH]; intros cmd s s' Hrun; simpl in Hrun; [done|].
  by apply (run_script_stack _ IH) in Hrun.
Qed.

(** C8. A handler invocation made by [event_fire_internal] leaves the last
    exit status as it was before the invocation, whatever the handler body
    does; when the evaluator is balanced, which holds for bodies that
    raise further occurrences, the interactive flag and its save stack are
    restored as well.  The same holds for the whole dispatch pass. *)
Theorem handler_restores_status_and_interactive `{Env} (eval : evaluator)
    (event : event_t) (criterion : ptr) (s s1 s2 : state) :
  (fire_one eval event criterion s = Ok s1 →
   last_status s1 = last_status s
   ∧ (balanced eval →
      is_interactive s1 = is_interactive s
      ∧ interactive_stack s1 = interactive_stack s))
  ∧ (event_fire_internal eval event s = Ok s2 →
     last_status s2 = last_status s
     ∧ (balanced eval →
        is_interactive s2 = is_interactive s
        ∧ interactive_stack s2 = interactive_stack s)).
Proof.
  split; intros Hrun.
  - split; [by apply fire_one_last_status in Hrun|].
    intros Hbal. by apply (fire_one_interactive eval event criterion).
  - split; [by apply event_fire_internal_last_status in Hrun|].
    intros Hbal. by apply (event_fire_internal_interactive eval event).
Qed.

(** ** Capture *)

Lemma sig_slot_set_eq (k : Z) (v : signal_list_t) (s : state) :
  sig_slot k (set_sig_slot k v s) = v.
Proof. unfold sig_slot, set_sig_slot. by destruct (k =? 0). Qed.

Lemma active_list_set_sig_slot (k : Z) (v : signal_list_t) (s : state) :
  active_list (set_sig_slot k v s) = active_list s.
Proof. unfold set_sig_slot. by destruct (k =? 0). Qed.

Lemma captured_length (l : signal_list_t) :
  slot_ok l → length (captured l) = Z.to_nat (count l).
Proof.
  intros [Hc Hl]. unfold captured, SIG_UNHANDLED_MAX in *.
  rewrite length_take. lia.
Qed.

Lemma active_list_event_fire_signal (sig : Z) (s : state) :
  active_list (event_fire_signal sig s) = active_list s.
Proof.
  unfold event_fire_signal. destruct (_ <? _); apply active_list_set_sig_slot.
Qed.

(** One capture, seen on the active slot. *)
Lemma event_fire_signal_slot (sig : Z) (s : state) :
  let l := sig_slot (active_list s) s in
  let l' := sig_slot (active_list s) (event_fire_signal sig s) in
  slot_ok l →
  slot_ok l'
  ∧ (count l < SIG_UNHANDLED_MAX →
     captured l' = captured l ++ [sig]
     ∧ count l' = count l + 1 ∧ overflow l' = overflow l)
  ∧ (count l = SIG_UNHANDLED_MAX →
     captured l' = captured l ∧ signal l' = signal l
     ∧ count l' = count l ∧ overflow l' = 1).
Proof.
  intros l l' [Hc Hl]. subst l'. unfold event_fire_signal. fold l.
  unfold slot_ok, SIG_UNHANDLED_MAX in *.
  destruct (Z.ltb_spec (count l) 64) as [Hlt|Hge];
    rewrite sig_slot_set_eq; unfold captured; simpl.
  - split; [split; [lia | by rewrite length_insert]|].
    split; [intros _ | intros; lia].
    split; [|split; [lia | done]].
    replace (Z.to_nat (count l + 1)) with (S (Z.to_nat (count l))) by lia.
    rewrite (take_S_r _ _ sig).
    + rewrite take_insert_ge; [done | lia].
    + apply list_lookup_insert_eq. lia.
  - split; [done|]. split; [intros; lia | intros _; done].
Qed.

(** A run of captures, seen on the active slot. *)
Lemma capture_all_slot (sigs : list Z) (s : state) :
  let l := sig_slot (active_list s) s in
  let l' := sig_slot (active_list s) (capture_all sigs s) in
  slot_ok l →
  slot_ok l'
  ∧ active_list (capture_all sigs s) = active_list s
  ∧ captured l' = take (Z.to_nat SIG_UNHANDLED_MAX) (captured l ++ sigs)
  ∧ count l' = Z.min SIG_UNHANDLED_MAX (count l + Z.of_nat (length sigs))
  ∧ overflow l' =
      (if SIG_UNHANDLED_MAX <? count l + Z.of_nat (length sigs) then 1
       else overflow l).
Proof.
  revert s. induction sigs as [|sig sigs IH]; intros s l l' Hok; subst l l'.
  - simpl capture_all. pose proof (captured_length _ Hok) as Hlen.
    pose proof Hok as [Hc Hl]. unfold SIG_UNHANDLED_MAX in *.
    split_and!; [done | done | | simpl; lia |].
    + rewrite app_nil_r, take_ge; [done | lia].
    + destruct (_ <? _) eqn:E; [apply Z.ltb_lt in E; simpl in E; lia | done].
  - simpl capture_all.
    destruct (event_fire_signal_slot sig s Hok) as (Hok1 & Hlt & Heq).
    pose proof (active_list_event_fire_signal sig s) as Hact.
    specialize (IH (event_fire_signal sig s)). simpl in IH.
    rewrite Hact in IH. destruct (IH Hok1) as (Hok' & Hact' & Hcap & Hcnt & Hov).
    pose proof (captured_length _ Hok) as Hlen.
    destruct Hok as [Hc Hl]. unfold SIG_UNHANDLED_MAX in *.
    split; [done|]. split; [congruence|].
    rewrite Hcap, Hcnt, Hov. clear IH Hcap Hcnt Hov.
    rewrite length_cons.
    destruct (Z.lt_ge_cases (count (sig_slot (active_list s) s)) 64) as [Ha|Ha].
    + destruct (Hlt Ha) as (-> & -> & ->).
      rewrite <- app_assoc. simpl. split; [done|]. split; [lia|].
      by replace (count (sig_slot (active_list s) s) + 1 + Z.of_nat (length sigs))
        with (count (sig_slot (active_list s) s) + Z.of_nat (S (length sigs))) by lia.
    + assert (count (sig_slot (active_list s) s) = 64) as Hfull by lia.
      destruct (Heq Hfull) as (-> & _ & -> & ->).
      split; [|split; [lia|]].
      * rewrite !take_app_le by lia. done.
      * destruct (Z.ltb_spec 64 (count (sig_slot (active_list s) s) + Z.of_nat (length sigs)));
          destruct (Z.ltb_spec 64 (count (sig_slot (active_list s) s) + Z.of_nat (S (length sigs))));
          try done; lia.
Qed.

(** ** Drain *)

Lemma bind_same {A : Type} (m : outcome A) (k : A -> outcome A) :
  (∀ a, m = Ok a → k a = Ok a) → bind m k = m.
Proof. destruct m; simpl; auto. Qed.

Lemma drain_event_shape `{Env} (e : event_t) (sig : Z) :
  drain_shape e → drain_event e sig = signal_occurrence sig.
Proof.
  intros (Ht & Hs & Hf & Hl). unfold drain_event, signal_occurrence, set_arguments, set_param1.
  simpl. rewrite Ht, Hs, Hf.
  destruct (args_of e) as [|x [|y l]]; try done.
Qed.

Section Drain.
Context `{Env} (eval : evaluator).
Hypothesis eval_quiet : capture_quiet eval.

Let capture (s : state) := (sig_list s, active_list s).

Lemma fire_one_capture (event : event_t) (criterion : ptr) :
  keeps capture (fire_one eval event criterion).
Proof.
  intros s s' Hrun. unfold fire_one in Hrun.
  destruct (event_is_killed criterion s); [by inv_ok Hrun|].
  inv_bind Hrun. inv_bind Hrun. inv_ok Hrun.
  apply eval_quiet in Ha0. unfold capture in *. simpl in *. rewrite <- Ha0.
  unfold proc_set_last_status, proc_pop_interactive, pop_block; simpl.
  by destruct (interactive_stack a0).
Qed.

Lemma queue_or_fire_capture (event : event_t) :
  keeps capture (queue_or_fire eval event).
Proof. apply keeps_queue_or_fire; [apply _ | apply fire_one_capture]. Qed.

Lemma send_all_capture (l : list event_t) : keeps capture (send_all eval l).
Proof.
  induction l as [|e l IH]; intros s s' Hrun; simpl in Hrun.
  - by inv_ok Hrun.
  - inv_bind Hrun. apply IH in Hrun. apply queue_or_fire_capture in Ha. congruence.
Qed.

Lemma capture_sig_slot (k : Z) (s s' : state) :
  capture s' = capture s → sig_slot k s' = sig_slot k s.
Proof. unfold capture, sig_slot. intros [= -> _]. done. Qed.

(** The inner loop sends the signals the slot holds from cell [i] on, in
    the order of the cells. *)
Lemma drain_for_sends (k fuel : nat) (lst : Z) (i : nat) (e : event_t) (s : state) :
  let l := sig_slot lst s in
  0 ≤ count l →
  (Z.to_nat (count l) ≤ length (signal l))%nat →
  drain_shape e →
  (Z.to_nat (count l) - i)%nat = k →
  (k ≤ fuel)%nat →
  drain_for eval fuel lst i e s
  = send_all eval (map signal_occurrence (drop i (captured l))) s.
Proof.
  revert fuel i e s.
  induction k as [|k IH]; intros fuel i e s l Hc Hl He Hk Hfuel.
  - assert ((Z.of_nat i <? count l) = false) as Hcond by (apply Z.ltb_ge; lia).
    rewrite drop_ge by (unfold captured; rewrite length_take; lia).
    destruct fuel; simpl; fold l; by rewrite Hcond.
  - destruct fuel as [|fuel]; [lia|].
    assert ((Z.of_nat i <? count l) = true) as Hcond by (apply Z.ltb_lt; lia).
    destruct (lookup_lt_is_Some_2 (signal l) i) as [sig Hsig]; [lia|].
    rewrite (drop_S _ sig) by (unfold captured; rewrite lookup_take_lt; [done | lia]).
    simpl. fold l. rewrite Hcond, Hsig, (drain_event_shape _ _ He).
    destruct (queue_or_fire eval (signal_occurrence sig) s) as [s1| |] eqn:Hq;
      simpl; [|done|done].
    apply queue_or_fire_capture in Hq.
    pose proof (capture_sig_slot lst _ _ Hq) as Hslot.
    specialize (IH fuel (S i) (signal_occurrence sig) s1). simpl in IH.
    rewrite Hslot in IH. fold l in IH. apply IH; try done; lia.
Qed.

(** The whole drain: the lists change roles, then the signals of the
    slot that was active are sent in the order of their capture. *)
Lemma drain_signals_sends (fuel : nat) (s : state) :
  let l := sig_slot (active_list s) s in
  active_list s = 0 ∨ active_list s = 1 →
  slot_ok l →
  (Z.to_nat (count l) < fuel)%nat →
  drain_signals eval fuel s
  = if 0 <? count l
    then send_all eval (map signal_occurrence (captured l)) (switch_lists s)
    else Ok s.
Proof.
  intros l Hact [Hc Hl] Hfuel. unfold SIG_UNHANDLED_MAX in *.
  destruct fuel as [|fuel]; [lia|]. simpl. fold l.
  destruct (0 <? count l) eqn:Hpos; [|done].
  set (s3 := if negb _ then _ else _).
  assert (s3 = switch_lists s) as ->.
  { subst s3. unfold switch_lists. rewrite active_list_set_sig_slot.
    replace (1 - (1 - active_list s)) with (active_list s) by lia.
    assert (sig_slot (active_list s)
              (with_active_list (1 - active_list s)
                 (set_sig_slot (1 - active_list s)
                    {| count := 0; overflow := 0;
                       signal := signal (sig_slot (1 - active_list s) s) |} s))
            = sig_slot (active_list s) s) as ->.
    { destruct Hact as [-> | ->]; done. }
    rewrite Z_eqb_decide. by case_bool_decide. }
  assert (active_list (switch_lists s) = 1 - active_list s) as Hact3.
  { unfold switch_lists. case_bool_decide; simpl; done. }
  assert (sig_slot (active_list s) (switch_lists s) = l) as Hslot.
  { unfold switch_lists, debug. subst l.
    destruct Hact as [Ha | Ha]; rewrite Ha; by case_bool_decide. }
  assert (count (sig_slot (1 - active_list s) (switch_lists s)) = 0) as Hzero.
  { unfold switch_lists, debug.
    destruct Hact as [Ha | Ha]; rewrite Ha; by case_bool_decide. }
  rewrite active_list_set_sig_slot.
  replace (1 - (1 - active_list s)) with (active_list s) by lia.
  pose proof (drain_for_sends (Z.to_nat (count l)) fuel (active_list s) 0
                (set_arguments (Some [""]) (signal_event 0)) (switch_lists s)) as Hfor.
  simpl in Hfor. rewrite Hslot in Hfor. rewrite drop_0 in Hfor.
  rewrite Hfor; [|lia|lia|done|lia|lia].
  apply bind_same. intros s4 Hsend. apply send_all_capture in Hsend.
  assert (active_list s4 = 1 - active_list s) as Ha4.
  { unfold capture in Hsend. injection Hsend as _ ->. done. }
  pose proof (capture_sig_slot (1 - active_list s) _ _ Hsend) as Hs4.
  destruct fuel; simpl; rewrite Ha4, Hs4, Hzero; done.
Qed.

End Drain.

Lemma status_eval_quiet : capture_quiet status_eval.
Proof. intros cmd s s' Hrun. by inv_ok Hrun. Qed.

(** C8 at a concrete input: the body of the first handler sets the status
    and raises a second occurrence, whose handler sets the status again. *)
Lemma handler_restores_status_and_interactive_witness :
  @event_fire_internal sample_env (@shell sample_env nested_functions 4)
    (generic_event "go") nested_registry = Ok nested_final
  ∧ trace nested_final = [Obs_eval "outer"; Obs_eval "inner"]
  ∧ last_status nested_final = 42
  ∧ is_interactive nested_final = 1
  ∧ interactive_stack nested_final = [].
Proof.
  assert (@event_fire_internal sample_env (@shell sample_env nested_functions 4)
            (generic_event "go") nested_registry = Ok nested_final) as Hrun
    by (vm_compute; reflexivity).
  destruct (@handler_restores_status_and_interactive sample_env
              (@shell sample_env nested_functions 4) (generic_event "go") 0%nat
              nested_registry nested_final nested_final) as [_ Hpass].
  destruct (Hpass Hrun) as [Hstatus Hflag].
  destruct (Hflag (@shell_balanced sample_env nested_functions 4)) as [Hi Hs].
  split; [exact Hrun|]. split; [reflexivity|].
  split; [rewrite Hstatus; reflexivity|].
  split; [rewrite Hi; reflexivity | rewrite Hs; reflexivity].
Defined.

(** ** Blocked occurrences *)

Lemma bind_assoc {A B C : Type} (m : outcome A) (k : A -> outcome B)
    (k' : B -> outcome C) :
  bind (bind m k) k' = bind m (fun a => bind (k a) k').
Proof. by destruct m. Qed.

Lemma with_killme_same (s : state) : killme s = [] → with_killme [] s = s.
Proof. destruct s; simpl. by intros ->. Qed.

Section Retry.
Context `{Env} (eval : evaluator).

(** Entries that are still blocked are kept, in order, and nothing else
    happens while the loop passes over them. *)
Lemma retry_loop_keep (keep done new_blocked rest : event_list_t) (fuel : nat)
    (s : state) :
  blocked s = done ++ keep ++ rest →
  Forall (still_blocked s) keep →
  retry_loop eval (length keep + fuel) (length done) new_blocked s
  = retry_loop eval fuel (length done + length keep) (new_blocked ++ keep) s.
Proof.
  revert done new_blocked.
  induction keep as [|p keep IH]; intros done nb Hq Hkeep.
  - simpl. by rewrite Nat.add_0_r, app_nil_r.
  - apply Forall_cons in Hkeep as [(e & Hp & Hb) Hkeep].
    simpl in Hq. simpl. rewrite Hq, list_lookup_middle by done.
    unfold deref. rewrite Hp. simpl. rewrite Hb.
    replace (S (length done)) with (length (done ++ [p]))
      by (rewrite length_app; simpl; lia).
    rewrite IH; [|by rewrite Hq, <- app_assoc|done].
    rewrite length_app, <- app_assoc. simpl.
    by replace (length done + 1 + length keep)%nat
      with (length done + S (length keep))%nat by lia.
Qed.

(** With one live entry matching and nothing on the kill list, a dispatch
    pass is one call of the evaluator. *)
Lemma event_fire_internal_single (event : event_t) (h : ptr) (hv : event_t)
    (s : state) :
  killme s = [] →
  fire_list event (events s) [] s = Ok [h] →
  heap s !! h = Some hv →
  event_fire_internal eval event s
  = (s3 <- eval (command_line hv event)
             (handler_entry event (command_line hv event) s) ;;
     event_free_kills (handler_exit (last_status s) s3)).
Proof.
  intros Hk Hfire Hh. unfold event_fire_internal, event_free_kills at 1.
  rewrite Hk. simpl. rewrite with_killme_same by done.
  destruct (events s) as [|p l] eqn:He; [done|].
  rewrite Hfire. simpl.
  unfold fire_one, event_is_killed. rewrite Hk.
  rewrite bool_decide_false by apply not_elem_of_nil.
  unfold deref. rewrite Hh. simpl.
  rewrite !bind_assoc. done.
Qed.

End Retry.

Lemma event_copy_value_fields (ev : event_t) :
  let c := event_copy_value ev true in
  type c = type ev ∧ param1 c = param1 ev ∧ str_param1 c = str_param1 ev
  ∧ function_name c = function_name ev ∧ args_of c = args_of ev.
Proof.
  unfold event_copy_value, args_of. simpl. by destruct (arguments ev).
Qed.

(** ** Null descriptors *)

(** C9 as stated fails: with a captured signal pending, [event_fire] called
    with a null event runs the handler of the signal and switches the
    active signal list. *)
Lemma event_fire_null_fires_pending :
  @event_fire sample_env (@shell sample_env no_functions 5) 5 None usr1_pending
  = Ok usr1_flushed
  ∧ trace usr1_flushed = trace usr1_pending ++ [Obs_eval "on_usr1 SIGUSR1"]
  ∧ active_list usr1_pending = 0
  ∧ active_list usr1_flushed = 1
  ∧ count (sig_slot (active_list usr1_pending) usr1_pending) = 1
  ∧ count (sig_slot (active_list usr1_flushed) usr1_flushed) = 0.
Proof.
  split_and!; vm_compute; reflexivity.
Qed.

(** C9, amended. A null descriptor makes [event_add_handler],
    [event_remove] and [event_get] return at once: apart from the report
    of the violated precondition the state is unchanged, so no handler
    runs and the registry, the kill list, the blocked queue and the signal
    lists are as before.  [event_get] returns 0 and leaves the destination
    alone; it makes the report exactly when the registry is not empty,
    because it tests for an empty registry first.  [event_fire] accepts a
    null event and then runs the delayed processing only; with nothing
    pending it changes nothing. *)
Theorem null_descriptor_behaviour `{Env} (eval : evaluator) (fuel : nat)
    (out : option (list ptr)) (s : state) :
  event_add_handler None s = CHECK_failed "event_add_handler" "event" s
  ∧ event_remove None s = Ok (CHECK_failed "event_remove" "criterion" s)
  ∧ event_get None out s
    = Ok (0, out,
          if bool_decide (events s = []) then s
          else CHECK_failed "event_get" "criterion" s)
  ∧ (∀ func arg,
       let s' := CHECK_failed func arg s in
       heap s' = heap s ∧ events s' = events s ∧ killme s' = killme s
       ∧ blocked s' = blocked s ∧ sig_list s' = sig_list s
       ∧ active_list s' = active_list s
       ∧ trace s' = trace s ++ [Obs_debug (Null_argument func arg)])
  ∧ event_fire eval fuel None s
    = (s2 <- event_fire_delayed eval fuel (with_is_event (is_event s + 1) s) ;;
       Ok (with_is_event (is_event s2 - 1) s2))
  ∧ (blocked s = [] ∨ is_event s ≠ 0 →
     count (sig_slot (active_list s) s) ≤ 0 →
     event_fire eval fuel None s = Ok s).
Proof.
  split; [done|]. split; [done|]. split.
  { unfold event_get. by destruct (events s). }
  split; [done|]. split; [done|].
  intros Hidle Hnone. unfold event_fire, event_fire_delayed.
  assert (retry_blocked eval fuel (with_is_event (is_event s + 1) s)
          = Ok (with_is_event (is_event s + 1) s)) as ->.
  { unfold retry_blocked. simpl. destruct Hidle as [-> | Hd]; [done|].
    rewrite (proj2 (Z.eqb_neq _ _)) by lia. by rewrite andb_false_r. }
  simpl.
  assert (drain_signals eval fuel (with_is_event (is_event s + 1) s)
          = Ok (with_is_event (is_event s + 1) s)) as ->.
  { destruct fuel; simpl; by rewrite (proj2 (Z.ltb_ge _ _)) by exact Hnone. }
  simpl. f_equal. destruct s; unfold with_is_event; simpl. f_equal. lia.
Qed.

(** C9, amended, at a concrete input: one handler registered, nothing
    pending; and the lookup on the empty registry. *)
Lemma null_descriptor_behaviour_witness :
  @event_fire sample_env status_eval 1 None deploy_registered = Ok deploy_registered
  ∧ @event_remove sample_env None deploy_registered
    = Ok (CHECK_failed "event_remove" "criterion" deploy_registered)
  ∧ @event_get sample_env None (Some []) deploy_registered
    = Ok (0, Some [], CHECK_failed "event_get" "criterion" deploy_registered)
  ∧ @event_get sample_env None (Some []) initial_state
    = Ok (0, Some [], initial_state).
Proof.
  destruct (@null_descriptor_behaviour sample_env status_eval 1%nat (Some [])
              deploy_registered) as (_ & Hremove & Hget & _ & _ & Hfire).
  destruct (@null_descriptor_behaviour sample_env status_eval 1%nat (Some [])
              initial_state) as (_ & _ & Hempty & _).
  split; [apply Hfire; [by left | vm_compute; discriminate]|].
  split; [exact Hremove|].
  split; [exact Hget | exact Hempty].
Defined.

(** ** Removal during a dispatch pass *)

(** C2, the failing input. Handler [a] unregisters handler [b], which is
    later in the fire list.  When the body of [a] does nothing else, [b]
    is on the kill list at its turn and is skipped.  When the body of [a]
    then raises another occurrence, the nested dispatch pass frees the
    kill list: back in the outer pass [b] is no longer reported as killed,
    its cell is gone, and the pass reads it to build the command. *)
Theorem nested_dispatch_frees_kill_list :
  @event_fire_internal sample_env (@shell sample_env (removal_functions false) 5)
    (generic_event "x") two_handlers = Ok after_plain_removal
  ∧ trace after_plain_removal = [Obs_eval "a"]
  ∧ @fire_list sample_env (generic_event "x") (events two_handlers) [] two_handlers
    = Ok [0%nat; 1%nat]
  ∧ @fire_one sample_env (@shell sample_env (removal_functions true) 5)
      (generic_event "x") 0%nat two_handlers = Ok after_first_handler
  ∧ events after_first_handler = [0%nat]
  ∧ event_is_killed 1%nat after_first_handler = false
  ∧ heap after_first_handler !! 1%nat = None
  ∧ @event_fire_internal sample_env (@shell sample_env (removal_functions true) 5)
      (generic_event "x") two_handlers = Undefined (Dangling 1%nat).
Proof.
  split_and!; vm_compute; reflexivity.
Qed.

(** ** Removal of signal handlers *)

(** C3, the failing input. Two handlers of signal 10 are removed by one
    call of [event_remove]: no live entry observes the signal afterwards,
    yet the call never asks to stop its delivery, because each removed
    entry is counted against the list as it was before the call.  With a
    single handler the request is made once.  With a handler of every
    signal left in place the request is made although that handler still
    observes signal 10. *)
Theorem joint_removal_keeps_delivery :
  @event_remove sample_env (Some (signal_event 10)) two_signal_handlers
  = Ok both_removed
  ∧ events both_removed = []
  ∧ @event_is_signal_observed sample_env 10 both_removed = Ok false
  ∧ trace both_removed = trace two_signal_handlers
  ∧ (Obs_signal_handle 10 0 ∉ trace both_removed)
  ∧ @event_remove sample_env (Some (signal_event 10)) usr1_registered
    = Ok single_removed
  ∧ trace single_removed = trace usr1_registered ++ [Obs_signal_handle 10 0]
  ∧ @event_remove sample_env (Some (handler (signal_event 10) "f"))
      with_wildcard_handler = Ok wildcard_left
  ∧ @event_is_signal_observed sample_env 10 wildcard_left = Ok true
  ∧ trace wildcard_left = trace with_wildcard_handler ++ [Obs_signal_handle 10 0].
Proof.
  split_and!; try (vm_compute; reflexivity).
  vm_compute. intros Hin.
  repeat (apply elem_of_cons in Hin as [Hin | Hin]; [discriminate|]).
  by apply elem_of_nil in Hin.
Qed.

(** * Further properties of event.cpp *)

(** ** Matching *)

(** X1. Every descriptor matches itself, whatever its type, its wildcard
    fields and its handler name. *)
Theorem event_match_refl `{Env} (e : event_t) : event_match e e = true.
Proof.
  unfold event_match.
  rewrite wempty_spec, !string_eqb_decide, !Z_eqb_decide.
  rewrite (bool_decide_true (function_name e = function_name e)) by done.
  rewrite (bool_decide_true (type e = type e)) by done.
  rewrite (bool_decide_true (param1 e = param1 e)) by done.
  rewrite (bool_decide_true (str_param1 e = str_param1 e)) by done.
  simpl. rewrite andb_false_r.
  case_bool_decide as Hany; [done|].
  destruct (type e); try done; by case_bool_decide.
Qed.

Lemma event_match_copy `{Env} (a b : event_t) (copy_a copy_b : bool) :
  event_match (event_copy_value a copy_a) (event_copy_value b copy_b)
  = event_match a b.
Proof. done. Qed.

(** ** Filters *)

Lemma filter_none {A : Type} (f : A -> bool) (l : list A) :
  Forall (fun x => f x = false) l → List.filter f l = [].
Proof.
  induction 1 as [|x l Hx _ IH]; simpl; [done|]. by rewrite Hx.
Qed.

Lemma filter_all {A : Type} (f : A -> bool) (l : list A) :
  Forall (fun x => f x = true) l → List.filter f l = l.
Proof.
  induction 1 as [|x l Hx _ IH]; simpl; [done|]. by rewrite Hx, IH.
Qed.

Lemma Forall_filter_true {A : Type} (f : A -> bool) (l : list A) :
  Forall (fun x => f x = true) (List.filter f l).
Proof.
  induction l as [|x l IH]; simpl; [done|].
  destruct (f x) eqn:Hx; [by apply Forall_cons|done].
Qed.

Lemma Forall_filter_keep {A : Type} (P : A -> Prop) (f : A -> bool) (l : list A) :
  Forall P l → Forall P (List.filter f l).
Proof.
  induction 1 as [|x l Hx _ IH]; simpl; [done|].
  destruct (f x); [by apply Forall_cons|done].
Qed.

Lemma filter_ext_Forall {A : Type} (f g : A -> bool) (l : list A) :
  Forall (fun x => f x = g x) l → List.filter f l = List.filter g l.
Proof.
  induction 1 as [|x l Hx _ IH]; simpl; [done|]. by rewrite Hx, IH.
Qed.

(** ** Scans of the registry *)

Lemma deref_live (s : state) (p : ptr) :
  live s p → ∃ e, heap s !! p = Some e ∧ deref p s = Ok e.
Proof. intros [e He]. exists e. unfold deref. by rewrite He. Qed.

Section Scans.
Context `{Env}.

Lemma fire_list_filter (event : event_t) (l fire : list ptr) (s : state) :
  Forall (live s) l →
  fire_list event l fire s = Ok (fire ++ List.filter (triggered event s) l).
Proof.
  revert fire. induction l as [|p l IH]; intros fire Hl; simpl.
  - by rewrite app_nil_r.
  - apply Forall_cons in Hl as [Hp Hl].
    destruct (deref_live s p Hp) as (c & Hc & ->). simpl.
    unfold triggered at 1. rewrite Hc.
    destruct (event_match c event); rewrite IH by done; [|done].
    by rewrite <- app_assoc.
Qed.

Lemma event_get_loop_filter (criterion : event_t) (l : list ptr) (found : Z)
    (out : option (list ptr)) (s : state) :
  Forall (live s) l →
  event_get_loop criterion l found out s
  = Ok (found + Z.of_nat (length (List.filter (selected criterion s) l)),
        (fun o => o ++ List.filter (selected criterion s) l) <$> out).
Proof.
  revert found out. induction l as [|p l IH]; intros found out Hl; simpl.
  - rewrite Z.add_0_r. destruct out; simpl; by rewrite ?app_nil_r.
  - apply Forall_cons in Hl as [Hp Hl].
    destruct (deref_live s p Hp) as (n & Hn & ->). simpl.
    assert (selected criterion s p = event_match criterion n) as ->
      by (unfold selected; by rewrite Hn).
    destruct (event_match criterion n); rewrite IH by done; simpl.
    + f_equal. f_equal; [lia|]. destruct out; simpl; [|done].
      by rewrite <- app_assoc.
    + done.
Qed.

Lemma event_get_spec (criterion : event_t) (out : option (list ptr)) (s : state) :
  Forall (live s) (events s) →
  event_get (Some criterion) out s
  = Ok (Z.of_nat (length (List.filter (selected criterion s) (events s))),
        (fun o => o ++ List.filter (selected criterion s) (events s)) <$> out, s).
Proof.
  intros Hl. unfold event_get.
  destruct (events s) eqn:He.
  - simpl. destruct out; simpl; by rewrite ?app_nil_r.
  - rewrite <- He in *. by rewrite event_get_loop_filter.
Qed.

(** X2. [event_get] counts the entries of [events] the criterion selects
    and, when a destination is given, appends exactly those to it, in
    registration order; the count is the number of entries appended, and
    neither the registry nor anything else changes. *)
Theorem event_get_counts_selected (criterion : event_t) (out : list ptr)
    (s : state) :
  Forall (live s) (events s) →
  ∃ found,
    event_get (Some criterion) (Some out) s
    = Ok (Z.of_nat (length found), Some (out ++ found), s)
    ∧ event_get (Some criterion) None s = Ok (Z.of_nat (length found), None, s)
    ∧ found `sublist_of` events s
    ∧ Forall (fun p => selected criterion s p = true) found
    ∧ (∀ p, p ∈ events s → selected criterion s p = true → p ∈ found).
Proof.
  intros Hl. exists (List.filter (selected criterion s) (events s)).
  rewrite !event_get_spec by done. simpl.
  split; [done|]. split; [done|]. split; [|split].
  - clear Hl. induction (events s) as [|p l IH]; simpl; [done|].
    destruct (selected criterion s p);
      [by apply sublist_skip | by apply sublist_cons].
  - apply Forall_filter_true.
  - intros p Hin Hsel. apply list_elem_of_In, filter_In.
    split; [by apply list_elem_of_In | done].
Qed.

(** The scan of [event_is_signal_observed] in terms of the cells. *)
Lemma event_is_signal_observed_loop_spec (sig : Z) (l : list ptr) (s : state) :
  Forall (live s) l →
  event_is_signal_observed_loop sig l s
  = Ok (existsb (triggered (signal_event sig) s) l).
Proof.
  induction l as [|p l IH]; intros Hl; simpl; [done|].
  apply Forall_cons in Hl as [Hp Hl].
  destruct (deref_live s p Hp) as (c & Hc & ->). simpl.
  unfold triggered at 1. rewrite Hc.
  unfold event_match. simpl. rewrite andb_false_r.
  rewrite !Z_eqb_decide.
  destruct (type c); simpl; rewrite ?IH by done; try done.
  repeat case_bool_decide; simpl; try done; intuition congruence.
Qed.

End Scans.

Lemma existsb_filter {A : Type} (f : A -> bool) (l : list A) :
  existsb f l = negb (bool_decide (List.filter f l = [])).
Proof.
  induction l as [|x l IH]; simpl; [done|].
  by destruct (f x).
Qed.

(** X3. [event_is_signal_observed] agrees with the dispatch: a signal is
    observed exactly when the fire list built for the occurrence the drain
    sends for it is not empty. *)
Theorem signal_observed_iff_dispatched `{Env} (sig : Z) (s : state) :
  Forall (live s) (events s) →
  ∃ fire,
    fire_list (signal_occurrence sig) (events s) [] s = Ok fire
    ∧ event_is_signal_observed sig s = Ok (negb (bool_decide (fire = []))).
Proof.
  intros Hl. exists (List.filter (triggered (signal_occurrence sig) s) (events s)).
  split; [by rewrite fire_list_filter|].
  unfold event_is_signal_observed.
  rewrite event_is_signal_observed_loop_spec, existsb_filter by done.
  done.
Qed.

Lemma signal_observed_iff_dispatched_witness :
  @event_is_signal_observed sample_env 10 usr1_registered = Ok true
  ∧ @event_is_signal_observed sample_env 2 usr1_registered = Ok false.
Proof.
  assert (Forall (live usr1_registered) (events usr1_registered)) as Hl.
  { apply Forall_cons. split; [vm_compute; eauto | apply Forall_nil_2]. }
  split.
  - destruct (@signal_observed_iff_dispatched sample_env 10 usr1_registered Hl)
      as (fire & Hfire & ->).
    vm_compute in Hfire. injection Hfire as <-. reflexivity.
  - destruct (@signal_observed_iff_dispatched sample_env 2 usr1_registered Hl)
      as (fire & Hfire & ->).
    vm_compute in Hfire. injection Hfire as <-. reflexivity.
Defined.

(** ** Removal *)

Section Removal.
Context `{Env}.

Lemma filter_selected_partition (criterion : event_t) (s : state) (l : list ptr) :
  l ≡ₚ List.filter (fun p => negb (selected criterion s p)) l
       ++ List.filter (selected criterion s) l.
Proof.
  induction l as [|p l IH]; simpl; [done|].
  destruct (selected criterion s p); simpl.
  - by rewrite <- Permutation_middle, <- IH.
  - by rewrite <- IH.
Qed.

Lemma event_remove_loop_spec (criterion : event_t) (l new_list : list ptr)
    (s : state) :
  Forall (live s) l →
  Forall (live s) (events s) →
  ∃ tr,
    only_disables tr
    ∧ (List.filter (selected criterion s) l = [] → tr = [])
    ∧ event_remove_loop criterion l new_list s
      = Ok (new_list ++ List.filter (fun p => negb (selected criterion s p)) l,
            with_trace (trace s ++ tr)
              (with_killme (killme s ++ List.filter (selected criterion s) l) s)).
Proof.
  revert new_list s. induction l as [|n l IH]; intros new_list s Hl He.
  - exists []. split; [apply Forall_nil_2|]. split; [done|]. simpl.
    rewrite !app_nil_r. by destruct s.
  - apply Forall_cons in Hl as [Hn Hl].
    destruct (deref_live s n Hn) as (nv & Hnv & Hderef).
    assert (selected criterion s n = event_match criterion nv) as Hsel
      by (unfold selected; by rewrite Hnv).
    simpl. rewrite Hderef, Hsel. simpl.
    destruct (event_match criterion nv).
    + set (s1 := with_killme (killme s ++ [n]) s).
      assert (∃ tr1, only_disables tr1
                ∧ (if bool_decide (type nv = EVENT_SIGNAL)
                   then r <- event_get (Some (signal_event (param1 nv))) None s1 ;;
                        (if fst (fst r) =? 1
                         then Ok (signal_handle (param1 nv) 0 (snd r))
                         else Ok (snd r))
                   else Ok s1)
                  = Ok (with_trace (trace s1 ++ tr1) s1)) as (tr1 & Htr1 & Hbranch).
      { case_bool_decide.
        - rewrite (event_get_spec (signal_event (param1 nv)) None s1 He). simpl.
          destruct (_ =? 1).
          + exists [Obs_signal_handle (param1 nv) 0]. split; [|done].
            apply Forall_singleton. eauto.
          + exists []. split; [apply Forall_nil_2|].
            rewrite app_nil_r. by destruct s.
        - exists []. split; [apply Forall_nil_2|].
          rewrite app_nil_r. by destruct s. }
      destruct (IH new_list (with_trace (trace s1 ++ tr1) s1) Hl He)
        as (tr & Htr & _ & Hloop).
      exists (tr1 ++ tr). split; [by apply Forall_app|]. split; [done|].
      rewrite Hbranch. cbn [bind]. rewrite Hloop. simpl.
      f_equal. f_equal. subst s1. destruct s; simpl.
      unfold with_trace, with_killme; simpl.
      by rewrite <- !app_assoc.
    + destruct (IH (new_list ++ [n]) s Hl He) as (tr & Htr & Hnil & Hloop).
      exists tr. split; [done|]. split; [done|].
      rewrite Hloop. simpl. by rewrite <- app_assoc.
Qed.

End Removal.

Lemma with_same (s : state) :
  with_events (events s) (with_trace (trace s ++ []) (with_killme (killme s ++ []) s))
  = s.
Proof. destruct s; unfold with_events, with_trace, with_killme; simpl. by rewrite !app_nil_r. Qed.

Section Removal_properties.
Context `{Env}.

Lemma event_remove_spec (criterion : event_t) (s : state) :
  Forall (live s) (events s) →
  ∃ s' tr,
    event_remove (Some criterion) s = Ok s'
    ∧ events s' = List.filter (fun p => negb (selected criterion s p)) (events s)
    ∧ killme s' = killme s ++ List.filter (selected criterion s) (events s)
    ∧ heap s' = heap s ∧ next_ptr s' = next_ptr s ∧ blocked s' = blocked s
    ∧ sig_list s' = sig_list s ∧ active_list s' = active_list s
    ∧ trace s' = trace s ++ tr ∧ only_disables tr.
Proof.
  intros He.
  destruct (event_remove_loop_spec criterion (events s) [] s He He)
    as (tr & Htr & _ & Hloop).
  unfold event_remove. destruct (events s) as [|p l] eqn:Hev.
  - exists s, []. simpl. rewrite !app_nil_r, Hev.
    split_and!; try done. apply Forall_nil_2.
  - rewrite Hloop. simpl bind. eexists _, tr. split; [done|]. simpl.
    split_and!; done.
Qed.

(** X4. [event_remove] frees nothing: it splits [events], in order, into
    the entries the criterion does not select, which stay, and those it
    selects, which are appended to [killme].  The free store, the blocked
    queue and the signal lists are untouched, and the only requests made
    to the signal module are requests to stop delivery. *)
Theorem event_remove_partitions (criterion : event_t) (s : state) :
  Forall (live s) (events s) →
  ∃ s' removed tr,
    event_remove (Some criterion) s = Ok s'
    ∧ killme s' = killme s ++ removed
    ∧ events s ≡ₚ events s' ++ removed
    ∧ events s' `sublist_of` events s
    ∧ removed `sublist_of` events s
    ∧ Forall (fun p => selected criterion s p = true) removed
    ∧ Forall (fun p => selected criterion s p = false) (events s')
    ∧ heap s' = heap s ∧ next_ptr s' = next_ptr s ∧ blocked s' = blocked s
    ∧ sig_list s' = sig_list s ∧ active_list s' = active_list s
    ∧ trace s' = trace s ++ tr ∧ only_disables tr.
Proof.
  intros He.
  destruct (event_remove_spec criterion s He)
    as (s' & tr & Hrun & Hev & Hk & ? & ? & ? & ? & ? & ? & ?).
  exists s', (List.filter (selected criterion s) (events s)), tr.
  assert (∀ (f : ptr → bool) l, List.filter f l `sublist_of` l) as Hsub.
  { intros f l. induction l as [|p l IH]; simpl; [done|].
    destruct (f p); [by apply sublist_skip | by apply sublist_cons]. }
  rewrite Hev. split_and!; try done; try apply Hsub.
  - apply filter_selected_partition.
  - apply Forall_filter_true.
  - eapply Forall_impl; [apply Forall_filter_true|].
    simpl. intros p Hp. by apply negb_true_iff.
Qed.

(** X5. Once [event_remove] has returned, its criterion selects nothing:
    [event_get] then counts zero entries, and a second [event_remove] with
    the same criterion changes nothing at all. *)
Theorem event_remove_complete (criterion : event_t) (s s' : state) :
  Forall (live s) (events s) →
  event_remove (Some criterion) s = Ok s' →
  event_get (Some criterion) None s' = Ok (0, None, s')
  ∧ event_remove (Some criterion) s' = Ok s'.
Proof.
  intros He Hrun.
  destruct (event_remove_spec criterion s He)
    as (s1 & tr & Hrun1 & Hev & _ & Hheap & _).
  rewrite Hrun in Hrun1. injection Hrun1 as <-.
  assert (selected criterion s' = selected criterion s) as Hsel
    by (unfold selected; by rewrite Hheap).
  assert (Forall (live s') (events s')) as He'.
  { rewrite Hev. unfold live. rewrite Hheap. by apply Forall_filter_keep. }
  assert (Forall (fun p => selected criterion s' p = false) (events s')) as Hnone.
  { rewrite Hsel, Hev.
    eapply Forall_impl; [apply Forall_filter_true|].
    simpl. intros p Hp. by apply negb_true_iff. }
  pose proof (filter_none _ _ Hnone) as Hfilter.
  split.
  - rewrite (event_get_spec criterion None s' He'). by rewrite Hfilter.
  - destruct (event_remove_loop_spec criterion (events s') [] s' He' He')
      as (tr' & _ & Hnil & Hloop).
    rewrite (Hnil Hfilter), Hfilter in Hloop.
    rewrite (filter_all (fun p => negb (selected criterion s' p))) in Hloop.
    + unfold event_remove. destruct (events s') eqn:Hev'; [done|].
      rewrite Hloop. simpl bind. f_equal. rewrite <- Hev'. simpl fst. simpl snd.
      apply with_same.
    + eapply Forall_impl; [exact Hnone|]. simpl. by intros p ->.
Qed.

End Removal_properties.

(** ** The registry and the free store *)

Lemma registry_ok_perm (s s' : state) :
  heap s' = heap s →
  next_ptr s' = next_ptr s →
  events s' ++ killme s' ++ blocked s' ≡ₚ events s ++ killme s ++ blocked s →
  registry_ok s → registry_ok s'.
Proof.
  intros Hh Hn Hp (Hb & Hl & Hd). unfold registry_ok, live in *.
  rewrite Hh, Hn, Hp. done.
Qed.

Lemma registry_ok_events (s : state) :
  registry_ok s →
  Forall (live s) (events s) ∧ Forall (live s) (killme s)
  ∧ Forall (live s) (blocked s).
Proof.
  intros (_ & Hl & _). apply Forall_app in Hl as [? Hl].
  by apply Forall_app in Hl as [? ?].
Qed.

Lemma free_each_spec (l : list ptr) (s : state) :
  Forall (live s) l →
  NoDup l →
  ∃ h,
    free_each l s = Ok (with_heap h s)
    ∧ ∀ p : ptr, h !! p = if bool_decide (p ∈ l) then None else heap s !! p.
Proof.
  revert s. induction l as [|e l IH]; intros s Hl Hd.
  - exists (heap s). split; [by destruct s|]. done.
  - apply Forall_cons in Hl as [[ev He] Hl]. apply NoDup_cons in Hd as [Hne Hd].
    simpl. unfold event_free. rewrite He. simpl.
    destruct (IH (with_heap (delete e (heap s)) s)) as (h & Hrun & Hh); [|done|].
    { rewrite Forall_forall in Hl. apply Forall_forall. intros p Hp.
      unfold live. simpl. rewrite lookup_delete_ne by (by intros ->).
      by apply Hl. }
    exists h. split; [exact Hrun|]. intros p. rewrite Hh. simpl.
    destruct (decide (p = e)) as [->|Hpe].
    + rewrite lookup_delete_eq, (bool_decide_true (e ∈ e :: l)) by apply list_elem_of_here.
      by case_bool_decide.
    + rewrite lookup_delete_ne by done.
      case_bool_decide as Hin; case_bool_decide as Hin'; try done.
      * exfalso. by apply Hin', list_elem_of_further.
      * exfalso. apply elem_of_cons in Hin' as [?|?]; done.
Qed.

Lemma registry_ok_after_free (s s' : state) (gone : list ptr) :
  registry_ok s →
  (∀ p : ptr, heap s' !! p = if bool_decide (p ∈ gone) then None else heap s !! p) →
  next_ptr s' = next_ptr s →
  (events s' ++ killme s' ++ blocked s') ++ gone
    ≡ₚ events s ++ killme s ++ blocked s →
  registry_ok s'.
Proof.
  intros (Hb & Hl & Hd) Hh Hn Hp. rewrite <- Hp in Hl, Hd.
  apply NoDup_app in Hd as (Hd & Hdisj & _).
  apply Forall_app in Hl as [Hl _].
  split; [|split; [|done]].
  - intros p Hlive. rewrite Hn. apply Hb. unfold live in *.
    rewrite Hh in Hlive. by case_bool_decide; [destruct Hlive|].
  - rewrite Forall_forall in Hl. apply Forall_forall. intros p Hin.
    unfold live. rewrite Hh, bool_decide_false by (by apply Hdisj).
    by apply Hl.
Qed.

Lemma registry_ok_after_new (s s' : state) (e : event_t) :
  registry_ok s →
  heap s' = <[next_ptr s := e]> (heap s) →
  next_ptr s' = S (next_ptr s) →
  events s' ++ killme s' ++ blocked s'
    ≡ₚ next_ptr s :: events s ++ killme s ++ blocked s →
  registry_ok s'.
Proof.
  intros (Hb & Hl & Hd) Hh Hn Hp. unfold registry_ok, live in *.
  rewrite Hh, Hn, Hp. split; [|split].
  - intros p Hlive. apply lookup_insert_is_Some in Hlive as [<- | [_ Hlive]]; [lia|].
    apply Hb in Hlive. lia.
  - apply Forall_cons. split.
    + apply lookup_insert_is_Some. by left.
    + eapply Forall_impl; [exact Hl|]. simpl. intros p Hlive.
      apply lookup_insert_is_Some'. by right.
  - apply NoDup_cons. split; [|done].
    intros Hin. rewrite Forall_forall in Hl. apply Hl, Hb in Hin. lia.
Qed.

Section Registry.
Context `{Env}.

Lemma event_free_kills_spec (s : state) :
  registry_ok s →
  ∃ s',
    event_free_kills s = Ok s'
    ∧ killme s' = [] ∧ events s' = events s ∧ blocked s' = blocked s
    ∧ (∀ p : ptr, heap s' !! p
            = if bool_decide (p ∈ killme s) then None else heap s !! p)
    ∧ Forall (live s') (events s' ++ blocked s')
    ∧ registry_ok s'.
Proof.
  intros Hok. pose proof Hok as (_ & Hl & Hd).
  destruct (registry_ok_events s Hok) as (_ & Hk & _).
  apply NoDup_app in Hd as (_ & _ & Hd). apply NoDup_app in Hd as (Hd & _ & _).
  destruct (free_each_spec (killme s) s Hk Hd) as (h & Hrun & Hh).
  unfold event_free_kills. rewrite Hrun. simpl.
  eexists. split; [done|]. simpl. split_and!; try done.
  - assert (registry_ok (with_killme [] (with_heap h s))) as (_ & Hl' & _).
    { apply (registry_ok_after_free s _ (killme s)); try done. simpl.
      solve_Permutation. }
    exact Hl'.
  - apply (registry_ok_after_free s _ (killme s)); try done. simpl.
    solve_Permutation.
Qed.

(** X6. On a well-formed registry [event_free_kills] cannot free twice:
    it returns, frees exactly the cells of the kill list, empties the
    list, leaves every entry of [events] and of [blocked] in place, and
    a second call right after it changes nothing. *)
Theorem event_free_kills_frees_kill_list (s : state) :
  registry_ok s →
  ∃ s',
    event_free_kills s = Ok s'
    ∧ killme s' = [] ∧ events s' = events s ∧ blocked s' = blocked s
    ∧ (∀ p : ptr, live s' p ↔ live s p ∧ p ∉ killme s)
    ∧ (∀ p : ptr, p ∉ killme s → heap s' !! p = heap s !! p)
    ∧ registry_ok s'
    ∧ event_free_kills s' = Ok s'.
Proof.
  intros Hok.
  destruct (event_free_kills_spec s Hok)
    as (s' & Hrun & Hk & He & Hb & Hh & _ & Hok').
  exists s'. split_and!; try done.
  - intros p. unfold live. rewrite Hh. case_bool_decide; [|tauto].
    split; [by intros [? ?] | tauto].
  - intros p Hp. by rewrite Hh, bool_decide_false.
  - unfold event_free_kills. rewrite Hk. simpl. f_equal.
    rewrite <- Hk. by destruct s'.
Qed.

(** X7. On a well-formed registry [event_destroy] returns, frees every
    entry of [events] and of [killme] and empties both vectors.  It does
    not look at [blocked]: the occurrences waiting there stay allocated. *)
Theorem event_destroy_leaves_blocked (s : state) :
  registry_ok s →
  ∃ s',
    event_destroy s = Ok s'
    ∧ events s' = [] ∧ killme s' = [] ∧ blocked s' = blocked s
    ∧ (∀ p : ptr, heap s' !! p
            = if bool_decide (p ∈ events s ++ killme s) then None
              else heap s !! p)
    ∧ Forall (live s') (blocked s')
    ∧ registry_ok s'.
Proof.
  intros Hok. pose proof Hok as (_ & Hl & Hd).
  destruct (registry_ok_events s Hok) as (He & Hk & _).
  apply NoDup_app in Hd as (Hde & Hdisj & Hd).
  apply NoDup_app in Hd as (Hdk & _ & _).
  destruct (free_each_spec (events s) s He Hde) as (h1 & Hrun1 & Hh1).
  unfold event_destroy. rewrite Hrun1. simpl.
  destruct (free_each_spec (killme s) (with_events [] (with_heap h1 s)))
    as (h2 & Hrun2 & Hh2); [|done|].
  { rewrite Forall_forall in Hk. apply Forall_forall. intros p Hp.
    unfold live. simpl. rewrite Hh1, bool_decide_false; [by apply Hk|].
    intros Hin. apply (Hdisj p Hin). apply elem_of_app. by left. }
  rewrite Hrun2. simpl. simpl in Hh2.
  assert (∀ p : ptr, h2 !! p
               = if bool_decide (p ∈ events s ++ killme s) then None
                 else heap s !! p) as Hh.
  { intros p. rewrite Hh2, Hh1.
    case_bool_decide as Hin1; [|case_bool_decide as Hin2];
      case_bool_decide as Hin3; try done;
      exfalso; rewrite elem_of_app in Hin3; tauto. }
  assert (registry_ok
            (with_killme [] (with_heap h2 (with_events [] (with_heap h1 s)))))
    as Hok'.
  { apply (registry_ok_after_free s _ (events s ++ killme s)); try done. simpl.
    solve_Permutation. }
  eexists. split; [done|]. simpl. split_and!; try done.
  by destruct Hok' as (_ & Hl' & _).
Qed.

End Registry.

Section Registration.
Context `{Env}.

(** X8. Registration is seen by the next lookup: after
    [event_add_handler], [event_get] counts what it counted before plus
    one when the criterion selects the new entry, and the new entry is
    last in the destination. *)
Theorem event_add_handler_then_get (event criterion : event_t) (out : list ptr)
    (s : state) :
  registry_ok s →
  let found := List.filter (selected criterion s) (events s) in
  let s' := event_add_handler (Some event) s in
  event_get (Some criterion) (Some out) s'
  = Ok (Z.of_nat (length found) + (if event_match criterion event then 1 else 0),
        Some (out ++ found ++ (if event_match criterion event then [next_ptr s] else [])),
        s')
  ∧ events s' = events s ++ [next_ptr s]
  ∧ heap s' !! next_ptr s = Some (event_copy_value event false).
Proof.
  intros Hok found s'. pose proof Hok as (Hb & _ & _).
  destruct (registry_ok_events s Hok) as (He & _ & _).
  assert (events s' = events s ++ [next_ptr s]) as Hev.
  { subst s'. unfold event_add_handler, event_copy, alloc, signal_handle.
    simpl. by case_bool_decide. }
  assert (heap s' = <[next_ptr s := event_copy_value event false]> (heap s)) as Hh.
  { subst s'. unfold event_add_handler, event_copy, alloc, signal_handle.
    simpl. by case_bool_decide. }
  assert (∀ c, selected c s' (next_ptr s) = event_match c event) as Hnew.
  { intros c. unfold selected. by rewrite Hh, lookup_insert_eq. }
  assert (∀ c, Forall (fun p => selected c s' p = selected c s p) (events s)) as Hold.
  { intros c. eapply Forall_impl; [exact He|]. simpl. intros p Hp.
    unfold selected. rewrite Hh, lookup_insert_ne; [done|].
    apply Hb in Hp. lia. }
  assert (Forall (live s') (events s')) as He'.
  { rewrite Hev. apply Forall_app. split.
    - eapply Forall_impl; [exact He|]. simpl. intros p Hp. unfold live.
      rewrite Hh. apply lookup_insert_is_Some'. by right.
    - apply Forall_singleton. unfold live. rewrite Hh.
      apply lookup_insert_is_Some. by left. }
  split; [|split; [done|]].
  - rewrite (event_get_spec criterion (Some out) s' He').
    rewrite Hev, List.filter_app, (filter_ext_Forall _ _ _ (Hold criterion)).
    simpl. rewrite Hnew. fold found.
    destruct (event_match criterion event);
      rewrite length_app; simpl; repeat f_equal; lia.
  - by rewrite Hh, lookup_insert_eq.
Qed.

Lemma registry_ok_add (event : option event_t) (s : state) :
  registry_ok s → registry_ok (event_add_handler event s).
Proof.
  intros Hok. destruct event as [ev|].
  - apply (registry_ok_after_new s _ (event_copy_value ev false) Hok);
      unfold event_add_handler, event_copy, alloc, signal_handle; simpl;
      case_bool_decide; simpl; try done; solve_Permutation.
  - by apply (registry_ok_perm s).
Qed.

Lemma registry_ok_event_fire_signal (sig : Z) (s : state) :
  registry_ok s → registry_ok (event_fire_signal sig s).
Proof.
  intros Hok. apply (registry_ok_perm s); try done;
    unfold event_fire_signal, set_sig_slot; by destruct (_ <? _), (_ =? 0).
Qed.

Lemma registry_ok_event_remove (criterion : event_t) (s : state) :
  registry_ok s →
  ∃ s', event_remove (Some criterion) s = Ok s' ∧ registry_ok s'.
Proof.
  intros Hok. destruct (registry_ok_events s Hok) as (He & _ & _).
  destruct (event_remove_spec criterion s He)
    as (s' & tr & Hrun & Hev & Hk & Hh & Hn & Hbl & _).
  exists s'. split; [done|].
  apply (registry_ok_perm s); try done.
  pose proof (filter_selected_partition criterion s (events s)) as Hperm.
  rewrite <- Hev in Hperm.
  set (removed := List.filter (selected criterion s) (events s)) in *.
  rewrite Hk, Hbl.
  transitivity ((events s' ++ removed) ++ killme s ++ blocked s);
    [solve_Permutation | by rewrite <- Hperm].
Qed.

Lemma registry_ok_push_copy (e : event_t) (s : state) :
  registry_ok s → registry_ok (push_copy e s).
Proof.
  intros Hok.
  apply (registry_ok_after_new s _ (event_copy_value e true) Hok);
    simpl; try done. solve_Permutation.
Qed.

(** X9. The functions that change the vectors keep the registry well
    formed: [event_add_handler], [event_remove], [event_free_kills], the
    queueing of a blocked occurrence and the capture of a signal.  On a
    well-formed registry neither [event_remove] nor [event_free_kills]
    can read or free a cell that is gone. *)
Theorem registry_ok_kept (event : option event_t) (criterion e : event_t)
    (sig : Z) (s : state) :
  registry_ok s →
  registry_ok (event_add_handler event s)
  ∧ (∃ s', event_remove (Some criterion) s = Ok s' ∧ registry_ok s')
  ∧ (∃ s', event_free_kills s = Ok s' ∧ registry_ok s')
  ∧ registry_ok (push_copy e s)
  ∧ registry_ok (event_fire_signal sig s).
Proof.
  intros Hok. split_and!.
  - by apply registry_ok_add.
  - by apply registry_ok_event_remove.
  - destruct (event_free_kills_spec s Hok) as (s' & Hrun & _ & _ & _ & _ & _ & Hok').
    by exists s'.
  - by apply registry_ok_push_copy.
  - by apply registry_ok_event_fire_signal.
Qed.

End Registration.

(** ** Dispatch *)

Lemma append_nil_r (w : wcstring) : w +:+ "" = w.
Proof.
  induction w as [|a w IH]; [reflexivity|].
  change (String a (w +:+ "") = String a w). by rewrite IH.
Qed.

Lemma append_assoc (u v w : wcstring) : (u +:+ v) +:+ w = u +:+ v +:+ w.
Proof.
  induction u as [|a u IH]; [reflexivity|].
  change (String a ((u +:+ v) +:+ w) = String a (u +:+ v +:+ w)). by rewrite IH.
Qed.

Lemma command_line_foldr `{Env} (criterion event : event_t) :
  command_line criterion event
  = function_name criterion
    +:+ foldr (fun arg rest => " " +:+ escape_string arg 1 +:+ rest) ""
          (args_of event).
Proof.
  unfold command_line. generalize (function_name criterion).
  induction (args_of event) as [|arg l IH]; intros buffer; simpl.
  - by rewrite append_nil_r.
  - rewrite IH. by rewrite !append_assoc.
Qed.

Section Quiet_dispatch.
Context `{Env} (eval : evaluator).

Lemma event_fire_delayed_idle (fuel : nat) (s : state) :
  blocked s = [] ∨ is_event s ≠ 1 →
  count (sig_slot (active_list s) s) ≤ 0 →
  event_fire_delayed eval fuel s = Ok s.
Proof.
  intros Hidle Hnone. unfold event_fire_delayed.
  assert (retry_blocked eval fuel s = Ok s) as ->.
  { unfold retry_blocked. destruct Hidle as [-> | Hd]; [done|].
    by rewrite (proj2 (Z.eqb_neq _ _)), andb_false_r by done. }
  simpl. destruct fuel; simpl; by rewrite (proj2 (Z.ltb_ge _ _)) by done.
Qed.

Lemma with_is_event_back (s : state) :
  with_is_event (is_event s + 1 - 1) (with_is_event (is_event s + 1) s) = s.
Proof. destruct s; unfold with_is_event; simpl. f_equal. lia. Qed.

Lemma event_fire_internal_unmatched (ev : event_t) (s : state) :
  registry_ok s →
  List.filter (triggered ev s) (events s) = [] →
  event_fire_internal eval ev s = event_free_kills s.
Proof.
  intros Hok Hnone.
  destruct (event_free_kills_spec s Hok)
    as (s1 & Hrun & _ & Hev & _ & Hh & Hl & _).
  unfold event_fire_internal. rewrite Hrun. simpl.
  apply Forall_app in Hl as [Hl _].
  assert (fire_list ev (events s1) [] s1 = Ok []) as Hfire.
  { rewrite fire_list_filter by done. simpl.
    rewrite Hev, <- Hnone. f_equal. apply filter_ext_Forall.
    rewrite Hev in Hl. eapply Forall_impl; [exact Hl|]. simpl.
    intros p [c Hc]. unfold triggered. rewrite Hc.
    rewrite Hh in Hc. case_bool_decide; [done|]. by rewrite Hc. }
  destruct (events s1); [done|]. by rewrite Hfire.
Qed.

(** X10. When no live entry matches, a dispatch pass never enters the
    evaluator: it frees the kill list and does nothing else.  If moreover
    nothing is pending and the kill list is empty, raising an occurrence
    that is neither a signal nor blocked leaves the whole state as it
    was. *)
Theorem unmatched_occurrence_is_dropped (fuel : nat) (ev : event_t) (s : state) :
  registry_ok s →
  List.filter (triggered ev s) (events s) = [] →
  event_fire_internal eval ev s = event_free_kills s
  ∧ (type ev ≠ EVENT_SIGNAL →
     event_is_blocked ev s = false →
     killme s = [] →
     blocked s = [] ∨ is_event s ≠ 0 →
     count (sig_slot (active_list s) s) ≤ 0 →
     event_fire eval fuel (Some ev) s = Ok s).
Proof.
  intros Hok Hnone.
  split; [by apply event_fire_internal_unmatched|].
  intros Hty Hfree Hk Hidle Hpending. unfold event_fire.
  rewrite bool_decide_false by done.
  rewrite event_fire_delayed_idle; [|simpl; destruct Hidle; [by left | right; lia]|done].
  simpl. unfold queue_or_fire.
  assert (event_is_blocked ev (with_is_event (is_event s + 1) s) = false) as ->
    by exact Hfree.
  rewrite event_fire_internal_unmatched;
    [|by apply (registry_ok_perm s)|exact Hnone].
  unfold event_free_kills. simpl. rewrite Hk. simpl. f_equal.
  rewrite <- Hk.
  replace (with_killme (killme s) (with_is_event (is_event s + 1) s))
    with (with_is_event (is_event s + 1) s) by (by destruct s).
  apply with_is_event_back.
Qed.

End Quiet_dispatch.

Section Generic_events.
Context `{Env} (eval : evaluator).

(** X11. [event_fire_generic_internal] with a null name only reports the
    violated precondition.  With a name it raises a generic occurrence, so
    nothing is captured; when nothing is pending, generic events are not
    blocked, the kill list is empty and one live entry [h] matches, the
    call is one run of the evaluator on the function name of [h] followed
    by a space and the escaped text of each argument, in order, and the
    nesting counter is back at its value when the call returns. *)
Theorem generic_event_runs_its_handler (fuel : nat) (name : wcstring)
    (args : list wcstring) (h : ptr) (hv : event_t) (s : state) :
  let ev := set_arguments (Some args) (generic_event name) in
  let cmd :=
    function_name hv
    +:+ foldr (fun arg rest => " " +:+ escape_string arg 1 +:+ rest) "" args in
  event_fire_generic_internal eval fuel None args s
  = Ok (CHECK_failed "event_fire_generic_internal" "name" s)
  ∧ (registry_ok s →
     killme s = [] →
     blocked s = [] ∨ is_event s ≠ 0 →
     count (sig_slot (active_list s) s) ≤ 0 →
     event_is_blocked ev s = false →
     List.filter (triggered ev s) (events s) = [h] →
     heap s !! h = Some hv →
     event_fire_generic_internal eval fuel (Some name) args s
     = (s3 <- eval cmd (handler_entry ev cmd (with_is_event (is_event s + 1) s)) ;;
        s4 <- event_free_kills (handler_exit (last_status s) s3) ;;
        Ok (with_is_event (is_event s4 - 1) s4))).
Proof.
  intros ev cmd. split; [done|].
  intros Hok Hk Hidle Hpending Hfree Hfilter Hh.
  unfold event_fire_generic_internal, event_fire. fold (generic_event name). fold ev.
  rewrite bool_decide_false by done.
  rewrite event_fire_delayed_idle; [|simpl; destruct Hidle; [by left | right; lia]|done].
  simpl. unfold queue_or_fire.
  assert (event_is_blocked ev (with_is_event (is_event s + 1) s) = false) as ->
    by exact Hfree.
  destruct (registry_ok_events s Hok) as (He & _ & _).
  rewrite (event_fire_internal_single eval ev h hv); try done.
  - rewrite command_line_foldr. fold cmd. by rewrite bind_assoc.
  - rewrite (fire_list_filter ev (events s) []) by exact He. simpl.
    by rewrite <- Hfilter.
Qed.

End Generic_events.

(** ** Blocked occurrences that stay blocked *)

Lemma with_blocked_same (s : state) : with_blocked (blocked s) s = s.
Proof. by destruct s. Qed.

(** X12. A retry that finds every queued occurrence still blocked calls no
    handler and frees nothing: the state, queue included, is exactly as it
    was. *)
Theorem retry_keeps_blocked_entries `{Env} (eval : evaluator) (fuel : nat)
    (s : state) :
  Forall (still_blocked s) (blocked s) →
  (length (blocked s) ≤ fuel)%nat →
  retry_blocked eval fuel s = Ok s.
Proof.
  intros Hall Hfuel. unfold retry_blocked.
  destruct (negb _ && _); [|done].
  replace fuel with (length (blocked s) + (fuel - length (blocked s)))%nat by lia.
  rewrite (retry_loop_keep eval (blocked s) [] [] []) by (by rewrite ?app_nil_r).
  simpl.
  assert (blocked s !! length (blocked s) = None) as Hend
    by (by apply lookup_ge_None_2).
  destruct (fuel - length (blocked s))%nat; simpl; rewrite Hend; simpl;
    by rewrite with_blocked_same.
Qed.

(** ** Signals drained while signals are blocked *)

Lemma event_is_blocked_type (e e' : event_t) (s : state) :
  type e = type e' → event_is_blocked e s = event_is_blocked e' s.
Proof. unfold event_is_blocked. by intros ->. Qed.

Lemma queue_copies_spec (l : list event_t) (s : state) :
  let s' := queue_copies l s in
  blocked s' = blocked s ++ seq (next_ptr s) (length l)
  ∧ next_ptr s' = (next_ptr s + length l)%nat
  ∧ events s' = events s ∧ killme s' = killme s ∧ trace s' = trace s
  ∧ sig_list s' = sig_list s ∧ active_list s' = active_list s
  ∧ current_block s' = current_block s
  ∧ global_event_blocks s' = global_event_blocks s
  ∧ (∀ p : ptr, (p < next_ptr s)%nat → heap s' !! p = heap s !! p)
  ∧ (∀ (i : nat) e, l !! i = Some e →
       heap s' !! (next_ptr s + i)%nat = Some (event_copy_value e true)).
Proof.
  revert s. induction l as [|e l IH]; intros s; simpl.
  - rewrite app_nil_r, Nat.add_0_r. split_and!; try done.
  - specialize (IH (push_copy e s)). simpl in IH.
    destruct IH as (Hb & Hn & He & Hk & Ht & Hs & Ha & Hc & Hg & Hlow & Hnew).
    rewrite Hb, Hn, He, Hk, Ht, Hs, Ha, Hc, Hg. split_and!; try done.
    + by rewrite <- app_assoc.
    + intros p Hp. rewrite Hlow by lia.
      apply lookup_insert_ne. lia.
    + intros [|i] e' Hi; simpl in Hi.
      * injection Hi as <-. rewrite Nat.add_0_r, Hlow by lia.
        apply lookup_insert_eq.
      * replace (next_ptr s + S i)%nat with (S (next_ptr s + i))%nat by lia.
        by apply Hnew.
Qed.

Section Blocked_drain.
Context `{Env} (eval : evaluator).

Lemma queue_or_fire_blocked (e : event_t) (s : state) :
  event_is_blocked e s = true → queue_or_fire eval e s = Ok (push_copy e s).
Proof. intros Hb. unfold queue_or_fire. by rewrite Hb. Qed.

Lemma drain_for_blocked (k fuel : nat) (lst : Z) (i : nat) (e : event_t)
    (s : state) :
  let l := sig_slot lst s in
  0 ≤ count l →
  (Z.to_nat (count l) ≤ length (signal l))%nat →
  drain_shape e →
  event_is_blocked (signal_event 0) s = true →
  (Z.to_nat (count l) - i)%nat = k →
  (k ≤ fuel)%nat →
  drain_for eval fuel lst i e s
  = Ok (queue_copies (map signal_occurrence (drop i (captured l))) s).
Proof.
  revert fuel i e s.
  induction k as [|k IH]; intros fuel i e s l Hc Hl He Hb Hk Hfuel.
  - assert ((Z.of_nat i <? count l) = false) as Hcond by (apply Z.ltb_ge; lia).
    rewrite drop_ge by (unfold captured; rewrite length_take; lia).
    destruct fuel; simpl; fold l; by rewrite Hcond.
  - destruct fuel as [|fuel]; [lia|].
    assert ((Z.of_nat i <? count l) = true) as Hcond by (apply Z.ltb_lt; lia).
    destruct (lookup_lt_is_Some_2 (signal l) i) as [sig Hsig]; [lia|].
    rewrite (drop_S _ sig) by (unfold captured; rewrite lookup_take_lt; [done | lia]).
    simpl. fold l. rewrite Hcond, Hsig, (drain_event_shape _ _ He).
    rewrite queue_or_fire_blocked
      by (by rewrite (event_is_blocked_type _ (signal_event 0))).
    simpl.
    assert (sig_slot lst (push_copy (signal_occurrence sig) s) = l) as Hslot by done.
    specialize (IH fuel (S i) (signal_occurrence sig)
                  (push_copy (signal_occurrence sig) s)).
    simpl in IH. rewrite Hslot in IH. apply IH; try done; lia.
Qed.

(** X13. While signal events are blocked the drain runs no handler,
    whatever the evaluator is: the lists change roles and one occurrence
    per captured signal is appended to the blocked queue, in capture
    order, each in a fresh cell holding the signal number and its
    symbolic name as the only argument.  Registry, kill list and existing
    queue entries are untouched. *)
Theorem blocked_signals_are_queued (fuel : nat) (s : state) :
  let l := sig_slot (active_list s) s in
  active_list s = 0 ∨ active_list s = 1 →
  slot_ok l →
  0 < count l →
  event_is_blocked (signal_event 0) s = true →
  (Z.to_nat (count l) < fuel)%nat →
  ∃ s',
    drain_signals eval fuel s = Ok s'
    ∧ blocked s' = blocked s ++ seq (next_ptr s) (length (captured l))
    ∧ (∀ (i : nat) sig, captured l !! i = Some sig →
         heap s' !! (next_ptr s + i)%nat = Some (signal_occurrence sig))
    ∧ (∀ p : ptr, (p < next_ptr s)%nat → heap s' !! p = heap s !! p)
    ∧ events s' = events s ∧ killme s' = killme s
    ∧ trace s' = trace (switch_lists s)
    ∧ active_list s' = 1 - active_list s
    ∧ count (sig_slot (active_list s') s') = 0.
Proof.
  intros l Hact [Hc Hl] Hpos Hb Hfuel. unfold SIG_UNHANDLED_MAX in *.
  destruct fuel as [|fuel]; [lia|]. simpl. fold l.
  rewrite (proj2 (Z.ltb_lt _ _)) by done.
  set (s3 := if negb _ then _ else _).
  assert (s3 = switch_lists s) as ->.
  { subst s3. unfold switch_lists. rewrite active_list_set_sig_slot.
    replace (1 - (1 - active_list s)) with (active_list s) by lia.
    assert (sig_slot (active_list s)
              (with_active_list (1 - active_list s)
                 (set_sig_slot (1 - active_list s)
                    {| count := 0; overflow := 0;
                       signal := signal (sig_slot (1 - active_list s) s) |} s))
            = sig_slot (active_list s) s) as ->.
    { destruct Hact as [-> | ->]; done. }
    rewrite Z_eqb_decide. by case_bool_decide. }
  assert (active_list (switch_lists s) = 1 - active_list s) as Hact3.
  { unfold switch_lists. case_bool_decide; simpl; done. }
  assert (sig_slot (active_list s) (switch_lists s) = l) as Hslot.
  { unfold switch_lists, debug. subst l.
    destruct Hact as [Ha | Ha]; rewrite Ha; by case_bool_decide. }
  assert (count (sig_slot (1 - active_list s) (switch_lists s)) = 0) as Hzero.
  { unfold switch_lists, debug.
    destruct Hact as [Ha | Ha]; rewrite Ha; by case_bool_decide. }
  assert (next_ptr (switch_lists s) = next_ptr s
          ∧ blocked (switch_lists s) = blocked s
          ∧ heap (switch_lists s) = heap s
          ∧ events (switch_lists s) = events s
          ∧ killme (switch_lists s) = killme s
          ∧ event_is_blocked (signal_event 0) (switch_lists s) = true)
    as (Hn3 & Hb3 & Hh3 & He3 & Hk3 & Hbl3).
  { unfold switch_lists, debug, set_sig_slot, event_is_blocked in *.
    case_bool_decide; destruct (_ =? 0); simpl; done. }
  rewrite active_list_set_sig_slot.
  replace (1 - (1 - active_list s)) with (active_list s) by lia.
  pose proof (drain_for_blocked (Z.to_nat (count l)) fuel (active_list s) 0
                (set_arguments (Some [""]) (signal_event 0)) (switch_lists s)) as Hfor.
  simpl in Hfor. rewrite Hslot in Hfor. rewrite drop_0 in Hfor.
  rewrite Hfor; [|lia|lia|done|done|lia|lia]. simpl.
  destruct (queue_copies_spec (map signal_occurrence (captured l)) (switch_lists s))
    as (Hqb & Hqn & Hqe & Hqk & Hqt & Hqs & Hqa & _ & _ & Hlow & Hnew).
  set (s4 := queue_copies _ _) in *.
  assert (sig_slot (1 - active_list s) s4
          = sig_slot (1 - active_list s) (switch_lists s)) as Hs4
    by (unfold sig_slot; by rewrite Hqs).
  assert (drain_signals eval fuel s4 = Ok s4) as ->.
  { destruct fuel; simpl; rewrite Hqa, Hact3, Hs4, Hzero; done. }
  exists s4. rewrite length_map in Hqb.
  split; [done|]. rewrite Hqb, Hqe, Hqk, Hqt, Hqa, Hb3, Hn3, He3, Hk3, Hact3.
  split_and!; try done.
  - intros i sig Hi. rewrite <- Hn3.
    rewrite (Hnew i (signal_occurrence sig)); [done|].
    by rewrite list_lookup_fmap, Hi.
  - intros p Hp. rewrite Hlow by lia. by rewrite Hh3.
  - by rewrite Hs4, Hzero.
Qed.

End Blocked_drain.

(** ** Capture leaves the rest of the state alone *)

Lemma set_sig_slot_twice (k : Z) (v v' : signal_list_t) (s : state) :
  set_sig_slot k v' (set_sig_slot k v s) = set_sig_slot k v' s.
Proof. unfold set_sig_slot. by destruct (k =? 0). Qed.

Lemma event_fire_signal_as_set (sig : Z) (s : state) :
  event_fire_signal sig s
  = set_sig_slot (active_list s)
      (sig_slot (active_list s) (event_fire_signal sig s)) s.
Proof.
  unfold event_fire_signal. destruct (_ <? _); by rewrite sig_slot_set_eq.
Qed.

Lemma sig_slot_set_other (k : Z) (v : signal_list_t) (s : state) :
  k = 0 ∨ k = 1 → sig_slot (1 - k) (set_sig_slot k v s) = sig_slot (1 - k) s.
Proof. by intros [-> | ->]. Qed.

(** X14. A run of captures writes the active slot and nothing else: the
    state afterwards is the state before with that one slot replaced, the
    inactive slot is as it was, the active index has not moved, and both
    slots are still in range. *)
Theorem capture_writes_active_slot_only (sigs : list Z) (s : state) :
  capture_ok s →
  let s' := capture_all sigs s in
  s' = set_sig_slot (active_list s) (sig_slot (active_list s) s') s
  ∧ sig_slot (1 - active_list s) s' = sig_slot (1 - active_list s) s
  ∧ active_list s' = active_list s
  ∧ capture_ok s'.
Proof.
  intros (Hact & Hok0 & Hok1) s'.
  assert (s' = set_sig_slot (active_list s) (sig_slot (active_list s) s') s) as Hset.
  { subst s'. clear. revert s. induction sigs as [|sig sigs IH]; intros s; simpl.
    - unfold set_sig_slot, sig_slot. destruct (_ =? 0); by destruct s as [? ? ? ? ? [? ?]].
    - rewrite (IH (event_fire_signal sig s)) at 1.
      rewrite active_list_event_fire_signal.
      rewrite (event_fire_signal_as_set sig s) at 2.
      by rewrite set_sig_slot_twice. }
  assert (slot_ok (sig_slot (active_list s) s)) as Hok
    by (unfold sig_slot; destruct Hact as [-> | ->]; done).
  destruct (capture_all_slot sigs s Hok) as (Hok' & Hact' & _).
  fold s' in Hok', Hact'.
  assert (sig_slot (1 - active_list s) s' = sig_slot (1 - active_list s) s) as Hother
    by (rewrite Hset; by apply sig_slot_set_other).
  split; [done|]. split; [done|]. split; [done|].
  split; [by rewrite Hact'|].
  destruct Hact as [Ha | Ha]; rewrite Ha in *; unfold sig_slot in *; simpl in *.
  - by rewrite Hother.
  - by rewrite Hother.
Qed.

(** ** The nesting counter *)

#[global] Instance is_event_frame : Registry_frame is_event.
Proof. by split. Qed.

Section Depth.
Context `{Env} (eval : evaluator).
Hypothesis eval_depth : keeps_depth eval.

Lemma fire_one_depth (event : event_t) (criterion : ptr) :
  keeps is_event (fire_one eval event criterion).
Proof.
  intros s s' Hrun. unfold fire_one in Hrun.
  destruct (event_is_killed criterion s); [by inv_ok Hrun|].
  inv_bind Hrun. inv_bind Hrun. inv_ok Hrun.
  apply eval_depth in Ha0. simpl in Ha0. rewrite <- Ha0.
  unfold proc_set_last_status, proc_pop_interactive, pop_block; simpl.
  by destruct (interactive_stack a0).
Qed.

Lemma event_fire_signal_depth (sig : Z) (s : state) :
  is_event (event_fire_signal sig s) = is_event s.
Proof.
  unfold event_fire_signal, set_sig_slot.
  by destruct (_ <? _), (_ =? _).
Qed.

Lemma retry_loop_depth (fuel i : nat) (new_blocked : list ptr) (s : state) r :
  retry_loop eval fuel i new_blocked s = Ok r →
  is_event (snd r) = is_event s.
Proof.
  revert i new_blocked s.
  induction fuel as [|fuel IH]; intros i nb s Hrun; simpl in Hrun;
    destruct (blocked s !! i) as [e|]; try done; try by inv_ok Hrun.
  inv_bind Hrun. destruct (event_is_blocked a s); [by apply IH in Hrun|].
  inv_bind Hrun. inv_bind Hrun. apply IH in Hrun. rewrite Hrun.
  apply (keeps_event_free is_event) in Ha1. rewrite Ha1.
  revert Ha0. apply keeps_event_fire_internal; [apply _|].
  apply fire_one_depth.
Qed.

Lemma retry_blocked_depth (fuel : nat) : keeps is_event (retry_blocked eval fuel).
Proof.
  intros s s' Hrun. unfold retry_blocked in Hrun.
  destruct (_ && _); [|by inv_ok Hrun].
  inv_bind Hrun. inv_ok Hrun. by apply retry_loop_depth in Ha.
Qed.

Lemma drain_for_depth (fuel : nat) (lst : Z) (i : nat) (e : event_t) :
  keeps is_event (drain_for eval fuel lst i e).
Proof.
  revert i e.
  induction fuel as [|fuel IH]; intros i e s s' Hrun; simpl in Hrun;
    destruct (_ <? _); try done; try by inv_ok Hrun.
  destruct (signal (sig_slot lst s) !! i); [|done].
  inv_bind Hrun. apply IH in Hrun. rewrite Hrun.
  revert Ha. apply keeps_queue_or_fire; [apply _|]. apply fire_one_depth.
Qed.

Lemma drain_signals_depth (fuel : nat) : keeps is_event (drain_signals eval fuel).
Proof.
  induction fuel as [|fuel IH]; intros s s' Hrun; simpl in Hrun;
    destruct (_ <? _); try done; try by inv_ok Hrun.
  inv_bind Hrun. apply IH in Hrun. rewrite Hrun.
  apply drain_for_depth in Ha. rewrite Ha.
  unfold set_sig_slot, debug. by destruct (negb _), (_ =? 0).
Qed.

Lemma event_fire_delayed_depth (fuel : nat) :
  keeps is_event (event_fire_delayed eval fuel).
Proof.
  intros s s' Hrun. unfold event_fire_delayed in Hrun. inv_bind Hrun.
  apply drain_signals_depth in Hrun. apply retry_blocked_depth in Ha.
  congruence.
Qed.

Lemma event_fire_depth (fuel : nat) (event : option event_t) :
  keeps is_event (event_fire eval fuel event).
Proof.
  intros s s' Hrun. unfold event_fire in Hrun.
  destruct event as [ev|].
  - case_bool_decide; [inv_ok Hrun; apply event_fire_signal_depth|].
    inv_bind Hrun. inv_bind Hrun. inv_ok Hrun. simpl.
    apply event_fire_delayed_depth in Ha.
    apply (keeps_queue_or_fire is_event eval fire_one_depth) in Ha0.
    simpl in Ha. lia.
  - inv_bind Hrun. inv_ok Hrun. simpl.
    apply event_fire_delayed_depth in Ha. simpl in Ha. lia.
Qed.

Lemma run_script_depth (fuel : nat) (body : list command) :
  keeps is_event (run_script eval fuel body).
Proof.
  induction body as [|c body IH]; intros s s' Hrun; simpl in Hrun.
  - by inv_ok Hrun.
  - inv_bind Hrun. apply IH in Hrun. rewrite Hrun. clear Hrun IH.
    destruct c; simpl in Ha; try by inv_ok Ha.
    + inv_ok Ha. apply (keeps_event_add_handler is_event).
    + by apply (keeps_event_remove is_event) in Ha.
    + by apply event_fire_depth in Ha.
    + inv_ok Ha. apply event_fire_signal_depth.
Qed.

End Depth.

Lemma shell_keeps_depth `{Env} (functions : wcstring -> list command) (fuel : nat) :
  keeps_depth (shell functions fuel).
Proof.
  induction fuel as [|fuel IH]; intros cmd s s' Hrun; simpl in Hrun; [done|].
  by apply (run_script_depth _ IH) in Hrun.
Qed.

(** X15. [event_fire] returns with the nesting counter it was called
    with, and so do a dispatch pass and the delayed processing, for every
    evaluator that keeps the depth; the shell does for every body, however
    deeply its handlers raise further occurrences. *)
Theorem event_fire_restores_depth `{Env} (eval : evaluator) (fuel : nat)
    (event : option event_t) (ev : event_t) (s s' : state) :
  keeps_depth eval →
  (event_fire eval fuel event s = Ok s' → is_event s' = is_event s)
  ∧ (event_fire_internal eval ev s = Ok s' → is_event s' = is_event s)
  ∧ (event_fire_delayed eval fuel s = Ok s' → is_event s' = is_event s).
Proof.
  intros Hd. split; [|split]; intros Hrun.
  - by apply (event_fire_depth _ Hd) in Hrun.
  - revert Hrun. apply keeps_event_fire_internal; [apply _|].
    by apply fire_one_depth.
  - by apply (event_fire_delayed_depth _ Hd) in Hrun.
Qed.

(** ** The further properties at concrete inputs *)

Lemma registry_ok_initial : registry_ok initial_state.
Proof.
  split; [|split].
  - intros p [e He]. simpl in He. by rewrite lookup_empty in He.
  - apply Forall_nil_2.
  - apply NoDup_nil_2.
Qed.

Lemma registry_ok_two_signal_handlers : registry_ok two_signal_handlers.
Proof. do 2 apply registry_ok_add. apply registry_ok_initial. Qed.

Lemma registry_ok_both_removed : registry_ok both_removed.
Proof.
  destruct (@registry_ok_event_remove sample_env (signal_event 10)
              two_signal_handlers registry_ok_two_signal_handlers)
    as (s' & Hrun & Hok).
  assert (@event_remove sample_env (Some (signal_event 10)) two_signal_handlers
          = Ok both_removed) as Hrun' by (vm_compute; reflexivity).
  rewrite Hrun' in Hrun. by injection Hrun as <-.
Qed.

Lemma registry_ok_mixed_registry : registry_ok mixed_registry.
Proof.
  apply registry_ok_push_copy, registry_ok_add, registry_ok_both_removed.
Qed.

Lemma registry_ok_deploy_registered : registry_ok deploy_registered.
Proof. apply registry_ok_add, registry_ok_initial. Qed.

Lemma live_two_signal_handlers :
  Forall (live two_signal_handlers) (events two_signal_handlers).
Proof. by destruct (registry_ok_events _ registry_ok_two_signal_handlers). Qed.

(** X2 at a concrete input: two handlers of signal 10. *)
Lemma event_get_counts_selected_witness :
  @event_get sample_env (Some (signal_event 10)) (Some [7%nat]) two_signal_handlers
  = Ok (2, Some [7%nat; 0%nat; 1%nat], two_signal_handlers).
Proof.
  destruct (@event_get_counts_selected sample_env (signal_event 10) [7%nat]
              two_signal_handlers live_two_signal_handlers)
    as (found & Hget & _).
  etrans; [exact Hget|].
  vm_compute in Hget. injection Hget as _ <-. reflexivity.
Defined.

Lemma remove_two_signal_handlers :
  @event_remove sample_env (Some (signal_event 10)) two_signal_handlers
  = Ok both_removed.
Proof. vm_compute. reflexivity. Qed.

(** X4 at a concrete input: both handlers of signal 10 are selected. *)
Lemma event_remove_partitions_witness :
  @event_remove sample_env (Some (signal_event 10)) two_signal_handlers
  = Ok both_removed
  ∧ heap both_removed = heap two_signal_handlers
  ∧ events two_signal_handlers ≡ₚ events both_removed ++ killme both_removed.
Proof.
  destruct (@event_remove_partitions sample_env (signal_event 10)
              two_signal_handlers live_two_signal_handlers)
    as (s' & removed & tr & Hrun & Hk & Hperm & _ & _ & _ & _ & Hheap & _).
  rewrite remove_two_signal_handlers in Hrun. injection Hrun as <-.
  split; [exact remove_two_signal_handlers|]. split; [exact Hheap|].
  by rewrite Hk.
Defined.

(** X5 at a concrete input. *)
Lemma event_remove_complete_witness :
  @event_get sample_env (Some (signal_event 10)) None both_removed
  = Ok (0, None, both_removed)
  ∧ @event_remove sample_env (Some (signal_event 10)) both_removed
    = Ok both_removed.
Proof.
  exact (@event_remove_complete sample_env (signal_event 10) two_signal_handlers
           both_removed live_two_signal_handlers remove_two_signal_handlers).
Defined.

(** X6 at a concrete input: a kill list of two entries. *)
Lemma event_free_kills_frees_kill_list_witness :
  killme both_removed = [0%nat; 1%nat]
  ∧ ∃ s', event_free_kills both_removed = Ok s'
          ∧ killme s' = [] ∧ ¬ live s' 0%nat ∧ ¬ live s' 1%nat.
Proof.
  split; [reflexivity|].
  destruct (event_free_kills_frees_kill_list both_removed registry_ok_both_removed)
    as (s' & Hrun & Hk & _ & _ & Hlive & _).
  exists s'. split; [done|]. split; [done|].
  change (killme both_removed) with [0%nat; 1%nat] in Hlive.
  split; intros Hl; apply Hlive in Hl as [_ Hl]; apply Hl.
  - apply list_elem_of_here.
  - apply list_elem_of_further, list_elem_of_here.
Defined.

(** X7 at a concrete input: the queued occurrence at address 3 survives. *)
Lemma event_destroy_leaves_blocked_witness :
  ∃ s', @event_destroy mixed_registry = Ok s'
        ∧ events s' = [] ∧ killme s' = []
        ∧ blocked s' = [3%nat] ∧ live s' 3%nat.
Proof.
  destruct (event_destroy_leaves_blocked mixed_registry registry_ok_mixed_registry)
    as (s' & Hrun & He & Hk & Hb & _ & Hl & _).
  exists s'. split; [done|]. split; [done|]. split; [done|].
  change (blocked mixed_registry) with [3%nat] in Hb.
  split; [done|]. rewrite Hb in Hl. by inversion Hl.
Defined.

Lemma registry_ok_usr1_registered : registry_ok usr1_registered.
Proof. apply registry_ok_add, registry_ok_initial. Qed.

(** X8 at a concrete input: a second handler of signal 10. *)
Lemma event_add_handler_then_get_witness :
  @event_get sample_env (Some (signal_event 10)) (Some [])
    (event_add_handler (Some (handler (signal_event 10) "g")) usr1_registered)
  = Ok (2, Some [0%nat; 1%nat],
        event_add_handler (Some (handler (signal_event 10) "g")) usr1_registered).
Proof.
  destruct (@event_add_handler_then_get sample_env (handler (signal_event 10) "g")
              (signal_event 10) [] usr1_registered registry_ok_usr1_registered)
    as (Hget & _).
  etrans; [exact Hget|]. reflexivity.
Defined.

(** X9 at a concrete input. *)
Lemma registry_ok_kept_witness :
  registry_ok (event_add_handler None two_signal_handlers)
  ∧ registry_ok both_removed
  ∧ registry_ok (event_fire_signal 10 two_signal_handlers).
Proof.
  destruct (@registry_ok_kept sample_env None (signal_event 10) deploy_event 10
              two_signal_handlers registry_ok_two_signal_handlers)
    as (Hadd & (s' & Hrun & Hok) & _ & _ & Hsig).
  rewrite remove_two_signal_handlers in Hrun. injection Hrun as <-.
  done.
Defined.

(** X10 at a concrete input: nobody handles the generic event. *)
Lemma unmatched_occurrence_is_dropped_witness :
  @event_fire sample_env status_eval 3 (Some (generic_event "nobody"))
    two_signal_handlers
  = Ok two_signal_handlers.
Proof.
  destruct (@unmatched_occurrence_is_dropped sample_env status_eval 3%nat
              (generic_event "nobody") two_signal_handlers
              registry_ok_two_signal_handlers) as [_ Hfire].
  - vm_compute. reflexivity.
  - apply Hfire; [discriminate | reflexivity | reflexivity | by left |].
    vm_compute. discriminate.
Defined.

(** X11 at a concrete input: [deploy] raised with the argument [v2]. *)
Lemma generic_event_runs_its_handler_witness :
  ∃ s', @event_fire_generic_internal sample_env status_eval 3 (Some "deploy")
          ["v2"] deploy_registered = Ok s'
        ∧ trace s' = [Obs_eval "on_deploy v2"]
        ∧ is_event s' = 0 ∧ blocked s' = [].
Proof.
  destruct (@generic_event_runs_its_handler sample_env status_eval 3%nat "deploy"
              ["v2"] 0%nat
              (event_copy_value (handler (generic_event "deploy") "on_deploy") false)
              deploy_registered) as [_ Hrun].
  eexists. split.
  - etrans; [apply Hrun|].
    + exact registry_ok_deploy_registered.
    + reflexivity.
    + by left.
    + vm_compute. discriminate.
    + reflexivity.
    + vm_compute. reflexivity.
    + vm_compute. reflexivity.
    + vm_compute. reflexivity.
  - vm_compute. done.
Defined.

(** X12 at a concrete input: [deploy] waits while generic events stay
    blocked. *)
Lemma retry_keeps_blocked_entries_witness :
  blocked deploy_waiting = [1%nat]
  ∧ @retry_blocked sample_env status_eval 3 deploy_waiting = Ok deploy_waiting.
Proof.
  split; [reflexivity|].
  apply (@retry_keeps_blocked_entries sample_env status_eval 3%nat deploy_waiting).
  - change (blocked deploy_waiting) with [1%nat]. apply Forall_singleton.
    exists (event_copy_value deploy_event true).
    split; vm_compute; reflexivity.
  - vm_compute. lia.
Defined.

(** X13 at a concrete input: signals 10 and 2 captured while signal events
    are blocked. *)
Lemma blocked_signals_are_queued_witness :
  ∃ s', @drain_signals sample_env status_eval 5 signals_blocked = Ok s'
        ∧ blocked s' = [1%nat; 2%nat]
        ∧ heap s' !! 1%nat = Some (@signal_occurrence sample_env 10)
        ∧ heap s' !! 2%nat = Some (@signal_occurrence sample_env 2)
        ∧ events s' = [0%nat].
Proof.
  destruct (@blocked_signals_are_queued sample_env status_eval 5%nat signals_blocked)
    as (s' & Hrun & Hb & Hnew & _ & He & _).
  - by left.
  - split; [vm_compute; split; discriminate | vm_compute; reflexivity].
  - vm_compute. reflexivity.
  - vm_compute. reflexivity.
  - vm_compute. lia.
  - exists s'. split; [exact Hrun|]. split; [exact Hb|].
    split; [exact (Hnew 0%nat 10 eq_refl)|].
    split; [exact (Hnew 1%nat 2 eq_refl) | exact He].
Defined.

Lemma capture_ok_usr1_registered : capture_ok usr1_registered.
Proof.
  split; [by left|].
  split; (split; [vm_compute; split; discriminate | vm_compute; reflexivity]).
Qed.

(** X14 at a concrete input: two captures into slot 0. *)
Lemma capture_writes_active_slot_only_witness :
  capture_all [10; 2] usr1_registered
  = set_sig_slot 0 (sig_slot 0 (capture_all [10; 2] usr1_registered)) usr1_registered
  ∧ sig_slot 1 (capture_all [10; 2] usr1_registered) = sig_slot 1 usr1_registered
  ∧ capture_ok (capture_all [10; 2] usr1_registered).
Proof.
  destruct (capture_writes_active_slot_only [10; 2] usr1_registered
              capture_ok_usr1_registered) as (Hset & Hother & _ & Hok).
  split; [exact Hset|]. split; [exact Hother | exact Hok].
Defined.

(** X15 at a concrete input: a handler that raises a second occurrence. *)
Lemma event_fire_restores_depth_witness :
  @event_fire sample_env (@shell sample_env nested_functions 4) 4
    (Some (generic_event "go")) nested_registry = Ok nested_fired
  ∧ trace nested_fired = [Obs_eval "outer"; Obs_eval "inner"]
  ∧ is_event nested_fired = is_event nested_registry.
Proof.
  assert (@event_fire sample_env (@shell sample_env nested_functions 4) 4
            (Some (generic_event "go")) nested_registry = Ok nested_fired) as Hrun
    by (vm_compute; reflexivity).
  destruct (@event_fire_restores_depth sample_env
              (@shell sample_env nested_functions 4) 4%nat
              (Some (generic_event "go")) (generic_event "go")
              nested_registry nested_fired
              (@shell_keeps_depth sample_env nested_functions 4)) as (Hfire & _).
  split; [exact Hrun|]. split; [reflexivity | exact (Hfire Hrun)].
Defined.

(** ** Dispatch order *)

Lemma omap_lookup_ext (h h' : gmap nat event_t) (l : list ptr) :
  Forall (fun p : ptr => h' !! p = h !! p) l →
  omap (fun p : ptr => h' !! p) l = omap (fun p : ptr => h !! p) l.
Proof.
  induction 1 as [|p l Hp _ IH]; csimpl; [done|]. by rewrite Hp, IH.
Qed.

Lemma omap_lookup_length (h : gmap nat event_t) (l : list ptr) :
  Forall (fun p : ptr => is_Some (h !! p)) l →
  length (omap (fun p : ptr => h !! p) l) = length l.
Proof.
  induction 1 as [|p l [c Hp] _ IH]; csimpl; [done|]. rewrite Hp. csimpl. by rewrite IH.
Qed.

Section Dispatch_order.
Context `{Env} (eval : evaluator).
Hypothesis eval_quiet : registry_quiet eval.

Lemma invoke_registry (event c : event_t) :
  keeps (fun s => (heap s, killme s)) (invoke eval event c).
Proof.
  intros s s' Hrun. unfold invoke in Hrun. inv_bind Hrun. inv_ok Hrun.
  apply eval_quiet in Ha. simpl in Ha. rewrite <- Ha.
  unfold handler_exit, proc_set_last_status, proc_pop_interactive, pop_block; simpl.
  by destruct (interactive_stack a).
Qed.

Lemma invoke_all_registry (event : event_t) (cs : list event_t) :
  keeps (fun s => (heap s, killme s)) (invoke_all eval event cs).
Proof.
  induction cs as [|c cs IH]; intros s s' Hrun; simpl in Hrun.
  - by inv_ok Hrun.
  - inv_bind Hrun. apply IH in Hrun. apply invoke_registry in Ha. congruence.
Qed.

Lemma fire_one_invoke (event : event_t) (p : ptr) (c : event_t) (s : state) :
  killme s = [] →
  heap s !! p = Some c →
  fire_one eval event p s = invoke eval event c s.
Proof.
  intros Hk Hp. unfold fire_one, invoke, event_is_killed.
  rewrite Hk, bool_decide_false by apply not_elem_of_nil.
  unfold deref. by rewrite Hp.
Qed.

Lemma fire_loop_invoke (event : event_t) (fire : list ptr) (s : state) :
  killme s = [] →
  Forall (live s) fire →
  fire_loop eval event fire s
  = invoke_all eval event (omap (fun p : ptr => heap s !! p) fire) s.
Proof.
  revert s. induction fire as [|p fire IH]; intros s Hk Hl; simpl; [done|].
  apply Forall_cons in Hl as [[c Hc] Hl]. rewrite Hc. simpl.
  rewrite (fire_one_invoke event p c s Hk Hc).
  destruct (invoke eval event c s) as [s1| |] eqn:Hi; simpl; [|done|done].
  apply invoke_registry in Hi. injection Hi as Hh Hk1.
  rewrite <- Hh. apply IH; [congruence|].
  unfold live. by rewrite Hh.
Qed.

(** X16. When handler bodies leave the registry alone (they neither
    register, remove nor free an entry), a dispatch pass on a well-formed
    registry frees the kill list and then runs one handler for each live
    entry that matches the occurrence, each exactly once and in
    registration order; each run is entered with a new scope and a saved
    status and left with the status restored. *)
Theorem dispatch_runs_matching_in_order (ev : event_t) (s : state) :
  registry_ok s →
  let fire := List.filter (triggered ev s) (events s) in
  let cs := omap (fun p : ptr => heap s !! p) fire in
  fire `sublist_of` events s
  ∧ length cs = length fire
  ∧ Forall (fun c => event_match c ev = true) cs
  ∧ event_fire_internal eval ev s
    = (s1 <- event_free_kills s ;; invoke_all eval ev cs s1).
Proof.
  intros Hok fire cs.
  destruct (registry_ok_events s Hok) as (He & _ & _).
  assert (Forall (live s) fire) as Hfl by (by apply Forall_filter_keep).
  assert (Forall (fun p => triggered ev s p = true) fire) as Hft
    by apply Forall_filter_true.
  split.
  { subst fire. clear. induction (events s) as [|p l IH]; simpl; [done|].
    destruct (triggered ev s p); [by apply sublist_skip | by apply sublist_cons]. }
  split; [by apply omap_lookup_length|]. split.
  { subst cs. clear -Hfl Hft.
    induction fire as [|p l IH]; simpl; [done|].
    apply Forall_cons in Hfl as [[c Hc] Hfl]. apply Forall_cons in Hft as [Hp Hft].
    rewrite Hc. simpl. apply Forall_cons. split; [|by apply IH].
    unfold triggered in Hp. by rewrite Hc in Hp. }
  destruct (event_free_kills_spec s Hok)
    as (s1 & Hrun & Hk1 & Hev & _ & Hh & Hl & _).
  apply Forall_app in Hl as [Hl _]. rewrite Hev in Hl.
  assert (Forall (fun p : ptr => heap s1 !! p = heap s !! p) (events s)) as Hsame.
  { eapply Forall_impl; [exact Hl|]. simpl. intros p [c Hc].
    rewrite Hh in Hc |- *. by case_bool_decide. }
  assert (List.filter (triggered ev s1) (events s) = fire) as Hfire.
  { apply filter_ext_Forall. eapply Forall_impl; [exact Hsame|]. simpl.
    intros p Hp. unfold triggered. by rewrite Hp. }
  assert (omap (fun p : ptr => heap s1 !! p) fire = cs) as Hcs.
  { apply omap_lookup_ext. by apply Forall_filter_keep. }
  assert (Forall (live s1) fire) as Hfl1.
  { subst fire. by apply Forall_filter_keep. }
  unfold event_fire_internal. rewrite Hrun. simpl.
  assert (∀ s2, invoke_all eval ev cs s1 = Ok s2 → event_free_kills s2 = Ok s2)
    as Hlast.
  { intros s2 Hs2. apply invoke_all_registry in Hs2. injection Hs2 as _ Hk2.
    unfold event_free_kills. rewrite Hk2, Hk1. simpl. f_equal.
    rewrite <- Hk1, <- Hk2. by destruct s2. }
  destruct (events s1) as [|p l] eqn:He1.
  - assert (cs = []) as -> by (subst cs fire; by rewrite <- Hev).
    done.
  - rewrite Hev, fire_list_filter by done. simpl. rewrite Hfire.
    destruct fire as [|q fire'] eqn:Hf.
    + by assert (cs = []) as -> by (by subst cs).
    + rewrite <- Hf in *. rewrite (fire_loop_invoke ev fire s1 Hk1 Hfl1), Hcs.
      by apply bind_same.
Qed.

End Dispatch_order.

Lemma status_eval_registry_quiet : registry_quiet status_eval.
Proof. intros cmd s s' Hrun. by inv_ok Hrun. Qed.

(** X16 at a concrete input: two handlers of signal 10 and the occurrence
    of that signal. *)
Lemma dispatch_runs_matching_in_order_witness :
  ∃ s', @event_fire_internal sample_env status_eval (@signal_occurrence sample_env 10)
          two_signal_handlers = Ok s'
        ∧ trace s'
          = trace two_signal_handlers
            ++ [Obs_eval "f SIGUSR1"; Obs_eval "g SIGUSR1"].
Proof.
  destruct (@dispatch_runs_matching_in_order sample_env status_eval
              status_eval_registry_quiet (@signal_occurrence sample_env 10)
              two_signal_handlers registry_ok_two_signal_handlers)
    as (_ & _ & _ & Hrun).
  eexists. split.
  - etrans; [exact Hrun|]. vm_compute. reflexivity.
  - vm_compute. reflexivity.
Defined.

(** * The blocked queue and the signal drain under reentrant calls *)

(** ** The queue is only retried at depth one *)

Lemma queue_grows_refl (s : state) : queue_grows s s.
Proof. by split. Qed.

Lemma queue_grows_trans (s1 s2 s3 : state) :
  queue_grows s1 s2 → queue_grows s2 s3 → queue_grows s1 s3.
Proof.
  intros [Hd1 Hq1] [Hd2 Hq2]. split; [congruence | by etrans].
Qed.

Lemma queue_grows_same (s s' : state) :
  is_event s' = is_event s → blocked s' = blocked s → queue_grows s s'.
Proof. intros Hd Hq. split; [done | by rewrite Hq]. Qed.

Lemma free_each_blocked (l : list ptr) (s s' : state) :
  free_each l s = Ok s' → blocked s' = blocked s.
Proof.
  revert s. induction l as [|e l IH]; intros s Hrun; simpl in Hrun.
  - by inv_ok Hrun.
  - inv_bind Hrun. apply IH in Hrun. rewrite Hrun.
    unfold event_free in Ha. destruct (heap s !! e); [|done]. by inv_ok Ha.
Qed.

Lemma event_free_kills_blocked `{Env} (s s' : state) :
  event_free_kills s = Ok s' → blocked s' = blocked s.
Proof.
  unfold event_free_kills. intros Hrun. inv_bind Hrun. inv_ok Hrun.
  by apply free_each_blocked in Ha.
Qed.

Lemma event_free_kills_queue `{Env} (s s' : state) :
  event_free_kills s = Ok s' → queue_grows s s'.
Proof.
  intros Hrun. apply queue_grows_same.
  - by apply (keeps_event_free_kills is_event) in Hrun.
  - by apply event_free_kills_blocked in Hrun.
Qed.

Lemma event_fire_signal_blocked (sig : Z) (s : state) :
  blocked (event_fire_signal sig s) = blocked s.
Proof.
  unfold event_fire_signal, set_sig_slot.
  by destruct (_ <? _), (_ =? _).
Qed.

Lemma event_remove_loop_blocked `{Env} (c : event_t) (l new_list : list ptr)
    (s : state) r :
  event_remove_loop c l new_list s = Ok r → blocked (snd r) = blocked s.
Proof.
  revert new_list s. induction l as [|n l IH]; intros new_list s Hrun; simpl in Hrun.
  - by inv_ok Hrun.
  - inv_bind Hrun. destruct (event_match c a); [|by apply IH in Hrun].
    inv_bind Hrun. rewrite (IH _ _ Hrun). clear Hrun IH.
    case_bool_decide; [|by inv_ok Ha0].
    inv_bind Ha0. apply event_get_some_state in Ha1.
    destruct (fst (fst a1) =? 1); inv_ok Ha0; by rewrite Ha1.
Qed.

Lemma event_remove_blocked `{Env} (criterion : option event_t) (s s' : state) :
  event_remove criterion s = Ok s' → blocked s' = blocked s.
Proof.
  intros Hrun. unfold event_remove in Hrun.
  destruct criterion as [c|]; [|by inv_ok Hrun].
  destruct (events s) eqn:He; [by inv_ok Hrun|].
  inv_bind Hrun. inv_ok Hrun. by apply event_remove_loop_blocked in Ha.
Qed.

Section Queue.
Context `{Env} (eval : evaluator).
Hypothesis eval_queue : queue_kept eval.

Lemma fire_one_queue (event : event_t) (criterion : ptr) (s s' : state) :
  0 < is_event s →
  fire_one eval event criterion s = Ok s' → queue_grows s s'.
Proof.
  intros Hd Hrun. unfold fire_one in Hrun.
  destruct (event_is_killed criterion s); [inv_ok Hrun; apply queue_grows_refl|].
  inv_bind Hrun. inv_bind Hrun. inv_ok Hrun.
  apply eval_queue in Ha0 as [Hd0 Hq0]; [|done]. simpl in Hd0, Hq0.
  split; simpl.
  - rewrite <- Hd0.
    unfold proc_pop_interactive, pop_block; simpl.
    by destruct (interactive_stack a0).
  - unfold proc_pop_interactive, pop_block; simpl.
    by destruct (interactive_stack a0).
Qed.

Lemma fire_loop_queue (event : event_t) (fire : list ptr) (s s' : state) :
  0 < is_event s →
  fire_loop eval event fire s = Ok s' → queue_grows s s'.
Proof.
  revert s. induction fire as [|c fire IH]; intros s Hd Hrun; simpl in Hrun.
  - inv_ok Hrun. apply queue_grows_refl.
  - inv_bind Hrun. apply fire_one_queue in Ha; [|done].
    apply (queue_grows_trans _ _ _ Ha). apply IH; [|done].
    destruct Ha as [-> _]. done.
Qed.

Lemma event_fire_internal_queue (event : event_t) (s s' : state) :
  0 < is_event s →
  event_fire_internal eval event s = Ok s' → queue_grows s s'.
Proof.
  intros Hd Hrun. unfold event_fire_internal in Hrun.
  inv_bind Hrun. apply event_free_kills_queue in Ha.
  destruct (events a); [by inv_ok Hrun|].
  inv_bind Hrun. destruct a0; [by inv_ok Hrun|].
  inv_bind Hrun. apply event_free_kills_queue in Hrun.
  apply fire_loop_queue in Ha1; [|destruct Ha as [-> _]; done].
  eauto using queue_grows_trans.
Qed.

Lemma queue_or_fire_queue (event : event_t) (s s' : state) :
  0 < is_event s →
  queue_or_fire eval event s = Ok s' → queue_grows s s'.
Proof.
  intros Hd Hrun. unfold queue_or_fire in Hrun.
  destruct (event_is_blocked event s); [|by apply event_fire_internal_queue in Hrun].
  unfold event_copy, alloc in Hrun. inv_ok Hrun.
  split; simpl; [done | by apply prefix_app_r].
Qed.

Lemma drain_for_queue (fuel : nat) (lst : Z) (i : nat) (e : event_t) (s s' : state) :
  0 < is_event s →
  drain_for eval fuel lst i e s = Ok s' → queue_grows s s'.
Proof.
  revert i e s.
  induction fuel as [|fuel IH]; intros i e s Hd Hrun; simpl in Hrun;
    destruct (_ <? _); try done; try (inv_ok Hrun; apply queue_grows_refl).
  destruct (signal (sig_slot lst s) !! i); [|done].
  inv_bind Hrun. apply queue_or_fire_queue in Ha; [|done].
  apply (queue_grows_trans _ _ _ Ha). eapply IH; [|done].
  destruct Ha as [-> _]. done.
Qed.

Lemma drain_signals_queue (fuel : nat) (s s' : state) :
  0 < is_event s →
  drain_signals eval fuel s = Ok s' → queue_grows s s'.
Proof.
  revert s. induction fuel as [|fuel IH]; intros s Hd Hrun; simpl in Hrun;
    destruct (_ <? _); try done; try (inv_ok Hrun; apply queue_grows_refl).
  inv_bind Hrun.
  set (s3 := if negb _ then _ else _) in Ha.
  assert (queue_grows s s3) as H3.
  { subst s3. apply queue_grows_same;
      unfold set_sig_slot, debug; by destruct (negb _), (_ =? 0). }
  apply drain_for_queue in Ha; [|destruct H3 as [-> _]; done].
  apply IH in Hrun; [|destruct Ha as [-> _], H3 as [-> _]; done].
  eauto using queue_grows_trans.
Qed.

(** At any depth but one the delayed processing is the drain alone. *)
Lemma event_fire_delayed_deep (fuel : nat) (s : state) :
  is_event s ≠ 1 →
  retry_blocked eval fuel s = Ok s
  ∧ event_fire_delayed eval fuel s = drain_signals eval fuel s.
Proof.
  intros Hd.
  assert (retry_blocked eval fuel s = Ok s) as Hretry.
  { unfold retry_blocked. rewrite (proj2 (Z.eqb_neq _ _) Hd).
    by rewrite andb_false_r. }
  split; [done|]. unfold event_fire_delayed. by rewrite Hretry.
Qed.

Lemma event_fire_delayed_queue (fuel : nat) (s s' : state) :
  1 < is_event s →
  event_fire_delayed eval fuel s = Ok s' → queue_grows s s'.
Proof.
  intros Hd Hrun.
  destruct (event_fire_delayed_deep fuel s) as [_ Hdel]; [lia|].
  rewrite Hdel in Hrun. apply drain_signals_queue in Hrun; [done | lia].
Qed.

Lemma event_fire_queue (fuel : nat) (event : option event_t) (s s' : state) :
  0 < is_event s →
  event_fire eval fuel event s = Ok s' → queue_grows s s'.
Proof.
  intros Hd Hrun. unfold event_fire in Hrun.
  assert (∀ s2, event_fire_delayed eval fuel (with_is_event (is_event s + 1) s) = Ok s2 →
            is_event s2 = is_event s + 1 ∧ blocked s `prefix_of` blocked s2) as Hdel.
  { intros s2 H2. apply event_fire_delayed_queue in H2 as [? ?]; [done|simpl; lia]. }
  destruct event as [ev|].
  - case_bool_decide.
    { inv_ok Hrun. apply queue_grows_same;
        [apply event_fire_signal_depth | apply event_fire_signal_blocked]. }
    inv_bind Hrun. inv_bind Hrun. inv_ok Hrun.
    apply Hdel in Ha as [Hd2 Hq2].
    apply queue_or_fire_queue in Ha0 as [Hd3 Hq3]; [|lia].
    split; simpl; [lia | by etrans].
  - inv_bind Hrun. inv_ok Hrun. apply Hdel in Ha as [Hd2 Hq2].
    split; simpl; [lia | done].
Qed.

Lemma run_script_queue (fuel : nat) (body : list command) (s s' : state) :
  0 < is_event s →
  run_script eval fuel body s = Ok s' → queue_grows s s'.
Proof.
  revert s. induction body as [|c body IH]; intros s Hd Hrun; simpl in Hrun.
  - inv_ok Hrun. apply queue_grows_refl.
  - inv_bind Hrun.
    assert (queue_grows s a) as Hstep.
    { destruct c; simpl in Ha; try (inv_ok Ha; by apply queue_grows_same).
      - inv_ok Ha. apply queue_grows_same;
          [apply (keeps_event_add_handler is_event) |].
        unfold event_add_handler, CHECK_failed, debug, signal_handle, event_copy, alloc.
        destruct event as [ev|]; [|done]. simpl. by case_bool_decide.
      - apply queue_grows_same;
          [by apply (keeps_event_remove is_event) in Ha
          | by apply event_remove_blocked in Ha].
      - by apply event_fire_queue in Ha.
      - inv_ok Ha. apply queue_grows_same;
          [apply event_fire_signal_depth | apply event_fire_signal_blocked]. }
    apply (queue_grows_trans _ _ _ Hstep). apply IH; [|done].
    destruct Hstep as [-> _]. done.
Qed.

End Queue.

(** Every body the shell can run keeps the queue: at positive depth a
    nested call of [event_fire] is at depth two or more, where nothing
    is taken off the queue. *)
Lemma shell_queue_kept `{Env} (functions : wcstring -> list command) (fuel : nat) :
  queue_kept (shell functions fuel).
Proof.
  induction fuel as [|fuel IH]; intros cmd s s' Hd Hrun; simpl in Hrun; [done|].
  by apply (run_script_queue _ IH) in Hrun.
Qed.

(** C7 as stated fails: inside a handler body, at depth two, the delayed
    processing of a reentrant call of [event_fire] finds signal 10
    captured while signal events are blocked and appends its occurrence
    to the blocked queue, which held one variable occurrence that is no
    longer blocked.  The same happens in the run of [event_fire] that
    leads there. *)
Lemma reentrant_drain_grows_queue :
  is_event inside_outer = 1
  ∧ blocked inside_outer = [1%nat]
  ∧ heap inside_outer !! 1%nat = Some (event_copy_value (variable_event "v") true)
  ∧ event_is_blocked (variable_event "v") inside_outer = false
  ∧ @event_fire_delayed sample_env (@shell sample_env unblocking_functions 6) 6
      (with_is_event 2 inside_outer) = Ok inside_outer_delayed
  ∧ blocked inside_outer_delayed = [1%nat; 2%nat]
  ∧ heap inside_outer_delayed !! 2%nat = Some (@signal_occurrence sample_env 10)
  ∧ trace inside_outer_delayed = trace inside_outer
  ∧ @event_fire sample_env (@shell sample_env unblocking_functions 6) 6
      (Some (generic_event "go")) variable_queued = Ok outer_fired
  ∧ blocked variable_queued = [1%nat]
  ∧ blocked outer_fired = [1%nat; 2%nat]
  ∧ trace outer_fired = trace variable_queued ++ [Obs_eval "outer"].
Proof.
  split_and!; vm_compute; reflexivity.
Qed.

(** C7, amended. The blocked queue is retried only when the nesting
    counter is one: then, and only when the queue is not empty, the retry
    loop runs.  At any other depth the retry is skipped whatever the queue
    holds, so the delayed processing is the drain of the captured signals
    alone, and with no captured signal pending it changes nothing.  In a
    reentrant call, made at depth one or more, nothing is taken off the
    queue by the delayed processing, nor by the call of [event_fire] as a
    whole: what was queued is still queued, in the same order, and the
    drain can only append to it.  This holds for every evaluator that
    keeps the queue, and so for the shell, whatever its handler bodies
    register, remove, raise, block or capture. *)
Theorem retry_only_at_depth_one `{Env} (eval : evaluator) (fuel : nat)
    (event : option event_t) (s : state) :
  (is_event s = 1 → blocked s ≠ [] →
   retry_blocked eval fuel s
   = (r <- retry_loop eval fuel 0 [] s ;; Ok (with_blocked (fst r) (snd r))))
  ∧ (is_event s ≠ 1 →
     retry_blocked eval fuel s = Ok s
     ∧ event_fire_delayed eval fuel s = drain_signals eval fuel s
     ∧ (count (sig_slot (active_list s) s) ≤ 0 →
        event_fire_delayed eval fuel s = Ok s))
  ∧ (1 < is_event s → queue_kept eval →
     ∀ s', event_fire_delayed eval fuel s = Ok s' →
       is_event s' = is_event s ∧ blocked s `prefix_of` blocked s')
  ∧ (1 ≤ is_event s → queue_kept eval →
     ∀ s', event_fire eval fuel event s = Ok s' →
       is_event s' = is_event s ∧ blocked s `prefix_of` blocked s')
  ∧ (1 ≤ is_event s →
     ∀ functions n s', event_fire (shell functions n) fuel event s = Ok s' →
       is_event s' = is_event s ∧ blocked s `prefix_of` blocked s').
Proof.
  split_and!.
  - intros Hd Hq. unfold retry_blocked.
    by rewrite Hd, bool_decide_false by done.
  - intros Hd. destruct (event_fire_delayed_deep eval fuel s Hd) as [Hretry Hdel].
    split; [done|]. split; [done|].
    intros Hnone. rewrite Hdel.
    destruct fuel; simpl; by rewrite (proj2 (Z.ltb_ge _ _)) by exact Hnone.
  - intros Hd Hq s' Hrun. by apply (event_fire_delayed_queue eval Hq) in Hrun.
  - intros Hd Hq s' Hrun. apply (event_fire_queue eval Hq) in Hrun; [done | lia].
  - intros Hd functions n s' Hrun.
    apply (event_fire_queue _ (shell_queue_kept functions n)) in Hrun; [done | lia].
Qed.

(** C7, amended, at a concrete input: the reentrant call made by the body
    of [outer], seen at depth two and from the call itself, and the retry
    at depth one. *)
Lemma retry_only_at_depth_one_witness :
  @retry_blocked sample_env (@shell sample_env unblocking_functions 6) 6
    (with_is_event 2 inside_outer) = Ok (with_is_event 2 inside_outer)
  ∧ blocked inside_outer `prefix_of` blocked inside_outer_delayed
  ∧ is_event inside_outer_delayed = 2
  ∧ @event_fire sample_env (@shell sample_env unblocking_functions 6) 6
      (Some (variable_event "x")) inside_outer = Ok inside_outer_fired
  ∧ is_event inside_outer_fired = 1
  ∧ blocked inside_outer `prefix_of` blocked inside_outer_fired
  ∧ @retry_blocked sample_env status_eval 3 reentrant_state
    = (r <- @retry_loop sample_env status_eval 3 0 [] reentrant_state ;;
       Ok (with_blocked (fst r) (snd r))).
Proof.
  pose proof (@shell_queue_kept sample_env unblocking_functions 6) as Hkept.
  destruct (@retry_only_at_depth_one sample_env
              (@shell sample_env unblocking_functions 6) 6%nat None
              (with_is_event 2 inside_outer)) as (_ & Hdeep & Hstep & _ & _).
  destruct Hdeep as (Hretry & _ & _); [discriminate|].
  assert (@event_fire_delayed sample_env (@shell sample_env unblocking_functions 6) 6
            (with_is_event 2 inside_outer) = Ok inside_outer_delayed) as Hrun
    by (vm_compute; reflexivity).
  destruct (Hstep ltac:(reflexivity) Hkept inside_outer_delayed Hrun) as [Hd Hq].
  destruct (@retry_only_at_depth_one sample_env
              (@shell sample_env unblocking_functions 6) 6%nat
              (Some (variable_event "x")) inside_outer) as (_ & _ & _ & _ & Hcall).
  assert (@event_fire sample_env (@shell sample_env unblocking_functions 6) 6
            (Some (variable_event "x")) inside_outer = Ok inside_outer_fired) as Hfire
    by (vm_compute; reflexivity).
  destruct (Hcall ltac:(discriminate) unblocking_functions 6%nat
              inside_outer_fired Hfire) as [Hd1 Hq1].
  destruct (@retry_only_at_depth_one sample_env status_eval 3%nat None
              reentrant_state) as (Hone & _).
  split; [exact Hretry|]. split; [exact Hq|]. split; [exact Hd|].
  split; [exact Hfire|]. split; [exact Hd1|]. split; [exact Hq1|].
  apply Hone; [reflexivity | discriminate].
Defined.

(** ** One dispatch pass, turn by turn *)

Lemma event_free_kills_idle `{Env} (s : state) :
  killme s = [] → event_free_kills s = Ok s.
Proof.
  intros Hk. unfold event_free_kills. rewrite Hk. simpl.
  by rewrite with_killme_same.
Qed.

Section Turns.
Context `{Env} (eval : evaluator).

(** On a well-formed registry a pass frees the kill list, gives one turn
    to each entry of [events] that matches the occurrence, in
    registration order, and frees what the handlers have removed. *)
Lemma event_fire_internal_turns (ev : event_t) (s : state) :
  registry_ok s →
  event_fire_internal eval ev s
  = (s1 <- event_free_kills s ;;
     s2 <- fire_loop eval ev (List.filter (triggered ev s) (events s)) s1 ;;
     event_free_kills s2).
Proof.
  intros Hok.
  destruct (registry_ok_events s Hok) as (He & _ & _).
  destruct (event_free_kills_spec s Hok)
    as (s1 & Hrun & Hk1 & Hev & _ & Hh & Hl & _).
  apply Forall_app in Hl as [Hl _].
  assert (List.filter (triggered ev s1) (events s1)
          = List.filter (triggered ev s) (events s)) as Hfire.
  { rewrite Hev. apply filter_ext_Forall.
    rewrite Hev in Hl. eapply Forall_impl; [exact Hl|]. simpl.
    intros p [c Hc]. unfold triggered. rewrite Hh in Hc |- *.
    by case_bool_decide. }
  pose proof (fire_list_filter ev (events s1) [] s1 Hl) as Hlist.
  rewrite app_nil_l in Hlist.
  unfold event_fire_internal. rewrite Hrun. cbn [bind].
  rewrite <- Hfire.
  destruct (events s1) as [|p l].
  - simpl. by rewrite event_free_kills_idle.
  - rewrite Hlist. cbn [bind].
    destruct (List.filter (triggered ev s1) (p :: l)); [|done].
    simpl. by rewrite event_free_kills_idle.
Qed.

(** The turn of an entry that is on the kill list is skipped; the turn of
    any other entry is one run of its handler. *)
Lemma fire_one_killed (ev : event_t) (p : ptr) (s : state) :
  p ∈ killme s → fire_one eval ev p s = Ok s.
Proof.
  intros Hp. unfold fire_one, event_is_killed. by rewrite bool_decide_true.
Qed.

Lemma fire_one_run (ev : event_t) (p : ptr) (c : event_t) (s : state) :
  p ∉ killme s →
  heap s !! p = Some c →
  fire_one eval ev p s
  = (s3 <- eval (command_line c ev) (handler_entry ev (command_line c ev) s) ;;
     Ok (handler_exit (last_status s) s3)).
Proof.
  intros Hk Hp. unfold fire_one, event_is_killed.
  rewrite bool_decide_false by done.
  unfold deref. by rewrite Hp.
Qed.

End Turns.

(** ** What the drain sends for a captured signal *)

Lemma drain_shape_start : drain_shape (set_arguments (Some [""]) (signal_event 0)).
Proof. by split_and!. Qed.

Lemma drain_shape_occurrence `{Env} (sig : Z) : drain_shape (signal_occurrence sig).
Proof. by split_and!. Qed.

Lemma captured_lookup (l : signal_list_t) (i : nat) (sig : Z) :
  captured l !! i = Some sig →
  Z.of_nat i < count l ∧ signal l !! i = Some sig.
Proof.
  unfold captured. intros Hi. apply lookup_take_Some in Hi as [Hi Hlt].
  split; [lia | done].
Qed.

(** What the switch of the two lists leaves behind: the list that was
    active is as it was and is no longer the active one, and the other
    list starts empty. *)
Lemma switch_lists_slots (s : state) :
  active_list s = 0 ∨ active_list s = 1 →
  sig_slot (active_list s) (switch_lists s) = sig_slot (active_list s) s
  ∧ active_list (switch_lists s) = 1 - active_list s
  ∧ count (sig_slot (1 - active_list s) (switch_lists s)) = 0.
Proof.
  intros Hact. unfold switch_lists, debug.
  destruct Hact as [Ha | Ha]; rewrite Ha; by case_bool_decide.
Qed.

(** One round of the outer loop of the drain, for every evaluator: the
    lists are switched, the inner loop goes through the list that was
    active, starting with a local event of one empty argument, and the
    outer loop tests the newly active list again. *)
Lemma drain_signals_round `{Env} (eval : evaluator) (fuel : nat) (s : state) :
  active_list s = 0 ∨ active_list s = 1 →
  0 < count (sig_slot (active_list s) s) →
  drain_signals eval (S fuel) s
  = (s' <- drain_for eval fuel (active_list s) 0
             (set_arguments (Some [""]) (signal_event 0)) (switch_lists s) ;;
     drain_signals eval fuel s').
Proof.
  intros Hact Hpos. simpl. rewrite (proj2 (Z.ltb_lt _ _)) by done.
  set (s3 := if negb _ then _ else _).
  assert (s3 = switch_lists s) as ->.
  { subst s3. unfold switch_lists. rewrite active_list_set_sig_slot.
    replace (1 - (1 - active_list s)) with (active_list s) by lia.
    assert (sig_slot (active_list s)
              (with_active_list (1 - active_list s)
                 (set_sig_slot (1 - active_list s)
                    {| count := 0; overflow := 0;
                       signal := signal (sig_slot (1 - active_list s) s) |} s))
            = sig_slot (active_list s) s) as ->.
    { destruct Hact as [-> | ->]; done. }
    rewrite Z_eqb_decide. by case_bool_decide. }
  rewrite active_list_set_sig_slot.
  by replace (1 - (1 - active_list s)) with (active_list s) by lia.
Qed.

(** One iteration of the inner loop of the drain, whatever the local
    event held before: the cell is sent as the occurrence of its number. *)
Lemma drain_for_step `{Env} (eval : evaluator) (fuel : nat) (lst : Z) (i : nat)
    (e : event_t) (sig : Z) (s : state) :
  drain_shape e →
  captured (sig_slot lst s) !! i = Some sig →
  drain_for eval (S fuel) lst i e s
  = (s' <- queue_or_fire eval (signal_occurrence sig) s ;;
     drain_for eval fuel lst (S i) (signal_occurrence sig) s').
Proof.
  intros He Hi. apply captured_lookup in Hi as [Hlt Hsig]. simpl.
  rewrite (proj2 (Z.ltb_lt _ _)) by done.
  by rewrite Hsig, (drain_event_shape _ _ He).
Qed.

(** C10. A signal occurrence passed to [event_fire] is recorded by its
    number alone: whatever arguments and handler name it carries, the
    call is the capture of the number, which replaces the active signal
    list, a record of integers, and nothing else; with room in the list
    the number is the last one captured.  For every evaluator, a round
    of the drain switches the lists and goes through the list that was
    active, and each iteration that reads this number sends the occurrence
    with that number, an empty handler name and the symbolic name of the
    signal as its only argument.  If signal events are blocked that
    occurrence is what is queued.  Otherwise every live matching entry
    gets its turn, and a handler that is run receives its function name
    followed by the escaped symbolic name, in a scope tagged with the
    occurrence.  For an evaluator quiet about signals the drain that
    follows the capture sends exactly the signals captured before and
    then this occurrence. *)
Theorem signal_fire_keeps_number_only `{Env} (eval : evaluator) (fuel : nat)
    (sig : Z) (s : state) :
  let a := active_list s in
  let s1 := event_fire_signal sig s in
  let occurrence := signal_occurrence sig in
  (∀ ev, type ev = EVENT_SIGNAL → param1 ev = sig →
     event_fire eval fuel (Some ev) s = Ok s1)
  ∧ s1 = set_sig_slot a (sig_slot a s1) s
  ∧ (slot_ok (sig_slot a s) → count (sig_slot a s) < SIG_UNHANDLED_MAX →
     captured (sig_slot a s1) = captured (sig_slot a s) ++ [sig])
  ∧ (∀ fuel' s0,
       active_list s0 = 0 ∨ active_list s0 = 1 →
       0 < count (sig_slot (active_list s0) s0) →
       drain_signals eval (S fuel') s0
       = (s' <- drain_for eval fuel' (active_list s0) 0
                  (set_arguments (Some [""]) (signal_event 0)) (switch_lists s0) ;;
          drain_signals eval fuel' s')
       ∧ sig_slot (active_list s0) (switch_lists s0) = sig_slot (active_list s0) s0)
  ∧ drain_shape (set_arguments (Some [""]) (signal_event 0))
  ∧ drain_shape occurrence
  ∧ (∀ fuel' lst i e s0,
       drain_shape e →
       captured (sig_slot lst s0) !! i = Some sig →
       drain_for eval (S fuel') lst i e s0
       = (s' <- queue_or_fire eval occurrence s0 ;;
          drain_for eval fuel' lst (S i) occurrence s'))
  ∧ (type occurrence = EVENT_SIGNAL ∧ param1 occurrence = sig
     ∧ function_name occurrence = ""
     ∧ arguments occurrence = Some [sig2wcs sig])
  ∧ (∀ s0, event_is_blocked occurrence s0 = true →
       queue_or_fire eval occurrence s0 = Ok (push_copy occurrence s0)
       ∧ blocked (push_copy occurrence s0) = blocked s0 ++ [next_ptr s0]
       ∧ heap (push_copy occurrence s0) !! next_ptr s0 = Some occurrence)
  ∧ (∀ s0, event_is_blocked occurrence s0 = false → registry_ok s0 →
       queue_or_fire eval occurrence s0
       = (s' <- event_free_kills s0 ;;
          s'' <- fire_loop eval occurrence
                   (List.filter (triggered occurrence s0) (events s0)) s' ;;
          event_free_kills s''))
  ∧ (∀ s0 (p : ptr) c, p ∉ killme s0 → heap s0 !! p = Some c →
       let cmd := function_name c +:+ " " +:+ escape_string (sig2wcs sig) 1 in
       fire_one eval occurrence p s0
       = (s' <- eval cmd (handler_entry occurrence cmd s0) ;;
          Ok (handler_exit (last_status s0) s'))
       ∧ state1 <$> head (current_block (handler_entry occurrence cmd s0))
         = Some (Some occurrence))
  ∧ (capture_quiet eval → a = 0 ∨ a = 1 →
     slot_ok (sig_slot a s) → count (sig_slot a s) < SIG_UNHANDLED_MAX →
     (Z.to_nat (count (sig_slot a s)) + 1 < fuel)%nat →
     drain_signals eval fuel s1
     = send_all eval
         (map signal_occurrence (captured (sig_slot a s)) ++ [occurrence])
         (switch_lists s1)).
Proof.
  intros a s1 occurrence.
  split.
  { intros ev Hty Hnum. unfold event_fire. rewrite bool_decide_true by done.
    by rewrite Hnum. }
  split; [apply event_fire_signal_as_set|].
  split.
  { intros Hok Hroom.
    destruct (event_fire_signal_slot sig s Hok) as (_ & Hlt & _).
    by destruct (Hlt Hroom) as (Hcap & _). }
  split.
  { intros fuel' s0 Hact Hpos. split; [by apply drain_signals_round|].
    by destruct (switch_lists_slots s0 Hact). }
  split; [apply drain_shape_start|].
  split; [apply drain_shape_occurrence|].
  split; [intros fuel' lst i e s0 He Hi; by apply drain_for_step|].
  split; [done|].
  split.
  { intros s0 Hb. split; [by apply queue_or_fire_blocked|].
    split; [done|]. simpl. apply lookup_insert_eq. }
  split.
  { intros s0 Hb Hok. unfold queue_or_fire. rewrite Hb.
    by apply event_fire_internal_turns. }
  split.
  { intros s0 p c Hk Hp cmd. split; [|done].
    by rewrite (fire_one_run eval occurrence p c s0 Hk Hp). }
  intros Hquiet Hact Hok Hroom Hfuel.
  destruct (event_fire_signal_slot sig s Hok) as (Hok1 & Hlt & _).
  destruct (Hlt Hroom) as (Hcap & Hcnt & _).
  pose proof (active_list_event_fire_signal sig s) as Hact1.
  fold a s1 in Hok1, Hcap, Hcnt, Hact1.
  pose proof (drain_signals_sends eval Hquiet fuel s1) as Hdrain.
  simpl in Hdrain. rewrite Hact1 in Hdrain.
  destruct Hok as [Hc _].
  rewrite Hdrain; [|done|done|lia].
  rewrite Hcap, map_app. simpl.
  by rewrite (proj2 (Z.ltb_lt _ _)) by lia.
Qed.

Lemma slot_ok_signal_handlers :
  slot_ok (sig_slot (active_list signal_handlers) signal_handlers).
Proof. split; [vm_compute; split; discriminate | vm_compute; reflexivity]. Qed.

(** C10 at a concrete input: a signal occurrence carrying an argument and
    a handler name is raised, then drained while the handler bodies
    reenter [event_fire]; and the same occurrence while signal events are
    blocked. *)
Lemma signal_fire_keeps_number_only_witness :
  @event_fire sample_env (@shell sample_env (interrupted_functions true) 6) 6
    (Some (set_arguments (Some ["dropped"]) (handler (signal_event 10) "dropped")))
    signal_handlers
  = Ok usr1_captured
  ∧ captured (sig_slot 0 usr1_captured) = [10]
  ∧ @drain_signals sample_env (@shell sample_env (interrupted_functions true) 6) 6
      (with_is_event 1 usr1_captured)
    = (s' <- @drain_for sample_env (@shell sample_env (interrupted_functions true) 6)
               5 0 0 (set_arguments (Some [""]) (signal_event 0)) usr1_draining ;;
       @drain_signals sample_env (@shell sample_env (interrupted_functions true) 6)
         5 s')
  ∧ @drain_for sample_env (@shell sample_env (interrupted_functions true) 6) 5 0 0
      (set_arguments (Some [""]) (signal_event 0)) usr1_draining
    = (s' <- @queue_or_fire sample_env (@shell sample_env (interrupted_functions true) 6)
               (@signal_occurrence sample_env 10) usr1_draining ;;
       @drain_for sample_env (@shell sample_env (interrupted_functions true) 6) 4 0 1
         (@signal_occurrence sample_env 10) s')
  ∧ @fire_one sample_env (@shell sample_env (interrupted_functions true) 6)
      (@signal_occurrence sample_env 10) 0%nat usr1_draining
    = (s' <- @shell sample_env (interrupted_functions true) 6 "on_usr1 SIGUSR1"
               (handler_entry (@signal_occurrence sample_env 10)
                  "on_usr1 SIGUSR1" usr1_draining) ;;
       Ok (handler_exit 0 s'))
  ∧ @queue_or_fire sample_env status_eval (@signal_occurrence sample_env 10)
      signals_blocked
    = Ok (push_copy (@signal_occurrence sample_env 10) signals_blocked)
  ∧ @drain_signals sample_env status_eval 6 usr1_captured
    = @send_all sample_env status_eval [@signal_occurrence sample_env 10]
        (switch_lists usr1_captured)
  ∧ @event_fire sample_env (@shell sample_env (interrupted_functions true) 6) 6
      None usr1_captured = Ok usr1_delivered
  ∧ trace usr1_delivered
    = trace usr1_captured ++ [Obs_eval "on_usr1 SIGUSR1"; Obs_eval "on_int SIGINT"].
Proof.
  destruct (@signal_fire_keeps_number_only sample_env
              (@shell sample_env (interrupted_functions true) 6) 6%nat 10
              signal_handlers)
    as (Hfire & _ & Hcap & Hround & Hstart & _ & Hstep & _ & _ & _ & Hrun & _).
  destruct (@signal_fire_keeps_number_only sample_env status_eval 6%nat 10
              signal_handlers)
    as (_ & _ & _ & _ & _ & _ & _ & _ & Hqueue & _ & _ & Hdrain).
  assert (captured (sig_slot 0 usr1_draining) !! 0%nat = Some 10) as Hcell
    by (vm_compute; reflexivity).
  assert (0%nat ∉ killme usr1_draining) as Hlive
    by (vm_compute; apply not_elem_of_nil).
  assert (heap usr1_draining !! 0%nat
          = Some (event_copy_value (handler (signal_event 10) "on_usr1") false))
    as Hcell0 by (vm_compute; reflexivity).
  assert (@event_is_blocked (@signal_occurrence sample_env 10) signals_blocked = true)
    as Hblocked by (vm_compute; reflexivity).
  split; [apply Hfire; reflexivity|].
  split.
  { etrans; [apply (Hcap slot_ok_signal_handlers); vm_compute; reflexivity|].
    vm_compute. reflexivity. }
  split.
  { apply (Hround 5%nat (with_is_event 1 usr1_captured)); [by left|].
    vm_compute. reflexivity. }
  split; [exact (Hstep 4%nat 0 0%nat _ usr1_draining Hstart Hcell)|].
  split; [exact (proj1 (Hrun usr1_draining 0%nat _ Hlive Hcell0))|].
  split; [exact (proj1 (Hqueue signals_blocked Hblocked))|].
  split.
  { assert (count (sig_slot (active_list signal_handlers) signal_handlers)
            < SIG_UNHANDLED_MAX) as Hroom by (vm_compute; reflexivity).
    assert ((Z.to_nat (count (sig_slot (active_list signal_handlers) signal_handlers))
             + 1 < 6)%nat) as Hfuel by (vm_compute; lia).
    etrans;
      [exact (Hdrain status_eval_quiet (or_introl eq_refl) slot_ok_signal_handlers
                Hroom Hfuel)|].
    replace (captured (sig_slot (active_list signal_handlers) signal_handlers))
      with (@nil Z) by (vm_compute; reflexivity).
    reflexivity. }
  split; vm_compute; reflexivity.
Defined.

(** ** The retry of the blocked queue *)

Lemma free_each_cells (l : list ptr) (s s' : state) :
  free_each l s = Ok s' →
  (∃ h, s' = with_heap h s) ∧ ∀ q : ptr, q ∉ l → heap s' !! q = heap s !! q.
Proof.
  revert s. induction l as [|e l IH]; intros s Hrun; simpl in Hrun.
  - inv_ok Hrun. split; [exists (heap s'); by destruct s' | done].
  - inv_bind Hrun. unfold event_free in Ha.
    destruct (heap s !! e); [|done]. inv_ok Ha.
    apply IH in Hrun as [[h ->] Hq]. split; [by exists h|].
    intros q Hin. apply not_elem_of_cons in Hin as [Hne Hin].
    rewrite Hq by done. simpl. by apply lookup_delete_ne.
Qed.

Lemma event_is_blocked_blocks (e : event_t) (s t : state) :
  current_block s = current_block t →
  global_event_blocks s = global_event_blocks t →
  event_is_blocked e s = event_is_blocked e t.
Proof. unfold event_is_blocked. by intros -> ->. Qed.

Section Retry_pass.
Context `{Env} (eval : evaluator).

(** The three cases of the retry loop, at any index and for every
    evaluator: the end of the queue, an entry that is still blocked, an
    entry that no longer is. *)
Lemma retry_loop_end (fuel i : nat) (new_blocked : list ptr) (s : state) :
  blocked s !! i = None →
  retry_loop eval fuel i new_blocked s = Ok (new_blocked, s).
Proof. intros Hi. destruct fuel; simpl; by rewrite Hi. Qed.

Lemma retry_loop_wait (fuel i : nat) (new_blocked : list ptr) (p : ptr)
    (e : event_t) (s : state) :
  blocked s !! i = Some p →
  heap s !! p = Some e →
  event_is_blocked e s = true →
  retry_loop eval (S fuel) i new_blocked s
  = retry_loop eval fuel (S i) (new_blocked ++ [p]) s.
Proof.
  intros Hi Hp Hb. simpl. rewrite Hi. unfold deref. rewrite Hp. simpl.
  by rewrite Hb.
Qed.

Lemma retry_loop_go (fuel i : nat) (new_blocked : list ptr) (p : ptr)
    (e : event_t) (s : state) :
  blocked s !! i = Some p →
  heap s !! p = Some e →
  event_is_blocked e s = false →
  retry_loop eval (S fuel) i new_blocked s
  = (s' <- release eval p s ;; retry_loop eval fuel (S i) new_blocked s').
Proof.
  intros Hi Hp Hb. simpl. rewrite Hi. unfold release, deref. rewrite Hp. simpl.
  rewrite Hb. by rewrite bind_assoc.
Qed.

Hypothesis eval_quiet : retry_quiet eval.

Let queue (s : state) :=
  (heap s, killme s, blocked s, current_block s, global_event_blocks s).

Lemma fire_one_retry_quiet (event : event_t) (criterion : ptr) :
  keeps queue (fire_one eval event criterion).
Proof.
  intros s s' Hrun. unfold fire_one in Hrun.
  destruct (event_is_killed criterion s); [by inv_ok Hrun|].
  inv_bind Hrun. inv_bind Hrun. inv_ok Hrun.
  apply eval_quiet in Ha0. simpl in Ha0.
  injection Ha0 as Hh Hk Hq Hc Hg.
  unfold queue, proc_set_last_status, proc_pop_interactive, pop_block; simpl.
  destruct (interactive_stack a0); simpl; by rewrite Hh, Hk, Hq, Hc, Hg.
Qed.

Lemma fire_loop_retry_quiet (event : event_t) (fire : list ptr) :
  keeps queue (fire_loop eval event fire).
Proof.
  induction fire as [|c fire IH]; intros s s' Hrun; simpl in Hrun.
  - by inv_ok Hrun.
  - inv_bind Hrun. rewrite (IH _ _ Hrun). by apply (fire_one_retry_quiet event c).
Qed.

(** A pass run by such an evaluator frees the kill list and leaves every
    other cell, the queue and the blocks as they are. *)
Lemma event_fire_internal_retry_quiet (event : event_t) (s s' : state) :
  event_fire_internal eval event s = Ok s' →
  killme s' = [] ∧ blocked s' = blocked s
  ∧ current_block s' = current_block s
  ∧ global_event_blocks s' = global_event_blocks s
  ∧ ∀ q : ptr, q ∉ killme s → heap s' !! q = heap s !! q.
Proof.
  intros Hrun. unfold event_fire_internal in Hrun. inv_bind Hrun.
  assert (killme a = [] ∧ blocked a = blocked s
          ∧ current_block a = current_block s
          ∧ global_event_blocks a = global_event_blocks s
          ∧ ∀ q : ptr, q ∉ killme s → heap a !! q = heap s !! q) as Hfirst.
  { unfold event_free_kills in Ha. inv_bind Ha. inv_ok Ha.
    apply free_each_cells in Ha0 as [[h ->] Hq]. by split_and!. }
  destruct (events a); [by inv_ok Hrun|].
  inv_bind Hrun. destruct a0; [by inv_ok Hrun|].
  inv_bind Hrun. apply fire_loop_retry_quiet in Ha1.
  injection Ha1 as Hh Hk Hq Hc Hg.
  destruct Hfirst as (Hk0 & Hq0 & Hc0 & Hg0 & Hh0).
  rewrite event_free_kills_idle in Hrun by congruence. inv_ok Hrun.
  split_and!; try congruence.
  intros q Hin. rewrite Hh. by apply Hh0.
Qed.

(** Run on a queue whose entries are distinct, live and off the kill
    list, the loop releases the entries that are no longer blocked, in
    queue order, and carries the others over. *)
Lemma retry_loop_pass (t : state) (rest done new_blocked : list ptr)
    (fuel : nat) (s : state) :
  blocked s = done ++ rest →
  (length rest ≤ fuel)%nat →
  NoDup rest →
  Forall (live t) rest →
  (∀ q : ptr, q ∈ rest → heap s !! q = heap t !! q ∧ q ∉ killme s) →
  current_block s = current_block t →
  global_event_blocks s = global_event_blocks t →
  retry_loop eval fuel (length done) new_blocked s
  = (s' <- release_all eval (List.filter (fun p => negb (waiting t p)) rest) s ;;
     Ok (new_blocked ++ List.filter (waiting t) rest, s')).
Proof.
  revert done new_blocked fuel s.
  induction rest as [|p rest IH]; intros done nb fuel s Hq Hfuel Hd Hl Hcells Hc Hg.
  - simpl. rewrite app_nil_r in *. apply retry_loop_end.
    rewrite Hq. by apply lookup_ge_None_2.
  - destruct fuel as [|fuel]; [simpl in Hfuel; lia|]. simpl in Hfuel.
    apply NoDup_cons in Hd as [Hnp Hd]. apply Forall_cons in Hl as [[e He] Hl].
    destruct (Hcells p) as [Hp Hpk]; [apply list_elem_of_here|].
    rewrite He in Hp.
    assert (blocked s !! length done = Some p) as Hi
      by (by rewrite Hq, list_lookup_middle).
    assert (blocked s = (done ++ [p]) ++ rest) as Hq'
      by (by rewrite <- app_assoc).
    assert (length (done ++ [p]) = S (length done)) as Hlen
      by (rewrite length_app; simpl; lia).
    assert (waiting t p = event_is_blocked e s) as Hw.
    { unfold waiting. rewrite He. symmetry. by apply event_is_blocked_blocks. }
    cbn [List.filter]. rewrite Hw.
    destruct (event_is_blocked e s) eqn:Hb; cbn [negb].
    + rewrite (retry_loop_wait fuel _ nb p e s Hi Hp Hb), <- Hlen.
      rewrite (IH (done ++ [p]) (nb ++ [p]) fuel s); try done; [|lia|].
      * by rewrite <- app_assoc.
      * intros q Hin. apply Hcells. by apply list_elem_of_further.
    + rewrite (retry_loop_go fuel _ nb p e s Hi Hp Hb).
      cbn [release_all]. rewrite bind_assoc.
      destruct (release eval p s) as [s2| |] eqn:Hrel; cbn [bind]; [|done|done].
      unfold release, deref in Hrel. rewrite Hp in Hrel. cbn [bind] in Hrel.
      inv_bind Hrel.
      apply event_fire_internal_retry_quiet in Ha
        as (Hk1 & Hq1 & Hc1 & Hg1 & Hh1).
      unfold event_free in Hrel. destruct (heap a !! p); [|done].
      inv_ok Hrel. rewrite <- Hlen.
      apply IH; simpl; try done; try congruence; [lia|].
      intros q Hin. rewrite Hk1. split; [|apply not_elem_of_nil].
      destruct (Hcells q) as [Hqc Hqk]; [by apply list_elem_of_further|].
      rewrite lookup_delete_ne by (by intros ->).
      by rewrite Hh1.
Qed.

Lemma retry_blocked_pass (fuel : nat) (t : state) :
  registry_ok t →
  is_event t = 1 →
  (length (blocked t) ≤ fuel)%nat →
  retry_blocked eval fuel t
  = (t' <- release_all eval
             (List.filter (fun p => negb (waiting t p)) (blocked t)) t ;;
     Ok (with_blocked (List.filter (waiting t) (blocked t)) t')).
Proof.
  intros Hok Hd Hfuel. pose proof Hok as (_ & _ & Hnd).
  destruct (registry_ok_events t Hok) as (_ & _ & Hl).
  apply NoDup_app in Hnd as (_ & _ & Hnd).
  apply NoDup_app in Hnd as (_ & Hdisj & Hnb).
  unfold retry_blocked. rewrite Hd. case_bool_decide as He; simpl.
  - rewrite He. simpl. by rewrite <- He, with_blocked_same.
  - pose proof (retry_loop_pass t (blocked t) [] [] fuel t) as Hpass.
    simpl in Hpass. rewrite Hpass; try done.
    + by rewrite bind_assoc.
    + intros q Hin. split; [done|]. intros Hk. by apply (Hdisj q).
Qed.

End Retry_pass.

Lemma push_copy_back (e : event_t) (s : state) :
  with_is_event (is_event s + 1 - 1) (push_copy e (with_is_event (is_event s + 1) s))
  = push_copy e s.
Proof.
  destruct s.
  unfold push_copy, with_is_event, with_blocked, with_next_ptr, with_heap; simpl.
  f_equal. lia.
Qed.


Lemma status_eval_retry_quiet : retry_quiet status_eval.
Proof. intros cmd s s' Hrun. by inv_ok Hrun. Qed.

Lemma registry_ok_three_retrying : registry_ok three_retrying.
Proof.
  apply (registry_ok_perm three_raised); try done.
  do 3 apply registry_ok_push_copy.
  apply (registry_ok_perm deploy_handlers); try done.
  apply registry_ok_add, registry_ok_deploy_registered.
Qed.


(** ** A drain interrupted by a reentrant call *)

(** C4, the failing input.  Signals 10, 2 and 2 are captured in the
    active list, with no overflow.  While the handler of signal 10 runs,
    signal 2 arrives once more.  When the body does nothing else, the
    drain sends all three captured signals in capture order and the next
    round of its loop sends the fourth.  When the body then raises an
    occurrence, the nested call of [event_fire] switches the lists and
    resets the count of the list the outer drain is still sending: on
    return that list is empty, the outer loop stops, and the two captures
    of signal 2 are neither sent nor queued, although no overflow was
    recorded or reported.  The overflow of a full list, by contrast, is
    reported when the list is drained. *)
Theorem nested_drain_drops_signals :
  captured (sig_slot (active_list three_pending) three_pending) = [10; 2; 2]
  ∧ overflow (sig_slot (active_list three_pending) three_pending) = 0
  ∧ @event_fire sample_env (@shell sample_env (interrupted_functions false) 6) 6
      None three_pending = Ok drained_plain
  ∧ trace drained_plain
    = trace three_pending
      ++ [Obs_eval "on_usr1 SIGUSR1"; Obs_eval "on_int SIGINT";
          Obs_eval "on_int SIGINT"; Obs_eval "on_int SIGINT"]
  ∧ @event_fire sample_env (@shell sample_env (interrupted_functions true) 6) 6
      None three_pending = Ok drained_nested
  ∧ trace drained_nested
    = trace three_pending ++ [Obs_eval "on_usr1 SIGUSR1"; Obs_eval "on_int SIGINT"]
  ∧ blocked drained_nested = []
  ∧ count (sig_slot (active_list drained_nested) drained_nested) = 0
  ∧ captured (sig_slot 0 three_draining) = [10; 2; 2]
  ∧ active_list three_draining = 1
  ∧ @fire_one sample_env (@shell sample_env (interrupted_functions true) 6)
      (@signal_occurrence sample_env 10) 0%nat three_draining
    = Ok after_interrupted_handler
  ∧ captured (sig_slot 0 after_interrupted_handler) = []
  ∧ active_list after_interrupted_handler = 0
  ∧ trace after_interrupted_handler
    = trace three_pending ++ [Obs_eval "on_usr1 SIGUSR1"; Obs_eval "on_int SIGINT"]
  ∧ count (sig_slot (active_list usr1_overflowed) usr1_overflowed) = 64
  ∧ overflow (sig_slot (active_list usr1_overflowed) usr1_overflowed) = 1
  ∧ @event_fire sample_env (@shell sample_env no_functions 5) 70
      None usr1_overflowed = Ok overflow_drained
  ∧ trace overflow_drained
    = trace usr1_overflowed
      ++ Obs_debug Signal_list_overflow :: replicate 64 (Obs_eval "on_usr1 SIGUSR1").
Proof.
  split_and!; vm_compute; reflexivity.
Qed.

(** C6, the failing input.  A signal occurrence passed to [event_fire] is
    only captured, whatever it carries: no handler runs and the registry,
    the queue and the nesting counter are as before.  With signals 10, 2 and 2 pending, [event_fire] on the
    occurrence [deploy] sends the pending signals first and dispatches
    [deploy] last when the body of the handler of signal 10 raises
    nothing.  When that body, interrupted by signal 2, raises an
    occurrence of its own, the two pending captures of signal 2 are
    dropped by the nested call: [deploy] is dispatched although they were
    neither delivered nor queued. *)
Theorem pending_signals_lost_before_dispatch :
  (∀ (E : Env) (eval : evaluator) (fuel : nat) (s : state) sig str name args,
     @event_fire E eval fuel
       (Some {| type := EVENT_SIGNAL; param1 := sig; str_param1 := str;
                function_name := name; arguments := args |}) s
     = Ok (event_fire_signal sig s)
     ∧ trace (event_fire_signal sig s) = trace s
     ∧ heap (event_fire_signal sig s) = heap s
     ∧ events (event_fire_signal sig s) = events s
     ∧ blocked (event_fire_signal sig s) = blocked s
     ∧ is_event (event_fire_signal sig s) = is_event s)
  ∧ captured (sig_slot (active_list deploy_pending) deploy_pending) = [10; 2; 2]
  ∧ @event_fire sample_env (@shell sample_env (interrupted_functions false) 6) 6
      (Some deploy_event) deploy_pending = Ok fired_plain
  ∧ trace fired_plain
    = trace deploy_pending
      ++ [Obs_eval "on_usr1 SIGUSR1"; Obs_eval "on_int SIGINT";
          Obs_eval "on_int SIGINT"; Obs_eval "on_int SIGINT";
          Obs_eval "on_deploy v2"]
  ∧ @event_fire sample_env (@shell sample_env (interrupted_functions true) 6) 6
      (Some deploy_event) deploy_pending = Ok fired_nested
  ∧ trace fired_nested
    = trace deploy_pending
      ++ [Obs_eval "on_usr1 SIGUSR1"; Obs_eval "on_int SIGINT";
          Obs_eval "on_deploy v2"]
  ∧ blocked fired_nested = []
  ∧ count (sig_slot (active_list fired_nested) fired_nested) = 0.
Proof.
  split.
  { intros E eval fuel s sig str name args. unfold event_fire. simpl.
    split; [done|]. unfold event_fire_signal, set_sig_slot.
    by destruct (_ <? _), (_ =? 0). }
  split_and!; vm_compute; reflexivity.
Qed.
